(** * OpenPlanter: demo-mode censoring ([agent/demo.py]) and the model client

    Part I embeds [agent/demo.py]: the literal path-segment replacements, the
    two entity regular expressions with the backtracking semantics of
    Python's [re], the whitelist test of [_replace_entity],
    [DemoCensor.censor_text], and then [DemoCensor.censor_rich_text] and the
    render hook [DemoRenderHook] over the objects of Rich.

    Part II models the streaming model client from the specification: its
    source, [agent/model.py], is missing; only [tests/test_model.py] is
    there.

    Parts III and IV hold the results on the two; the results on the render
    hook follow those on the censor. *)

From Stdlib Require Import String Ascii.
From Stdlib Require Import List NArith Bool Lia Arith Sorted Permutation.
Import ListNotations.

(* ================================================================== *)
(** * Part I: [agent/demo.py]                                          *)
(* ================================================================== *)

Module Demo.

(** ** Python text

    A Python [str] is a sequence of Unicode code points and [len] counts
    code points, so a string is a list of code points here (the block
    character U+2588 is one element, as in Python). *)

Definition char := N.
Definition pystr := list char.

(** ["█"] *)
Definition block : char := 9608%N.

(** An ASCII literal of the source as a Python string. *)
Definition of_string (s : string) : pystr :=
  map N_of_ascii (list_ascii_of_string s).

Definition char_eqb (a b : char) : bool := N.eqb a b.

Fixpoint pystr_eqb (a b : pystr) : bool :=
  match a, b with
  | [], [] => true
  | x :: a', y :: b' => char_eqb x y && pystr_eqb a' b'
  | _, _ => false
  end.

(** [s.startswith(p)] *)
Fixpoint starts_with (p s : pystr) : bool :=
  match p, s with
  | [], _ => true
  | x :: p', y :: s' => char_eqb x y && starts_with p' s'
  | _ :: _, [] => false
  end.

(** [term in s] on strings: [term] occurs as a contiguous substring. *)
Fixpoint contains (term s : pystr) : bool :=
  starts_with term s ||
  match s with
  | [] => false
  | _ :: s' => contains term s'
  end.

(** [x in collection] for a collection of strings. *)
Definition mem (x : pystr) (l : list pystr) : bool := existsb (pystr_eqb x) l.

(** ** [str.replace(old, new)]

    Left-to-right scan replacing non-overlapping occurrences.  [skip] counts
    the characters of the occurrence just replaced that are still to be
    stepped over.  With an empty [old], Python inserts [new] before every
    character and at the end. *)

Fixpoint replace_from (old new : pystr) (skip : nat) (s : pystr) : pystr :=
  match s with
  | [] => []
  | c :: s' =>
      match skip with
      | S k => replace_from old new k s'
      | O =>
          if starts_with old s
          then new ++ replace_from old new (length old - 1) s'
          else c :: replace_from old new 0 s'
      end
  end.

Definition replace (old new s : pystr) : pystr :=
  match old with
  | [] => new ++ flat_map (fun c => c :: new) s
  | _ :: _ => replace_from old new 0 s
  end.

(** ** Regular expressions of [re], restricted to what the two patterns use *)

Inductive regex : Type :=
| Eps                                   (* empty pattern *)
| Cls (ranges : list (char * char))     (* [a-z], a literal character, ... *)
| Cat (a b : regex)                     (* ab *)
| Alt (a b : regex)                     (* a|b, left alternative first *)
| Opt (a : regex)                       (* a?  greedy *)
| Star (a : regex)                      (* a*  greedy *)
| Plus (a : regex)                      (* a+  greedy *)
| WordB.                                (* \b *)

Definition in_class (ranges : list (char * char)) (c : char) : bool :=
  existsb (fun r => N.leb (fst r) c && N.leb c (snd r)) ranges.

(** A position in the subject string: the character before it (if any) and
    the text from it on. *)
Definition cursor : Type := option char * pystr.

Definition remaining (c : cursor) : nat := length (snd c).

Section Engine.

(** [str.isalnum] on code points above ASCII comes from the interpreter's
    Unicode database, which is no part of the repository: it is a parameter
    of the engine. *)
Variable unicode_alnum : char -> bool.

Definition ascii_alnum (c : char) : bool :=
  in_class [(48, 57); (65, 90); (97, 122)]%N c.

(** [\w] of a [str] pattern: alphanumeric or underscore. *)
Definition is_word (c : char) : bool :=
  if N.ltb c 128 then ascii_alnum c || N.eqb c 95 else unicode_alnum c.

Definition word_opt (o : option char) : bool :=
  match o with Some c => is_word c | None => false end.

(** [\b]: exactly one side of the position is a word character (the ends
    of the string count as non-word). *)
Definition at_boundary (c : cursor) : bool :=
  xorb (word_opt (fst c)) (word_opt (hd_error (snd c))).

Section Repeat.
Variable step : cursor -> list cursor.

(** Greedy repetition: every way of matching the body once more is tried
    before stopping here.  An iteration that consumed nothing ends the
    repetition, as in [re]. *)
Fixpoint star (fuel : nat) (c : cursor) : list cursor :=
  match fuel with
  | O => [c]
  | S fuel' =>
      flat_map
        (fun c' => if remaining c' <? remaining c then star fuel' c' else [c'])
        (step c)
      ++ [c]
  end.
End Repeat.

(** All ways of matching [r] at [c], in the order a backtracking matcher
    tries them; each is the cursor after the match. *)
Fixpoint run (r : regex) (c : cursor) : list cursor :=
  match r with
  | Eps => [c]
  | Cls ranges =>
      match snd c with
      | x :: xs => if in_class ranges x then [(Some x, xs)] else []
      | [] => []
      end
  | Cat a b => flat_map (run b) (run a c)
  | Alt a b => run a c ++ run b c
  | Opt a => run a c ++ [c]
  | Star a => star (run a) (remaining c) c
  | Plus a => flat_map (fun c' => star (run a) (remaining c') c') (run a c)
  | WordB => if at_boundary c then [c] else []
  end.

(** [pattern.match] at a position: the length of the first successful
    match. *)
Definition match_at (r : regex) (prev : option char) (s : pystr) : option nat :=
  match run r (prev, s) with
  | c' :: _ => Some (length s - remaining c')
  | [] => None
  end.

(** ** [pattern.sub(repl, text)] with a function [repl]

    The scan of [sub]: at each position not inside the previous match the
    pattern is tried; a match becomes a [Hit], any other character is
    kept.  (Neither pattern of this module matches the empty string; for a
    pattern that does, the empty match is replaced and the scan moves on
    by one character.) *)

Inductive piece : Type :=
| Keep (c : char)
| Hit (m : pystr).

Fixpoint pieces (r : regex) (skip : nat) (prev : option char) (s : pystr)
  : list piece :=
  match s with
  | [] =>
      match skip, match_at r prev [] with
      | O, Some _ => [Hit []]
      | _, _ => []
      end
  | c :: s' =>
      match skip with
      | S k => pieces r k (Some c) s'
      | O =>
          match match_at r prev s with
          | Some O => Hit [] :: Keep c :: pieces r 0 (Some c) s'
          | Some (S k) => Hit (firstn (S k) s) :: pieces r k (Some c) s'
          | None => Keep c :: pieces r 0 (Some c) s'
          end
      end
  end.

Definition render (repl : pystr -> pystr) (p : piece) : pystr :=
  match p with
  | Keep c => [c]
  | Hit m => repl m
  end.

Definition sub (r : regex) (repl : pystr -> pystr) (text : pystr) : pystr :=
  flat_map (render repl) (pieces r 0 None text).

End Engine.

(** ** The module's constants *)

Definition Chr (c : char) : regex := Cls [(c, c)].

Fixpoint Lit (s : pystr) : regex :=
  match s with
  | [] => Eps
  | c :: s' => Cat (Chr c) (Lit s')
  end.

(** [(?:a|b|...)] over literal alternatives. *)
Definition Alts (l : list string) : regex :=
  fold_right (fun s r => Alt (Lit (of_string s)) r) (Cls []) l.

Definition upper : regex := Cls [(65, 90)]%N.      (* [A-Z] *)
Definition lower : regex := Cls [(97, 122)]%N.     (* [a-z] *)
Definition blank : regex := Cls [(32, 32); (9, 9)]%N.  (* [ \t] *)
Definition capword : regex := Cat upper (Plus lower).  (* [A-Z][a-z]+ *)

(** The pattern [\b( [A-Z][a-z]+ (?: [ \t]+ [A-Z][a-z]+ )+ )\b]
    (written with spaces between its parts). *)
Definition _RE_MULTI_CAP : regex :=
  Cat WordB
      (Cat (Cat capword (Plus (Cat (Plus blank) capword)))
           WordB).

Definition titles : list string :=
  ["Dr"; "Mr"; "Mrs"; "Ms"; "Prof"; "Rev"; "Sen"; "Rep"; "Gov"; "Mayor";
   "Judge"; "Chief"; "Officer"; "Det"; "Sgt"; "Lt"; "Cpt"; "Cmdr"; "Supt"]%string.

(** The pattern [\b( (?:Dr|Mr|...|Supt) \.? [ \t]+ [A-Z][a-z]+ (?: [ \t]+ [A-Z][a-z]+ )* )\b]
    (written with spaces between its parts). *)
Definition _RE_TITLED : regex :=
  Cat WordB
      (Cat (Cat (Alts titles)
                (Cat (Opt (Chr 46%N))
                     (Cat (Plus blank)
                          (Cat capword (Star (Cat (Plus blank) capword))))))
           WordB).

Definition _ENTITY_WHITELIST : list pystr :=
  map of_string
    ["January"; "February"; "March"; "April"; "May"; "June";
     "July"; "August"; "September"; "October"; "November"; "December";
     "Monday"; "Tuesday"; "Wednesday"; "Thursday"; "Friday"; "Saturday"; "Sunday";
     "Python"; "Java"; "JavaScript"; "TypeScript"; "Visual Studio";
     "Open Source"; "Machine Learning"; "Deep Learning";
     "Natural Language"; "Large Language"; "Artificial Intelligence";
     "Stack Overflow"; "Pull Request"; "Code Review";
     "Unit Test"; "Test Case"; "Test Suite";
     "Step"; "Provider"; "Model"; "Reasoning"; "Workspace"; "Session";
     "Token"; "Tokens"; "Type"; "Commands";
     "Open Planter"; "Rich Text"]%string.

Definition _GENERIC_PATH_PARTS : list pystr :=
  map of_string
    ["/"; "Users"; "home"; "Documents"; "Desktop"; "Downloads";
     "Projects"; "repos"; "src"; "var"; "tmp"; "opt"; "etc";
     "Library"; "Applications"; "volumes"; "mnt"; "media";
     "nix"; "store"; "run"; "snap"]%string.

(** ** [DemoCensor] *)

(** What the class reads of a [pathlib.Path]: its [parts] and its [name]. *)
Record Path : Type := { parts : list pystr; name : pystr }.

(** The object: its one attribute, the replacement table. *)
Record DemoCensor : Type := { _replacements : list (pystr * pystr) }.

(** Methods run on the object: a computation takes [self] and returns its
    result with the object as the method left it. *)
Definition Method (A : Type) : Type := DemoCensor -> A * DemoCensor.

Definition ret {A} (a : A) : Method A := fun self => (a, self).
Definition bind {A B} (m : Method A) (k : A -> Method B) : Method B :=
  fun self => let (a, self') := m self in k a self'.
Definition get_replacements : Method (list (pystr * pystr)) :=
  fun self => (_replacements self, self).
Definition set_replacements (l : list (pystr * pystr)) : Method unit :=
  fun _ => (tt, {| _replacements := l |}).

Notation "x <- m ;; k" := (bind m (fun x => k))
  (at level 61, m at next level, right associativity).
Notation "m ;;; k" := (bind m (fun _ => k))
  (at level 61, right associativity).

(** [for x in l: body x] *)
Fixpoint for_each {A} (l : list A) (body : A -> Method unit) : Method unit :=
  match l with
  | [] => ret tt
  | x :: l' => body x ;;; for_each l' body
  end.

(** [list.sort(key=lambda t: len(t[0]), reverse=True)]: stable, longest
    original first. *)
Fixpoint insert_by_len (x : pystr * pystr) (l : list (pystr * pystr))
  : list (pystr * pystr) :=
  match l with
  | [] => [x]
  | y :: l' =>
      if length (fst x) <? length (fst y)
      then y :: insert_by_len x l'
      else x :: l
  end.

Definition sort_longest_first (l : list (pystr * pystr)) : list (pystr * pystr) :=
  fold_right insert_by_len [] l.

(** [_build_path_replacements(workspace)]: the loop over [workspace.parts],
    then the sort. *)
Definition _build_path_replacements (workspace : Path) : Method unit :=
  let project_name := name workspace in
  for_each (parts workspace) (fun part =>
    if mem part _GENERIC_PATH_PARTS then ret tt
    else if pystr_eqb part project_name then ret tt
    else match part with
         | [] => ret tt
         | _ :: _ =>
             let replacement := repeat block (length part) in
             l <- get_replacements ;;
             set_replacements (l ++ [(part, replacement)])
         end) ;;;
  l <- get_replacements ;;
  set_replacements (sort_longest_first l).

(** [DemoCensor(workspace)] *)
Definition __init__ (workspace : Path) : DemoCensor :=
  snd (_build_path_replacements workspace {| _replacements := [] |}).

(** [_replace_entity(m)] on [m.group(0)]: a whitelisted match, or one with
    a whitelisted term inside, is returned as it is; any other becomes a run
    of blocks of its length. *)
Definition _replace_entity (matched : pystr) : pystr :=
  if mem matched _ENTITY_WHITELIST then matched
  else if existsb (fun term => contains term matched) _ENTITY_WHITELIST
       then matched
       else repeat block (length matched).

Section Censor.
Variable unicode_alnum : char -> bool.

(** Step 1 of [censor_text]: the loop over the replacement table. *)
Definition replace_paths (table : list (pystr * pystr)) (text : pystr) : pystr :=
  fold_left (fun t p => replace (fst p) (snd p) t) table text.

(** [censor_text(text)]: the path-segment replacements, the titled pass,
    the multi-capital pass. *)
Definition censor_text (text : pystr) : Method pystr :=
  table <- get_replacements ;;
  let text := replace_paths table text in
  let text := sub unicode_alnum _RE_TITLED _replace_entity text in
  let text := sub unicode_alnum _RE_MULTI_CAP _replace_entity text in
  ret text.

(** The string [censor_text] returns. *)
Definition censored (self : DemoCensor) (text : pystr) : pystr :=
  fst (censor_text text self).
End Censor.

(* ------------------------------------------------------------------ *)
(** ** Vocabulary of the results *)

(** [cens a b]: [b] is [a] itself or the block character.  Every stage of
    [censor_text] maps its input to a string related to it position by
    position. *)
Definition cens (a b : char) : Prop := b = a \/ b = block.

Definition censoring (s t : pystr) : Prop := Forall2 cens s t.

(** [t] has the character [c0] wherever [s] has it. *)
Definition keeps (c0 : char) (s t : pystr) : Prop :=
  Forall2 (fun a b => a = c0 -> b = c0) s t.

(** The parts the loop of [_build_path_replacements] keeps. *)
Definition kept (workspace : Path) (part : pystr) : bool :=
  negb (mem part _GENERIC_PATH_PARTS)
  && negb (pystr_eqb part (name workspace))
  && negb (pystr_eqb part []).

(** The table entry of a part. *)
Definition entry (part : pystr) : pystr * pystr :=
  (part, repeat block (length part)).

(** Every original of the table is non-empty and replaced by a run of
    blocks of its length. *)
Definition good_table (table : list (pystr * pystr)) : Prop :=
  Forall (fun e => fst e <> [] /\ snd e = repeat block (length (fst e))) table.

(** No original of the table has a block in it. *)
Definition block_free (table : list (pystr * pystr)) : Prop :=
  Forall (fun e => ~ In block (fst e)) table.

(** The originals of the replacement table are in order of length, longest
    first. *)
Definition longest_first (table : list (pystr * pystr)) : Prop :=
  StronglySorted (fun a b => length (fst b) <= length (fst a)) table.

(** The text a piece stands for. *)
Definition piece_text (p : piece) : pystr :=
  match p with
  | Keep c => [c]
  | Hit m => m
  end.

(** The second test of [_replace_entity]: a whitelisted term occurs in the
    match. *)
Definition has_whitelisted_term (m : pystr) : bool :=
  existsb (fun term => contains term m) _ENTITY_WHITELIST.

(** ["\n"] *)
Definition newline : char := 10%N.

(** A capital letter A-Z. *)
Definition is_upper (x : char) : bool := in_class [(65, 90)]%N x.

Definition blocks (n : nat) : pystr := repeat block n.

(** *** Static readings of a pattern *)

(** The pattern can match the empty string. *)
Fixpoint nullable (r : regex) : bool :=
  match r with
  | Eps | WordB => true
  | Cls _ => false
  | Cat a b => nullable a && nullable b
  | Alt a b => nullable a || nullable b
  | Opt _ | Star _ => true
  | Plus a => nullable a
  end.

(** [x] can be the first character of a non-empty match. *)
Fixpoint firsts (r : regex) (x : char) : bool :=
  match r with
  | Eps | WordB => false
  | Cls ranges => in_class ranges x
  | Cat a b => firsts a x || (nullable a && firsts b x)
  | Alt a b => firsts a x || firsts b x
  | Opt a | Star a | Plus a => firsts a x
  end.

(** [x] belongs to a character class of the pattern. *)
Fixpoint alphabet (r : regex) (x : char) : bool :=
  match r with
  | Eps | WordB => false
  | Cls ranges => in_class ranges x
  | Cat a b | Alt a b => alphabet a x || alphabet b x
  | Opt a | Star a | Plus a => alphabet a x
  end.

(** From [c] to [c'] the characters consumed all satisfy [A]. *)
Definition eats (A : char -> bool) (c c' : cursor) : Prop :=
  exists consumed, snd c = consumed ++ snd c'
                   /\ Forall (fun x => A x = true) consumed.

(** A match is empty, which takes a nullable pattern, or begins with a
    character of [firsts]. *)
Definition begins (r : regex) (c c' : cursor) : Prop :=
  (c' = c /\ nullable r = true)
  \/ (exists x xs, snd c = x :: xs /\ firsts r x = true /\ remaining c' < remaining c).

(** Every match among the pieces is made of characters that satisfy [A]. *)
Definition hit_within (A : char -> bool) (p : piece) : Prop :=
  match p with
  | Keep _ => True
  | Hit m => Forall (fun x => A x = true) m
  end.

(** *** Unicode tables *)

(** A Unicode table without alphanumerics above ASCII.  On a text of ASCII
    characters and blocks the engine consults the table at the block only,
    which is a symbol (not alphanumeric) in Unicode. *)
Definition ascii_table : char -> bool := fun _ => false.

(** Two Unicode tables classify the characters around and after a position
    alike. *)
Definition agree (t1 t2 : char -> bool) (c : cursor) : Prop :=
  (forall x, fst c = Some x -> is_word t1 x = is_word t2 x)
  /\ Forall (fun x => is_word t1 x = is_word t2 x) (snd c).

(** An ASCII character or the block. *)
Definition plain (x : char) : Prop := (x < 128)%N \/ x = block.

(** *** The workspaces of [tests/test_demo.py] *)

(** [Path("/tmp/Proj")], the workspace of the entity tests. *)
Definition tmp_proj : Path :=
  {| parts := map of_string ["/"; "tmp"; "Proj"]%string;
     name := of_string "Proj" |}.

(** [Path("/Users/bob/Documents/Proj")] *)
Definition bob_proj : Path :=
  {| parts := map of_string ["/"; "Users"; "bob"; "Documents"; "Proj"]%string;
     name := of_string "Proj" |}.

(** No original of the table occurs in the text. *)
Definition clear_of (table : list (pystr * pystr)) (s : pystr) : Prop :=
  Forall (fun e => contains (fst e) s = false) table.

(** *** Characters of a kind in a match *)

(** The number of characters of a text that satisfy [A]. *)
Definition count (A : char -> bool) (s : pystr) : nat := length (filter A s).

(** A number of characters of a kind that every match of the pattern has at
    least, for a test [within] that tells the classes made of such
    characters only: such a class counts one, a repetition that may be
    empty none. *)
Fixpoint min_count (within : list (char * char) -> bool) (r : regex) : nat :=
  match r with
  | Eps | WordB => 0
  | Cls ranges => if within ranges then 1 else 0
  | Cat a b => min_count within a + min_count within b
  | Alt a b => Nat.min (min_count within a) (min_count within b)
  | Opt _ | Star _ => 0
  | Plus a => min_count within a
  end.

(** [within] tells classes whose characters all satisfy [A]. *)
Definition tells (within : list (char * char) -> bool) (A : char -> bool) : Prop :=
  forall ranges x, within ranges = true -> in_class ranges x = true -> A x = true.

(** From [c] to [c'] the characters consumed have [n] that satisfy [A], or
    more. *)
Definition takes (A : char -> bool) (n : nat) (c c' : cursor) : Prop :=
  exists consumed, snd c = consumed ++ snd c' /\ n <= count A consumed.

(** A match among the pieces has [n] characters that satisfy [A], or
    more. *)
Definition hit_count (A : char -> bool) (n : nat) (p : piece) : Prop :=
  match p with
  | Keep _ => True
  | Hit m => n <= count A m
  end.

(** The capital letters A-Z: their number in a text, the classes within
    A-Z, the least number in a match. *)
Definition capitals (s : pystr) : nat := count is_upper s.

Definition capital_class (ranges : list (char * char)) : bool :=
  forallb (fun rg => N.leb 65 (fst rg) && N.leb (snd rg) 90) ranges.

Definition min_capitals (r : regex) : nat := min_count capital_class r.

Definition hit_capitals (n : nat) (p : piece) : Prop := hit_count is_upper n p.

(** The space and the tab: the same. *)
Definition is_blank (x : char) : bool := in_class [(32, 32); (9, 9)]%N x.

Definition blanks (s : pystr) : nat := count is_blank s.

Definition blank_class (ranges : list (char * char)) : bool :=
  forallb (fun rg => N.eqb (fst rg) (snd rg)
                     && (N.eqb (fst rg) 32 || N.eqb (fst rg) 9)) ranges.

Definition min_blanks (r : regex) : nat := min_count blank_class r.

(** The characters the classes of the two patterns are made of: the letters
    A-Z and a-z, the space, the tab and the dot. *)
Definition entity_char (x : char) : bool :=
  in_class [(65, 90); (97, 122); (32, 32); (9, 9); (46, 46)]%N x.

(** *** The ends of a match *)

(** [x] can be the last character of a non-empty match. *)
Fixpoint lasts (r : regex) (x : char) : bool :=
  match r with
  | Eps | WordB => false
  | Cls ranges => in_class ranges x
  | Cat a b => lasts b x || (nullable b && lasts a x)
  | Alt a b => lasts a x || lasts b x
  | Opt a | Star a | Plus a => lasts a x
  end.

(** A match is empty, which takes a nullable pattern, or the cursor after
    it has a character of [lasts] behind it. *)
Definition ends (r : regex) (c c' : cursor) : Prop :=
  (c' = c /\ nullable r = true)
  \/ (exists x, fst c' = Some x /\ lasts r x = true /\ remaining c' < remaining c).

(** The character before the position after [s]; [prev] where [s] is
    empty. *)
Fixpoint last_before (s : pystr) (prev : option char) : option char :=
  match s with
  | [] => prev
  | x :: s' => last_before s' (Some x)
  end.

(** Every match among the pieces stands between two characters that are
    not word characters, or ends of the text; [prev] is the character before
    the pieces. *)
Fixpoint whole_words (word : char -> bool) (prev : option char) (l : list piece)
  : Prop :=
  match l with
  | [] => True
  | Keep c :: l' => whole_words word (Some c) l'
  | Hit m :: l' =>
      match prev with Some x => word x = false | None => True end
      /\ match flat_map piece_text l' with y :: _ => word y = false | [] => True end
      /\ whole_words word (last_before m prev) l'
  end.

End Demo.

(* ================================================================== *)
(** * Part I, continued: the render hook of [agent/demo.py]            *)
(* ================================================================== *)

Module Hook.
Import Demo.

(** ** The renderables of Rich

    [rich.text.Text], [rich.markdown.Markdown] and [rich.rule.Rule] are
    classes of the Rich library, which is no part of the repository.  The
    module reads and assigns [text.plain], reads [markdown.markup], builds
    [Markdown(markup)], and reads and assigns [rule.title]: these are the
    operations of an interface here, with what the module relies on as its
    laws.  The hook is called by a Rich console, so the three imports at the
    head of [_process_one] succeed. *)

(** What [rule.title] holds: Rich takes a str or a Text for the title of a
    Rule.  A Text is held by its identity. *)
Inductive Title : Type :=
| StrTitle (s : pystr)
| TextTitle (at_ : nat).

(** The exceptions that [censor_text] ends in on an argument that is no
    str. *)
Inductive Raised : Type := AttributeError | TypeError.

(** [censor_text] on a Text.  A Text is no str: with an entry in the
    replacement table, step 1 fails at [text.replace], a method a Text has
    not (AttributeError); with an empty table, [_RE_TITLED.sub] fails on an
    argument that is no string (TypeError). *)
Definition raised_on_text (c : DemoCensor) : Raised :=
  match _replacements c with
  | [] => TypeError
  | _ :: _ => AttributeError
  end.

Class Rich : Type := {
  Text : Type;
  Markdown : Type;
  Rule : Type;
  plain : Text -> pystr;                  (* [text.plain] *)
  set_plain : pystr -> Text -> Text;      (* [text.plain = s] *)
  markup : Markdown -> pystr;             (* [markdown.markup] *)
  make_markdown : pystr -> Markdown;      (* [Markdown(s)] *)
  title : Rule -> Title;                  (* [rule.title] *)
  set_title : pystr -> Rule -> Rule;      (* [rule.title = s] *)
  (** [plain] reads what was assigned, for a string that has a block
      where it differs from the old one. *)
  plain_set : forall s t,
    Forall2 (fun a b => b = a \/ b = block) (plain t) s -> plain (set_plain s t) = s;
  markup_make : forall s, markup (make_markdown s) = s;
  title_set : forall s r, title (set_title s r) = StrTitle s
}.

(** An implementation: a Text is its plain string with its style spans
    (start, end, style), a Markdown its markup with a code theme, a Rule its
    title with a line style; an assignment leaves the rest of the object. *)
Definition styled : Rich :=
  {| Text := pystr * list (nat * nat * string);
     Markdown := pystr * string;
     Rule := Title * string;
     plain := fst;
     set_plain := fun s t => (s, snd t);
     markup := fst;
     make_markdown := fun s => (s, "monokai"%string);
     title := fst;
     set_title := fun s r => (StrTitle s, snd r);
     plain_set := fun s t _ => eq_refl;
     markup_make := fun s => eq_refl;
     title_set := fun s r => eq_refl |}.

(** What [process_renderables] is given: references to objects.  The
    constructor tells the class of the object, which [isinstance] tests; the
    number is the identity of the object among those of its class. *)
Inductive Renderable : Type :=
| AText (at_ : nat)
| AMarkdown (at_ : nat)
| ARule (at_ : nat)
| Another (at_ : nat).

Definition same_object (a b : Renderable) : bool :=
  match a, b with
  | AText i, AText j | AMarkdown i, AMarkdown j
  | ARule i, ARule j | Another i, Another j => Nat.eqb i j
  | _, _ => false
  end.

Definition is_markdown (r : Renderable) : bool :=
  match r with
  | AMarkdown _ => true
  | _ => false
  end.

(** How many times an object is listed. *)
Definition times (r : Renderable) (l : list Renderable) : nat :=
  length (filter (same_object r) l).

(** [f] with the value at [k] replaced. *)
Definition upd {A : Type} (f : nat -> A) (k : nat) (v : A) : nat -> A :=
  fun n => if Nat.eqb n k then v else f n.

Section Objects.
Context {R : Rich}.

(** The objects the hook works on: the censor it holds in [self._censor],
    and the Text, Markdown and Rule objects of the program, each under its
    identity.  The Markdown objects built so far are those below
    [allocated]. *)
Record Store : Type := {
  _censor : DemoCensor;
  texts : nat -> Text;
  markdowns : nat -> Markdown;
  rules : nat -> Rule;
  allocated : nat
}.

Definition Render (A : Type) : Type := Store -> A * Store.

(** A method of [self._censor]. *)
Definition on_censor {A : Type} (m : Method A) : Render A :=
  fun st =>
    let (a, c) := m (_censor st) in
    (a, {| _censor := c; texts := texts st; markdowns := markdowns st;
           rules := rules st; allocated := allocated st |}).

(** [text.plain = s] on the object [k]. *)
Definition assign_plain (k : nat) (s : pystr) : Render unit :=
  fun st =>
    (tt, {| _censor := _censor st;
            texts := upd (texts st) k (set_plain s (texts st k));
            markdowns := markdowns st; rules := rules st;
            allocated := allocated st |}).

(** [rule.title = s] on the object [k]. *)
Definition assign_title (k : nat) (s : pystr) : Render unit :=
  fun st =>
    (tt, {| _censor := _censor st; texts := texts st; markdowns := markdowns st;
            rules := upd (rules st) k (set_title s (rules st k));
            allocated := allocated st |}).

(** [Markdown(s)]: a new object. *)
Definition new_markdown (s : pystr) : Render nat :=
  fun st =>
    (allocated st,
     {| _censor := _censor st; texts := texts st;
        markdowns := upd (markdowns st) (allocated st) (make_markdown s);
        rules := rules st; allocated := S (allocated st) |}).

Variable unicode_alnum : char -> bool.

(** [DemoCensor.censor_rich_text(rich_text)] *)
Definition censor_rich_text (rich_text : nat) : Render nat :=
  fun st =>
    let original := plain (texts st rich_text) in
    let (censored, st) := on_censor (censor_text unicode_alnum original) st in
    let st := if negb (pystr_eqb censored original)
              then snd (assign_plain rich_text censored st)
              else st in
    (rich_text, st).

(** [bool(title)], the test of [if renderable.title]: a str is true when
    it is not empty, and so is a Text, by its plain string. *)
Definition truthy (st : Store) (t : Title) : bool :=
  match t with
  | StrTitle s => negb (pystr_eqb s [])
  | TextTitle k => negb (pystr_eqb (plain (texts st k)) [])
  end.

(** [self._censor.censor_text(renderable.title)]: [censor_text] on a str,
    the exception on a Text. *)
Definition censor_title (t : Title) : Render (Raised + pystr) :=
  fun st =>
    match t with
    | StrTitle s =>
        let (new_title, st) := on_censor (censor_text unicode_alnum s) st in
        (inr new_title, st)
    | TextTitle _ => (inl (raised_on_text (_censor st)), st)
    end.

(** [DemoRenderHook._process_one(renderable)]: the renderable returned, or
    the exception raised. *)
Definition _process_one (renderable : Renderable) : Render (Raised + Renderable) :=
  fun st =>
    match renderable with
    | AText k =>
        let (k', st) := censor_rich_text k st in (inr (AText k'), st)
    | AMarkdown k =>
        let (new_markup, st) :=
          on_censor (censor_text unicode_alnum (markup (markdowns st k))) st in
        let (k', st) := new_markdown new_markup st in
        (inr (AMarkdown k'), st)
    | ARule k =>
        if truthy st (title (rules st k))
        then match censor_title (title (rules st k)) st with
             | (inr new_title, st) =>
                 (inr renderable, snd (assign_title k new_title st))
             | (inl e, st) => (inl e, st)
             end
        else (inr renderable, st)
    | Another _ => (inr renderable, st)
    end.

(** [DemoRenderHook.process_renderables(renderables)]: the list
    comprehension, left to right; an exception ends it, and what was
    assigned before stays assigned. *)
Fixpoint process_renderables (renderables : list Renderable)
  : Render (Raised + list Renderable) :=
  fun st =>
    match renderables with
    | [] => (inr [], st)
    | r :: rest =>
        match _process_one r st with
        | (inl e, st) => (inl e, st)
        | (inr r', st) =>
            match process_renderables rest st with
            | (inl e, st) => (inl e, st)
            | (inr rest', st) => (inr (r' :: rest'), st)
            end
        end
    end.

(** The store of a program whose hook holds the censor [censor]. *)
Definition DemoRenderHook (censor : DemoCensor) (texts : nat -> Text)
           (markdowns : nat -> Markdown) (rules : nat -> Rule) (allocated : nat)
  : Store :=
  {| _censor := censor; texts := texts; markdowns := markdowns;
     rules := rules; allocated := allocated |}.

(** What stands in the result for a renderable: the object itself, or for a
    Markdown a new object with the censored markup. *)
Definition stands_for (c : DemoCensor) (before after : Store)
           (r r' : Renderable) : Prop :=
  match r with
  | AMarkdown k =>
      exists k', r' = AMarkdown k'
                 /\ allocated before <= k' < allocated after
                 /\ markdowns after k'
                    = make_markdown (censored unicode_alnum c (markup (markdowns before k)))
  | _ => r' = r
  end.

(** The string a title shows: the str, or the plain string of the Text. *)
Definition title_string (st : Store) (t : Title) : pystr :=
  match t with
  | StrTitle s => s
  | TextTitle k => plain (texts st k)
  end.

(** What a renderable shows -- the plain string of a Text, the markup of
    a Markdown, the title of a Rule -- has no original of the table in
    it. *)
Definition shows_clear (table : list (pystr * pystr)) (st : Store)
           (r : Renderable) : Prop :=
  match r with
  | AText k => clear_of table (plain (texts st k))
  | AMarkdown k => clear_of table (markup (markdowns st k))
  | ARule k => clear_of table (title_string st (title (rules st k)))
  | Another _ => True
  end.

(** The hook can censor the renderable: the title of a Rule is a str, or a
    Text that is empty (which [if renderable.title] passes over). *)
Definition censorable (st : Store) (r : Renderable) : Prop :=
  match r with
  | ARule k =>
      match title (rules st k) with
      | StrTitle _ => True
      | TextTitle j => plain (texts st j) = []
      end
  | _ => True
  end.


(** A Markdown listed is one of the objects built so far. *)
Definition built (n : nat) (r : Renderable) : Prop :=
  match r with
  | AMarkdown k => k < n
  | _ => True
  end.

End Objects.

(** [Path("/Users/jdoe/Documents/Proj")], the workspace of the hook
    tests. *)
Definition jdoe_proj : Path :=
  {| parts := map of_string ["/"; "Users"; "jdoe"; "Documents"; "Proj"]%string;
     name := of_string "Proj" |}.

(** Objects of [tests/test_demo.py] and the like, in the implementation
    [styled]: a Text with a bold span, a Markdown, a Rule with a str for its
    title, a Rule with a Text for its title. *)
Definition styled_text (s : string) : @Text styled :=
  (of_string s, [(0, 5, "bold"%string)]).

Definition styled_markdown (s : string) : @Markdown styled :=
  (of_string s, "github-dark"%string).

Definition styled_rule (s : string) : @Rule styled :=
  (StrTitle (of_string s), "rule.line"%string).

Definition text_titled_rule (k : nat) : @Rule styled :=
  (TextTitle k, "rule.line"%string).

End Hook.


(* ================================================================== *)
(** * Part II: the streaming model client                              *)
(* ================================================================== *)

(** The client itself ([agent/model.py]) is missing; only its tests are
    there.  Every definition of this part is written from the specification,
    and the scenarios of [tests/test_model.py] are replayed on it. *)

Module Model.

(** ** Data model (specification, section 3) *)

(** Modelled from the spec: the role of a Message (system/user/assistant/tool);
    [agent/model.py] is missing. *)
Inductive Role : Type := System | User | Assistant | Tool.

(** Modelled from the spec: the tool-call record of a Message and of a Turn. *)
Record ToolCall : Type :=
  { call_id : string; call_name : string; call_arguments : string }.

(** Modelled from the spec: "Message: role, content, optional tool-call
    record". *)
Record Message : Type :=
  { role : Role; content : string; tool_call : option ToolCall }.

(** Modelled from the spec: "Conversation: ordered, append-only sequence of
    Messages". *)
Definition Conversation : Type := list Message.

(** Modelled from the spec: the reasoning-effort level (low/medium/high). *)
Inductive Effort : Type := Low | Medium | High.

(** Modelled from the spec: the two vendor families of section 4.1. *)
Inductive Family : Type := OpenAICompatible | Anthropic.

(** Modelled from the spec: the outbound request of section 6: the URL, the
    authorization header and the body. *)
Record RequestConfig : Type :=
  { model : string;
    api_key : string;
    base_url : string;
    provider : string;
    reasoning_effort : Effort;
    thinking_type : option string;
    max_retries : nat;
    first_byte_timeout : nat;
    stream_timeout : nat }.

(** Modelled from the spec: "Turn: final assembled text, tool calls,
    stop/finish reason, usage". *)
Record Turn : Type :=
  { text : string; tool_calls : list ToolCall; stop_reason : string; usage : N }.

(** Modelled from the spec: "DeltaEvent: kind in {text, thinking, tool_call}
    plus a content fragment". *)
Inductive DeltaKind : Type := TextDelta | ThinkingDelta | ToolCallDelta.

(** Modelled from the spec: "DeltaEvent: kind [...] plus a content fragment". *)
Record DeltaEvent : Type := { kind : DeltaKind; fragment : string }.

(** Modelled from the spec: the error taxonomy of sections 4.3 and 7. *)
Inductive Error : Type :=
| ModelError (message : string)
| HTTPModelError (status_code : nat) (body : string)
| RateLimitError.

#[local] Set Warnings "-register-all".

(** Modelled from the spec: a JSON body.  An object keeps its fields in
    order. *)
Inductive json : Type :=
| JNull
| JBool (b : bool)
| JNum (n : N)
| JStr (s : string)
| JArr (items : list json)
| JObj (fields : list (string * json)).

(** ** Strings *)

(** Modelled from the spec: substring test used by the structural matching of
    section 4.4 ("string/status inspection"). *)
Fixpoint contains (term s : string) : bool :=
  String.prefix term s ||
  match s with
  | EmptyString => false
  | String _ s' => contains term s'
  end.

(** Modelled from the spec: substitution of a path segment in a URL, every
    occurrence from left to right ([skip] counts the characters of the
    occurrence just replaced that are still to be stepped over). *)
Fixpoint substitute_from (old new : string) (skip : nat) (s : string) : string :=
  match s with
  | EmptyString => EmptyString
  | String c s' =>
      match skip with
      | S k => substitute_from old new k s'
      | O =>
          if String.prefix old s
          then (new ++ substitute_from old new (String.length old - 1) s')%string
          else String c (substitute_from old new 0 s')
      end
  end.

(** Modelled from the spec: "substitute the known replacement segment": every
    occurrence of the segment [old] in [s] becomes [new]. *)
Definition substitute (old new s : string) : string :=
  match old with
  | EmptyString => s
  | String _ _ => substitute_from old new 0 s
  end.

(** ** Fields of a JSON body *)

(** Modelled from the spec: the value of a field of a JSON object (first
    occurrence of the key). *)
Fixpoint lookup (key : string) (fields : list (string * json)) : option json :=
  match fields with
  | [] => None
  | (k, v) :: rest => if String.eqb k key then Some v else lookup key rest
  end.

(** Modelled from the spec: the fields of an object less those named [key]
    ("omits temperature", "without that field"). *)
Definition without_key (key : string) (fields : list (string * json))
  : list (string * json) :=
  filter (fun kv => negb (String.eqb (fst kv) key)) fields.

(** Modelled from the spec: the fields of a JSON body. *)
Definition fields_of (j : json) : list (string * json) :=
  match j with
  | JObj fields => fields
  | _ => []
  end.

(** Modelled from the spec: "rebuild the payload without that field": the
    rebuilt body is the built body less the rejected field. *)
Definition without_field (key : string) (j : json) : json :=
  match j with
  | JObj fields => JObj (without_key key fields)
  | _ => j
  end.

(** ** Payload builders (specification, section 4.1) *)

(** Modelled from the spec: what the specification leaves open.  The
    membership of the "adaptive-thinking" capability class, the thinking
    budgets of the efforts other than medium ("an implementer must define the
    complete low/medium/high table deliberately"), the terminal reasons that
    signal throttling, and the fields of a body the specification does not
    name (sampling temperature, token limits, ...). *)
Record Choices : Type :=
  { adaptive_thinking : string -> bool;
    budget_low : N;
    budget_high : N;
    signals_throttling : string -> bool;
    other_fields : list (string * json) }.

(** Modelled from the spec: the wire name of a role
    (system/user/assistant/tool). *)
Definition role_name (r : Role) : string :=
  match r with
  | System => "system"
  | User => "user"
  | Assistant => "assistant"
  | Tool => "tool"
  end.

(** Modelled from the spec: the wire name of a reasoning-effort level. *)
Definition effort_name (e : Effort) : string :=
  match e with
  | Low => "low"
  | Medium => "medium"
  | High => "high"
  end.

(** Modelled from the spec: "N is derived from the reasoning-effort level
    (observed contract point: effort medium -> 4096)". *)
Definition budget_tokens (ch : Choices) (e : Effort) : N :=
  match e with
  | Low => budget_low ch
  | Medium => 4096
  | High => budget_high ch
  end.

(** Modelled from the spec: a message of the "role/content message array". *)
Definition message_json (m : Message) : json :=
  JObj [("role"%string, JStr (role_name (role m)));
        ("content"%string, JStr (content m))].

(** Modelled from the spec: the system message, which the Anthropic builder
    "separates [...] from the turn array". *)
Definition is_system (m : Message) : bool :=
  match role m with System => true | _ => false end.

(** Modelled from the spec: the OpenAI-compatible builder: "role/content
    message array; includes a reasoning_effort field [...]; includes
    {thinking: {type: mode}} when a thinking mode is configured". *)
Definition build_openai (ch : Choices) (conv : Conversation) (cfg : RequestConfig)
  : json :=
  JObj ([("model"%string, JStr (model cfg));
         ("messages"%string, JArr (map message_json conv));
         ("reasoning_effort"%string, JStr (effort_name (reasoning_effort cfg)))]
        ++ match thinking_type cfg with
           | Some mode => [("thinking"%string, JObj [("type"%string, JStr mode)])]
           | None => []
           end
        ++ other_fields ch).

(** Modelled from the spec: the Anthropic builder: "separates the system
    message from the turn array; for [...] adaptive-thinking models, emits
    {thinking: {type: adaptive}} plus {output_config: {effort: level}} and
    omits temperature; for all other models emits manual thinking
    {thinking: {type: enabled, budget_tokens: N}}". *)
Definition build_anthropic (ch : Choices) (conv : Conversation) (cfg : RequestConfig)
  : json :=
  let head :=
    [("model"%string, JStr (model cfg));
     ("system"%string,
      JStr (String.concat "" (map content (filter is_system conv))));
     ("messages"%string,
      JArr (map message_json (filter (fun m => negb (is_system m)) conv)))] in
  if adaptive_thinking ch (model cfg)
  then JObj (head
             ++ [("thinking"%string, JObj [("type"%string, JStr "adaptive")]);
                 ("output_config"%string,
                  JObj [("effort"%string, JStr (effort_name (reasoning_effort cfg)))])]
             ++ without_key "temperature" (other_fields ch))
  else JObj (head
             ++ [("thinking"%string,
                  JObj [("type"%string, JStr "enabled");
                        ("budget_tokens"%string,
                         JNum (budget_tokens ch (reasoning_effort cfg)))])]
             ++ other_fields ch).

(** Modelled from the spec: the Payload Builder, "pure mapping
    (Conversation, RequestConfig) -> JSON body", one variant per family. *)
Definition build_payload (ch : Choices) (fam : Family) (conv : Conversation)
           (cfg : RequestConfig) : json :=
  match fam with
  | OpenAICompatible => build_openai ch conv cfg
  | Anthropic => build_anthropic ch conv cfg
  end.

(** ** Transport (specification, sections 4.2 and 6) *)

(** Modelled from the spec: the outbound request of section 6: the URL, the
    authorization header and the body. *)
Record Request : Type :=
  { url : string; headers : list (string * string); payload : json }.

(** Modelled from the spec: a tool-call fragment of a frame; fragments
    "accumulate by index until the terminal frame". *)
Record ToolFragment : Type :=
  { frag_index : nat; frag_id : string; frag_name : string; frag_arguments : string }.

(** Modelled from the spec: one incremental frame, read in the vendor's
    framing: OpenAI-compatible [delta.content] / Anthropic text blocks,
    [delta.reasoning_content], tool-call fragments, the finish/stop reason
    and the usage when the frame reports them. *)
Record Frame : Type :=
  { frame_text : option string;
    frame_thinking : option string;
    frame_tools : list ToolFragment;
    frame_reason : option string;
    frame_usage : option N }.

(** Modelled from the spec: what the streaming POST of [complete] comes to
    ("Issues one streaming HTTP POST and reads incremental frames"; every
    provider of [tests/test_model.py] is installed as the stream transport
    [_http_stream_sse], also those that answer with a whole message).
    [Streamed]: a 2xx response whose frames were read to the end of the
    stream.  [HttpFailure]: a non-2xx response, an HTTPModelError with
    status and body.  [Transient]: the attempt ran into one of the two
    timeouts or a network failure before it handed anything on: the
    DeltaEvents of a call are one "non-restartable sequence [...] fed into
    both the external callback and the internal aggregator" (section 9), so
    an attempt that is tried again has fed neither.  [Failed]: the transport
    raises a generic ModelError with this message (malformed response,
    unclassifiable exception). *)
Inductive Response : Type :=
| Streamed (frames : list Frame)
| HttpFailure (status : nat) (body : string)
| Transient
| Failed (message : string).

(** Modelled from the spec: the provider behind the transport: what the
    [n]-th request of the session is answered. *)
Definition Server : Type := nat -> Request -> Response.

(** Modelled from the spec: the client.  [emitted] logs the DeltaEvents
    handed to [on_content_delta], [persisted] the arguments of
    [on_base_url_persist], [sent] the HTTP requests issued with the answer
    each got, each log in order. *)
Record Client : Type :=
  { family : Family;
    config : RequestConfig;
    emitted : list DeltaEvent;
    persisted : list string;
    sent : list (Request * Response) }.

(** Modelled from the spec: a field of a frame that may be absent. *)
Definition opt_list {A} (o : option A) : list A :=
  match o with Some a => [a] | None => [] end.

(** Modelled from the spec: the deltas of a frame: "delta.reasoning_content
    -> kind=thinking", "delta.content -> kind=text", tool-call fragments. *)
Definition deltas_of_frame (f : Frame) : list DeltaEvent :=
  map (fun s => {| kind := ThinkingDelta; fragment := s |}) (opt_list (frame_thinking f))
  ++ map (fun s => {| kind := TextDelta; fragment := s |}) (opt_list (frame_text f))
  ++ map (fun t => {| kind := ToolCallDelta; fragment := frag_arguments t |})
         (frame_tools f).

(** Modelled from the spec: the deltas of a stream, in emission order. *)
Definition deltas_of (frames : list Frame) : list DeltaEvent :=
  flat_map deltas_of_frame frames.

(** Modelled from the spec: "the concatenation of text-kind deltas", in
    order. *)
Fixpoint text_of (ds : list DeltaEvent) : string :=
  match ds with
  | [] => EmptyString
  | d :: ds' =>
      match kind d with
      | TextDelta => (fragment d ++ text_of ds')%string
      | _ => text_of ds'
      end
  end.

(** Modelled from the spec: "tool-call fragments accumulate by index". *)
Fixpoint merge_fragment (t : ToolFragment) (acc : list (nat * ToolCall))
  : list (nat * ToolCall) :=
  match acc with
  | [] => [(frag_index t,
            {| call_id := frag_id t; call_name := frag_name t;
               call_arguments := frag_arguments t |})]
  | (i, c) :: acc' =>
      if Nat.eqb i (frag_index t)
      then (i, {| call_id := (call_id c ++ frag_id t)%string;
                  call_name := (call_name c ++ frag_name t)%string;
                  call_arguments := (call_arguments c ++ frag_arguments t)%string |})
           :: acc'
      else (i, c) :: merge_fragment t acc'
  end.

(** Modelled from the spec: "tool_calls from accumulated fragments". *)
Definition tool_calls_of (frames : list Frame) : list ToolCall :=
  map snd (fold_left (fun acc t => merge_fragment t acc)
                     (flat_map frame_tools frames) []).

(** Modelled from the spec: the last value reported along a stream ("the
    vendor's terminal stop/finish reason"). *)
Definition last_some {A} (l : list (option A)) : option A :=
  fold_left (fun acc o => match o with Some a => Some a | None => acc end) l None.

(** Modelled from the spec: "On stream end, assembles Turn.text as the
    concatenation of text-kind deltas, tool_calls from accumulated
    fragments, and the vendor's terminal stop/finish reason".  A stream
    without a terminal reason is a malformed response. *)
Definition assemble (frames : list Frame) : option Turn :=
  match last_some (map frame_reason frames) with
  | Some reason =>
      Some {| text := text_of (deltas_of frames);
              tool_calls := tool_calls_of frames;
              stop_reason := reason;
              usage := match last_some (map frame_usage frames) with
                       | Some u => u
                       | None => 0%N
                       end |}
  | None => None
  end.

(** Modelled from the spec: computations of the client: state passing over
    [Client]. *)
Definition Run (A : Type) : Type := Client -> A * Client.

(** Modelled from the spec: a computation that only returns. *)
Definition ret {A} (a : A) : Run A := fun st => (a, st).
(** Modelled from the spec: one computation after another. *)
Definition bind {A B} (m : Run A) (k : A -> Run B) : Run B :=
  fun st => let (a, st') := m st in k a st'.

Notation "x <- m ;; k" := (bind m (fun x => k))
  (at level 61, m at next level, right associativity).
Notation "m ;;; k" := (bind m (fun _ => k))
  (at level 61, right associativity).

(** Modelled from the spec: the client reads the RequestConfig it holds. *)
Definition get_config : Run RequestConfig := fun st => (config st, st).
(** Modelled from the spec: the client reads its vendor family. *)
Definition get_family : Run Family := fun st => (family st, st).

(** Modelled from the spec: [on_content_delta(kind, fragment)] for each
    delta, "in emission order". *)
Definition emit (ds : list DeltaEvent) : Run unit :=
  fun st => (tt, {| family := family st; config := config st;
                    emitted := emitted st ++ ds;
                    persisted := persisted st; sent := sent st |}).

(** Modelled from the spec: [on_base_url_persist(new_base_url)]. *)
Definition persist (new_base_url : string) : Run unit :=
  fun st => (tt, {| family := family st; config := config st;
                    emitted := emitted st;
                    persisted := persisted st ++ [new_base_url];
                    sent := sent st |}).

(** Modelled from the spec: the RequestConfig with its [base_url] replaced
    ("Immutable [...] except base_url"). *)
Definition with_base_url (cfg : RequestConfig) (u : string) : RequestConfig :=
  {| model := model cfg; api_key := api_key cfg; base_url := u;
     provider := provider cfg; reasoning_effort := reasoning_effort cfg;
     thinking_type := thinking_type cfg; max_retries := max_retries cfg;
     first_byte_timeout := first_byte_timeout cfg;
     stream_timeout := stream_timeout cfg |}.

(** Modelled from the spec: "update the client's in-memory base URL". *)
Definition set_base_url (u : string) : Run unit :=
  fun st => (tt, {| family := family st; config := with_base_url (config st) u;
                    emitted := emitted st; persisted := persisted st;
                    sent := sent st |}).

(** Modelled from the spec: "Issues one streaming HTTP POST": the provider
    answers the request, and the exchange is logged. *)
Definition post (server : Server) (req : Request) : Run Response :=
  fun st => let resp := server (length (sent st)) req in
            (resp,
             {| family := family st; config := config st;
                emitted := emitted st; persisted := persisted st;
                sent := sent st ++ [(req, resp)] |}).

(** Modelled from the spec: the deltas a response delivers: those of the
    frames of its stream, "in emission order". *)
Definition emitted_by (resp : Response) : list DeltaEvent :=
  match resp with
  | Streamed frames => deltas_of frames
  | HttpFailure _ _ | Transient | Failed _ => []
  end.

(** Modelled from the spec: what a response comes to once no retry is left
    to make: the assembled Turn, an HTTPModelError with status and body, or
    a generic ModelError ("malformed response, unclassifiable exception, or
    transient failure exhausted after the Transport Engine's own
    retries"). *)
Definition outcome (resp : Response) : Error + Turn :=
  match resp with
  | Streamed frames =>
      match assemble frames with
      | Some turn => inr turn
      | None => inl (ModelError "malformed response")
      end
  | HttpFailure status body => inl (HTTPModelError status body)
  | Failed message => inl (ModelError message)
  | Transient => inl (ModelError "transient failure, retries exhausted")
  end.

(** Modelled from the spec: the Transport/Streaming Engine.  One request;
    each delta of a frame is handed to the callback and folded into the
    aggregate; a timeout is a transient failure, "retried up to a bounded
    max_retries using the identical payload"; a non-2xx response is an
    HTTPModelError. *)
Fixpoint transport (server : Server) (retries : nat) (req : Request)
  : Run (Error + Turn) :=
  resp <- post server req ;;
  emit (emitted_by resp) ;;;
  match resp, retries with
  | Transient, S retries' => transport server retries' req
  | _, _ => ret (outcome resp)
  end.

(** ** Error classification and degradation (sections 4.3 and 4.4) *)

(** Modelled from the spec: the field a vendor may reject:
    "reasoning_effort for OpenAI-compatible vendors, thinking for
    Anthropic". *)
Definition rejected_field (fam : Family) : string :=
  match fam with
  | OpenAICompatible => "reasoning_effort"
  | Anthropic => "thinking"
  end.

(** Modelled from the spec: "base_url + a fixed completions path" (the paths
    are those of the URLs in [tests/test_model.py]). *)
Definition completions_path (fam : Family) : string :=
  match fam with
  | OpenAICompatible => "/chat/completions"
  | Anthropic => "/messages"
  end.

(** Modelled from the spec: "an authorization header carrying the credential
    in the vendor's expected form". *)
Definition auth_headers (fam : Family) (cfg : RequestConfig)
  : list (string * string) :=
  match fam with
  | OpenAICompatible => [("Authorization", "Bearer " ++ api_key cfg)]
  | Anthropic => [("x-api-key", api_key cfg)]
  end%string.

(** Modelled from the spec: the request of an attempt.  A stripped attempt
    sends the rebuilt body without the rejected field. *)
Definition request_for (ch : Choices) (fam : Family) (stripped : bool)
           (conv : Conversation) (cfg : RequestConfig) : Request :=
  {| url := (base_url cfg ++ completions_path fam)%string;
     headers := auth_headers fam cfg;
     payload := if stripped
                then without_field (rejected_field fam) (build_payload ch fam conv cfg)
                else build_payload ch fam conv cfg |}.

(** Modelled from the spec: the client builds the request of an attempt from
    the configuration it holds; "retries rebuild from scratch". *)
Definition build_request (ch : Choices) (stripped : bool) (conv : Conversation)
  : Run Request :=
  cfg <- get_config ;;
  fam <- get_family ;;
  ret (request_for ch fam stripped conv cfg).

(** Modelled from the spec: the known deprecated endpoint: the path segment
    [/api/paas/v4] of provider "zai", replaced by [/api/coding/paas/v4]. *)
Definition deprecated_segment : string := "/api/paas/v4".
(** Modelled from the spec: "the known replacement segment
    (/api/coding/paas/v4)". *)
Definition replacement_segment : string := "/api/coding/paas/v4".

(** Modelled from the spec: "the failing request URL matches a known
    deprecated path segment for a specific provider": the provider is "zai"
    and the URL has [/api/paas/v4/]. *)
Definition on_deprecated_endpoint (cfg : RequestConfig) (u : string) : bool :=
  String.eqb (provider cfg) "zai" && contains (deprecated_segment ++ "/") u.

(** Modelled from the spec: the base URL with the deprecated segment replaced. *)
Definition fallback_base_url (base : string) : string :=
  substitute deprecated_segment replacement_segment base.

(** Modelled from the spec: the Error Classifier on a finished response:
    "RateLimitError: vendor-reported terminal reason signals throttling, even
    over an otherwise successful response". *)
Definition classify (ch : Choices) (r : Error + Turn) : Error + Turn :=
  match r with
  | inr turn =>
      if signals_throttling ch (stop_reason turn) then inl RateLimitError else inr turn
  | inl e => inl e
  end.

(** Modelled from the spec: the failure is of the unsupported-parameter
    kind: the text of the error names the rejected field.  "Matching is
    purely structural (string/status inspection of the classified error)":
    the body of an HTTPModelError, the message of a generic ModelError (the
    providers of the two retry tests of [tests/test_model.py] raise a
    ModelError whose message carries the HTTP body). *)
Definition names_rejected_field (fam : Family) (e : Error) : bool :=
  match e with
  | ModelError message => contains (rejected_field fam) message
  | HTTPModelError _ body => contains (rejected_field fam) body
  | RateLimitError => false
  end.

(** Modelled from the spec: the failure is of the endpoint-fallback kind: "an
    HTTPModelError carries status 404 and the failing request URL matches a
    known deprecated path segment for a specific provider". *)
Definition from_deprecated_endpoint (cfg : RequestConfig) (u : string) (e : Error)
  : bool :=
  match e with
  | HTTPModelError status _ => Nat.eqb status 404 && on_deprecated_endpoint cfg u
  | _ => false
  end.

(** Modelled from the spec: one attempt: the request built from the
    configuration the client holds, one run of the transport, the classified
    result. *)
Definition attempt (ch : Choices) (server : Server) (stripped : bool)
           (conv : Conversation) : Run (Request * (Error + Turn)) :=
  cfg <- get_config ;;
  req <- build_request ch stripped conv ;;
  r <- transport server (max_retries cfg) req ;;
  ret (req, classify ch r).

(** Modelled from the spec: the Retry/Degradation Controller, the "explicit
    bounded state machine (ATTEMPT -> DEGRADED_ATTEMPT -> DONE/FAILED)" of
    section 9.  The failure of the attempt is matched against the two kinds;
    each kind it is of is applied (the field stripped, the base URL replaced
    in memory and persisted) and the request is resubmitted once; what the
    degraded attempt comes to is the result, a failure of it "propagates
    as-is".  A failure of neither kind propagates. *)
Definition controller (ch : Choices) (server : Server) (conv : Conversation)
  : Run (Error + Turn) :=
  cfg <- get_config ;;
  fam <- get_family ;;
  first <- attempt ch server false conv ;;
  match snd first with
  | inr turn => ret (inr turn)
  | inl e =>
      let strip_hit := names_rejected_field fam e in
      let swap_hit := from_deprecated_endpoint cfg (url (fst first)) e in
      if strip_hit || swap_hit
      then (if swap_hit
            then set_base_url (fallback_base_url (base_url cfg)) ;;;
                 persist (fallback_base_url (base_url cfg))
            else ret tt) ;;;
           degraded <- attempt ch server strip_hit conv ;;
           ret (snd degraded)
      else ret (inl e)
  end.

(** ** The facade (section 4.5) *)

(** Modelled from the spec: [create_conversation(system_prompt,
    first_user_message)]: "no network call, pure initialization". *)
Definition create_conversation (system_prompt first_user_message : string)
  : Conversation :=
  [{| role := System; content := system_prompt; tool_call := None |};
   {| role := User; content := first_user_message; tool_call := None |}].

(** Modelled from the spec: the Turn as a message of the history ("appended
    to conversation history"). *)
Definition assistant_message (t : Turn) : Message :=
  {| role := Assistant; content := text t; tool_call := hd_error (tool_calls t) |}.

(** Modelled from the spec: what a call returns for a result of the
    controller: the Turn with the conversation it was appended to, or the
    error raised with the conversation as it was. *)
Definition finish (conv : Conversation) (r : Error + Turn)
  : (Error + Turn) * Conversation :=
  match r with
  | inr turn => (inr turn, conv ++ [assistant_message turn])
  | inl e => (inl e, conv)
  end.

(** Modelled from the spec: [complete(conversation)]: "returns a Turn
    (appended to conversation history) or raises the classified error".  The
    result comes with the conversation after the call. *)
Definition complete (ch : Choices) (server : Server) (conv : Conversation)
  : Run ((Error + Turn) * Conversation) :=
  r <- controller ch server conv ;;
  ret (finish conv r).

(** ** Vocabulary of the results *)

(** Modelled from the spec: the client after the endpoint fallback was
    applied (base URL replaced in memory, then persisted) or not. *)
Definition degrade (swap_hit : bool) (cfg : RequestConfig) (st : Client) : Client :=
  if swap_hit
  then snd (persist (fallback_base_url (base_url cfg))
              (snd (set_base_url (fallback_base_url (base_url cfg)) st)))
  else st.

(** The deltas delivered by the responses of a stretch of the exchange log. *)
Definition delivered (log : list (Request * Response)) : list DeltaEvent :=
  flat_map (fun x => emitted_by (snd x)) log.

(** A response whose terminal reason signals throttling. *)
Definition throttled (ch : Choices) (resp : Response) : bool :=
  match outcome resp with
  | inr turn => signals_throttling ch (stop_reason turn)
  | inl _ => false
  end.

(** No response of the log signals throttling. *)
Definition quiet (ch : Choices) (log : list (Request * Response)) : Prop :=
  Forall (fun x => throttled ch (snd x) = false) log.

(** The keys of an object. *)
Definition keys (fields : list (string * json)) : list string := map fst fields.

(** The exchanges of one run of the transport: [n] tries that timed out and
    a last one, all with the request [req]. *)
Definition one_run (req : Request) (n : nat) (last : Response)
  : list (Request * Response) :=
  repeat (req, Transient) n ++ [(req, last)].

(** ** The scenarios of [tests/test_model.py] *)

Local Open Scope string_scope.
Local Open Scope list_scope.

(** One way of settling what the specification leaves open: the adaptive
    class is the model of [test_anthropic_opus46_uses_adaptive_thinking], the
    throttling reason that of
    [test_openai_finish_reason_rate_limit_raises_rate_limit_error]. *)
Definition test_choices : Choices :=
  {| adaptive_thinking := fun m => String.eqb m "claude-opus-4-6";
     budget_low := 1024;
     budget_high := 16384;
     signals_throttling := fun r => String.eqb r "rate_limit";
     other_fields := [("temperature", JNum 0); ("stream", JBool true)] |}.

(** The configuration of a test: the credential ["k"] and the default
    limits of the mocked transport. *)
Definition test_config (model_id base prov : string) (e : Effort)
           (thinking : option string) : RequestConfig :=
  {| model := model_id; api_key := "k"; base_url := base; provider := prov;
     reasoning_effort := e; thinking_type := thinking;
     max_retries := 3; first_byte_timeout := 10; stream_timeout := 120 |}.

(** A client that has not emitted, persisted or sent anything yet. *)
Definition new_client (fam : Family) (cfg : RequestConfig) : Client :=
  {| family := fam; config := cfg; emitted := []; persisted := []; sent := [] |}.

Definition text_frame (s : string) : Frame :=
  {| frame_text := Some s; frame_thinking := None; frame_tools := [];
     frame_reason := None; frame_usage := None |}.

Definition thinking_frame (s : string) : Frame :=
  {| frame_text := None; frame_thinking := Some s; frame_tools := [];
     frame_reason := None; frame_usage := None |}.

Definition final_frame (reason : string) : Frame :=
  {| frame_text := None; frame_thinking := None; frame_tools := [];
     frame_reason := Some reason; frame_usage := None |}.

Definition message_of (s reason : string) : Turn :=
  {| text := s; tool_calls := []; stop_reason := reason; usage := 0 |}.

(** [model.create_conversation("system", "user msg")] *)
Definition test_conv : Conversation := create_conversation "system" "user msg".

(** [OpenAICompatibleModel(model="glm-5", api_key="k",
    base_url="https://api.z.ai/api/paas/v4", provider="zai")] *)
Definition glm_client : Client :=
  new_client OpenAICompatible
             (test_config "glm-5" "https://api.z.ai/api/paas/v4" "zai" Medium None).



(** [test_openai_reasoning_content_forwards_as_thinking]: a thinking frame,
    a text frame, the terminal frame. *)
Definition reasoning_server : Server :=
  fun _ _ => Streamed [thinking_frame "thinking text"; text_frame "final text";
                       final_frame "stop"].





End Model.

(* ================================================================== *)
(** * Part III: results on [agent/demo.py]                             *)
(* ================================================================== *)

Module DemoFacts.
Import Demo.

(* ------------------------------------------------------------------ *)
(** ** Basic facts about strings *)

Lemma char_eqb_eq (a b : char) : char_eqb a b = true <-> a = b.
Proof. apply N.eqb_eq. Qed.

Lemma pystr_eqb_eq (a b : pystr) : pystr_eqb a b = true <-> a = b.
Proof.
  revert b; induction a as [|x a IH]; intros [|y b]; simpl; split;
    try congruence; try reflexivity.
  - rewrite andb_true_iff, char_eqb_eq, IH. intros [-> ->]; reflexivity.
  - intros H; injection H as -> ->.
    rewrite andb_true_iff, char_eqb_eq, IH; split; reflexivity.
Qed.

Lemma starts_with_app (p s : pystr) :
  starts_with p s = true <-> exists rest, s = p ++ rest.
Proof.
  revert s; induction p as [|x p IH]; intros s; simpl.
  - split; [intros _; exists s; reflexivity | reflexivity].
  - destruct s as [|y s].
    + split; [discriminate | intros [rest H]; discriminate].
    + rewrite andb_true_iff, char_eqb_eq, IH. split.
      * intros [-> [rest ->]]. exists rest; reflexivity.
      * intros [rest H]. injection H as -> ->. split; [reflexivity | exists rest; reflexivity].
Qed.

Lemma starts_with_length (p s : pystr) :
  starts_with p s = true -> length p <= length s.
Proof.
  intros H. apply starts_with_app in H as [rest ->].
  rewrite length_app. lia.
Qed.

Lemma starts_with_firstn (p s : pystr) :
  starts_with p s = true -> firstn (length p) s = p.
Proof.
  intros H. apply starts_with_app in H as [rest ->].
  rewrite firstn_app, Nat.sub_diag, firstn_all. simpl. apply app_nil_r.
Qed.

Lemma contains_cons_false (p : pystr) (c : char) (s : pystr) :
  contains p (c :: s) = false ->
  starts_with p (c :: s) = false /\ contains p s = false.
Proof. simpl. intros H. apply orb_false_iff in H. exact H. Qed.

Lemma contains_nil_false (p s : pystr) : contains p s = false -> p <> [].
Proof. intros H ->. destruct s; discriminate. Qed.

Lemma censoring_refl (s : pystr) : censoring s s.
Proof. induction s; constructor; [left; reflexivity | assumption]. Qed.

Lemma censoring_trans (s t u : pystr) :
  censoring s t -> censoring t u -> censoring s u.
Proof.
  intros H; revert u; induction H as [|a b s t Hab _ IH]; intros u Hu.
  - inversion Hu; constructor.
  - inversion Hu as [|b' c t' u' Hbc Htu]; subst. constructor; [|apply IH; assumption].
    destruct Hab as [->| ->]; [exact Hbc|].
    destruct Hbc as [->| ->]; right; reflexivity.
Qed.

Lemma censoring_length (s t : pystr) : censoring s t -> length t = length s.
Proof. intros H. symmetry. exact (Forall2_length H). Qed.

Lemma censoring_app (s1 t1 s2 t2 : pystr) :
  censoring s1 t1 -> censoring s2 t2 -> censoring (s1 ++ s2) (t1 ++ t2).
Proof. apply Forall2_app. Qed.

Lemma censoring_blocks (s : pystr) : censoring s (repeat block (length s)).
Proof. induction s; simpl; constructor; [right; reflexivity | assumption]. Qed.

(** A string free of blocks that starts the censored text started the
    original text. *)
Lemma censoring_starts_with (p s t : pystr) :
  censoring s t -> ~ In block p ->
  starts_with p t = true -> starts_with p s = true.
Proof.
  intros H; revert p; induction H as [|a b s t Hab _ IH]; intros [|x p] Hp; simpl;
    try reflexivity; try discriminate.
  rewrite !andb_true_iff, !char_eqb_eq. intros [-> Hst]. split.
  - destruct Hab as [->| ->]; [reflexivity|]. exfalso; apply Hp; left; reflexivity.
  - apply IH; [|assumption]. intros Hin; apply Hp; right; assumption.
Qed.

Lemma censoring_contains (p s t : pystr) :
  censoring s t -> ~ In block p ->
  contains p s = false -> contains p t = false.
Proof.
  intros H Hp; induction H as [|a b s t Hab Hst IH]; simpl.
  - intros Hs; exact Hs.
  - intros Hs. apply orb_false_iff in Hs as [Hs1 Hs2].
    apply orb_false_iff; split; [|apply IH; exact Hs2].
    destruct (starts_with p (b :: t)) eqn:E; [|reflexivity].
    apply (@censoring_starts_with p (a :: s)) in E;
      [congruence | constructor; assumption | assumption].
Qed.

(* ------------------------------------------------------------------ *)
(** ** [str.replace] with a block run of the same length *)

Lemma replace_from_skip (old new : pystr) (skip : nat) (s : pystr) :
  replace_from old new skip s = replace_from old new 0 (skipn skip s).
Proof.
  revert skip; induction s as [|c s IH]; intros [|k]; simpl; try reflexivity.
  rewrite IH. destruct (skipn k s); reflexivity.
Qed.

Lemma replace_from_hit (old new : pystr) (c : char) (s : pystr) :
  old <> [] ->
  starts_with old (c :: s) = true ->
  replace_from old new 0 (c :: s) =
  new ++ replace_from old new 0 (skipn (length old) (c :: s)).
Proof.
  intros Hne H. simpl replace_from. rewrite H.
  rewrite replace_from_skip. f_equal. f_equal.
  destruct old as [|x old]; [congruence|].
  simpl; rewrite Nat.sub_0_r; reflexivity.
Qed.

Lemma replace_from_miss (old new : pystr) (c : char) (s : pystr) :
  starts_with old (c :: s) = false ->
  replace_from old new 0 (c :: s) = c :: replace_from old new 0 s.
Proof. intros H. simpl replace_from. rewrite H. reflexivity. Qed.

(** Induction along the scan of [replace_from]. *)
Lemma replace_scan_ind (old : pystr) (P : pystr -> Prop) :
  old <> [] ->
  P [] ->
  (forall c s, starts_with old (c :: s) = true ->
               P (skipn (length old) (c :: s)) -> P (c :: s)) ->
  (forall c s, starts_with old (c :: s) = false -> P s -> P (c :: s)) ->
  forall s, P s.
Proof.
  intros Hne Hnil Hhit Hmiss s.
  assert (H : forall n s, length s <= n -> P s).
  { clear s. induction n as [|n IH]; intros [|c s] Hlen; simpl in Hlen;
      try exact Hnil; [lia|].
    destruct (starts_with old (c :: s)) eqn:E.
    - apply Hhit; [exact E|]. apply IH.
      destruct old as [|x old]; [congruence|]. simpl.
      rewrite length_skipn. lia.
    - apply Hmiss; [exact E|]. apply IH. lia. }
  apply (H (length s)). lia.
Qed.

Lemma replace_from_censoring (old : pystr) (s : pystr) :
  old <> [] ->
  censoring s (replace_from old (repeat block (length old)) 0 s).
Proof.
  intros Hne. pattern s. apply (@replace_scan_ind old); [exact Hne|constructor| |].
  - intros c s' E IH. rewrite replace_from_hit by assumption.
    rewrite <- (firstn_skipn (length old) (c :: s')) at 1.
    apply censoring_app; [|exact IH].
    rewrite (starts_with_firstn _ _ E). apply censoring_blocks.
  - intros c s' E IH. rewrite replace_from_miss by assumption.
    constructor; [left; reflexivity | exact IH].
Qed.

(** After the replacement no occurrence of [old] is left. *)
Lemma replace_from_removes (old : pystr) (s : pystr) :
  old <> [] -> ~ In block old ->
  contains old (replace_from old (repeat block (length old)) 0 s) = false.
Proof.
  intros Hne Hb. pattern s. apply (@replace_scan_ind old); [exact Hne|..].
  - simpl. destruct old; [congruence | reflexivity].
  - intros c s' E IH. rewrite replace_from_hit by assumption.
    destruct old as [|x old]; [congruence|].
    remember (replace_from (x :: old) _ 0 _) as tail eqn:Et. clear Et.
    assert (Hx : x <> block) by (intros ->; apply Hb; left; reflexivity).
    clear - IH Hx. induction (length (x :: old)) as [|n IHn]; simpl; [exact IH|].
    simpl in IHn. rewrite IHn.
    replace (char_eqb x block) with false; [reflexivity|].
    symmetry. apply not_true_iff_false. rewrite char_eqb_eq. exact Hx.
  - intros c s' E IH. rewrite replace_from_miss by assumption.
    simpl contains. rewrite IH, orb_false_r.
    destruct (starts_with old (c :: replace_from old _ 0 s')) eqn:E'; [|reflexivity].
    apply (@censoring_starts_with old (c :: s')) in E'; [congruence| |exact Hb].
    constructor; [left; reflexivity | apply replace_from_censoring; exact Hne].
Qed.

(** Where [old] does not occur, nothing is replaced. *)
Lemma replace_from_absent (old new : pystr) (s : pystr) :
  contains old s = false -> replace_from old new 0 s = s.
Proof.
  induction s as [|c s IH]; [reflexivity|].
  intros H. apply contains_cons_false in H as [H1 H2].
  rewrite replace_from_miss by assumption. rewrite IH by assumption. reflexivity.
Qed.

Lemma replace_censoring (old s : pystr) :
  old <> [] -> censoring s (replace old (repeat block (length old)) s).
Proof.
  intros Hne. destruct old as [|x old]; [congruence|].
  apply (@replace_from_censoring (x :: old)); exact Hne.
Qed.

Lemma replace_removes (old s : pystr) :
  old <> [] -> ~ In block old ->
  contains old (replace old (repeat block (length old)) s) = false.
Proof.
  intros Hne Hb. destruct old as [|x old]; [congruence|].
  apply (@replace_from_removes (x :: old)); assumption.
Qed.

Lemma replace_absent (old new s : pystr) :
  contains old s = false -> replace old new s = s.
Proof.
  intros H. pose proof (contains_nil_false _ _ H) as Hne.
  destruct old as [|x old]; [congruence|].
  apply (@replace_from_absent (x :: old)); assumption.
Qed.

Lemma build_loop (workspace : Path) (ps : list pystr) (l : list (pystr * pystr)) :
  for_each ps (fun part =>
    if mem part _GENERIC_PATH_PARTS then ret tt
    else if pystr_eqb part (name workspace) then ret tt
    else match part with
         | [] => ret tt
         | _ :: _ =>
             let replacement := repeat block (length part) in
             l <- get_replacements ;;
             set_replacements (l ++ [(part, replacement)])
         end) {| _replacements := l |}
  = (tt, {| _replacements := l ++ map entry (filter (kept workspace) ps) |}).
Proof.
  revert l; induction ps as [|part ps IH]; intros l.
  - simpl. rewrite app_nil_r. reflexivity.
  - cbn [for_each filter]. unfold bind at 1. unfold kept at 1.
    destruct (mem part _GENERIC_PATH_PARTS); cbn [negb andb].
    { unfold ret at 1. apply IH. }
    destruct (pystr_eqb part (name workspace)); cbn [negb andb].
    { unfold ret at 1. apply IH. }
    destruct part as [|c part]; cbn [pystr_eqb negb].
    { unfold ret at 1. apply IH. }
    unfold bind at 1, get_replacements, set_replacements. cbn [_replacements].
    rewrite IH. cbn [map]. rewrite <- app_assoc. reflexivity.
Qed.

Lemma init_table (workspace : Path) :
  _replacements (__init__ workspace)
  = sort_longest_first (map entry (filter (kept workspace) (parts workspace))).
Proof.
  unfold __init__, _build_path_replacements. unfold bind at 1.
  rewrite build_loop. reflexivity.
Qed.

Lemma insert_by_len_In (x y : pystr * pystr) (l : list (pystr * pystr)) :
  In y (insert_by_len x l) <-> y = x \/ In y l.
Proof.
  induction l as [|z l IH]; simpl.
  - intuition congruence.
  - destruct (length (fst x) <? length (fst z)); simpl; rewrite ?IH; intuition congruence.
Qed.

Lemma sort_longest_first_In (y : pystr * pystr) (l : list (pystr * pystr)) :
  In y (sort_longest_first l) <-> In y l.
Proof.
  induction l as [|x l IH]; simpl; [reflexivity|].
  rewrite insert_by_len_In, IH. intuition congruence.
Qed.

(** Every entry of the table pairs a kept part of the workspace path with a
    run of blocks of its length. *)
Lemma init_table_entries (workspace : Path) (e : pystr * pystr) :
  In e (_replacements (__init__ workspace)) ->
  In (fst e) (parts workspace) /\ kept workspace (fst e) = true /\
  fst e <> [] /\ snd e = repeat block (length (fst e)).
Proof.
  rewrite init_table, sort_longest_first_In, in_map_iff.
  intros [part [<- Hin]]. apply filter_In in Hin as [Hin Hk]. simpl.
  repeat split; try assumption.
  intros ->. unfold kept in Hk. rewrite !andb_true_iff in Hk.
  destruct Hk as [_ Hk]. discriminate.
Qed.

Lemma init_good_table (workspace : Path) :
  good_table (_replacements (__init__ workspace)).
Proof.
  apply Forall_forall. intros e He.
  apply init_table_entries in He. tauto.
Qed.

(* ------------------------------------------------------------------ *)
(** ** The three stages only censor *)

Lemma replace_paths_censoring (table : list (pystr * pystr)) (text : pystr) :
  good_table table -> censoring text (replace_paths table text).
Proof.
  intros H; revert text; induction H as [|[old new] table [Hne Hnew] _ IH];
    intros text; simpl.
  - apply censoring_refl.
  - simpl in Hne, Hnew. subst new.
    eapply censoring_trans; [apply replace_censoring; exact Hne | apply IH].
Qed.

Lemma _replace_entity_cases (m : pystr) :
  _replace_entity m = m \/ _replace_entity m = repeat block (length m).
Proof.
  unfold _replace_entity.
  destruct (mem m _ENTITY_WHITELIST); [left; reflexivity|].
  destruct (existsb _ _); [left | right]; reflexivity.
Qed.

Lemma _replace_entity_censoring (m : pystr) : censoring m (_replace_entity m).
Proof.
  destruct (_replace_entity_cases m) as [-> | ->];
    [apply censoring_refl | apply censoring_blocks].
Qed.

Section Passes.
Variable unicode_alnum : char -> bool.

Lemma match_at_le (r : regex) (prev : option char) (s : pystr) (n : nat) :
  match_at unicode_alnum r prev s = Some n -> n <= length s.
Proof.
  unfold match_at. destruct (run _ _ _); [discriminate|].
  intros H; injection H as <-. lia.
Qed.

(** The pieces of a scan spell the scanned text. *)
Lemma pieces_text (r : regex) (skip : nat) (prev : option char) (s : pystr) :
  flat_map piece_text (pieces unicode_alnum r skip prev s) = skipn skip s.
Proof.
  revert skip prev; induction s as [|c s IH]; intros skip prev.
  - simpl. destruct skip; [destruct (match_at _ _ _ _)|]; reflexivity.
  - destruct skip as [|k]; [|simpl; apply IH].
    simpl pieces. destruct (match_at _ _ _ _) as [[|k]|] eqn:E.
    + simpl. rewrite IH. reflexivity.
    + cbn [flat_map piece_text]. rewrite IH.
      change (skipn k s) with (skipn (S k) (c :: s)).
      exact (firstn_skipn (S k) (c :: s)).
    + simpl. rewrite IH. reflexivity.
Qed.

Lemma render_censoring (l : list piece) :
  censoring (flat_map piece_text l) (flat_map (render _replace_entity) l).
Proof.
  induction l as [|[c|m] l IH]; simpl.
  - constructor.
  - constructor; [left; reflexivity | exact IH].
  - apply censoring_app; [apply _replace_entity_censoring | exact IH].
Qed.

Lemma sub_censoring (r : regex) (text : pystr) :
  censoring text (sub unicode_alnum r _replace_entity text).
Proof.
  unfold sub.
  rewrite <- (pieces_text r 0 None text) at 1.
  apply render_censoring.
Qed.

(** What [censor_text] returns, and that it leaves the object alone. *)
Lemma censor_text_run (self : DemoCensor) (text : pystr) :
  censor_text unicode_alnum text self =
  (sub unicode_alnum _RE_MULTI_CAP _replace_entity
     (sub unicode_alnum _RE_TITLED _replace_entity
        (replace_paths (_replacements self) text)),
   self).
Proof. reflexivity. Qed.

Lemma censored_censoring (self : DemoCensor) (text : pystr) :
  good_table (_replacements self) ->
  censoring text (censored unicode_alnum self text).
Proof.
  intros H. unfold censored. rewrite censor_text_run. simpl.
  eapply censoring_trans; [apply replace_paths_censoring; exact H|].
  eapply censoring_trans; apply sub_censoring.
Qed.

End Passes.

Lemma replace_paths_removes (table : list (pystr * pystr)) (text : pystr) :
  good_table table -> block_free table ->
  Forall (fun e => contains (fst e) (replace_paths table text) = false) table.
Proof.
  intros Hg; revert text; induction Hg as [|[old new] table [Hne Hnew] Hg IH];
    intros text Hb; [constructor|].
  inversion Hb as [|e l Hold Hb']; subst. simpl in Hne, Hnew, Hold. subst new.
  constructor; [|apply IH; exact Hb'].
  simpl. apply (censoring_contains old (replace old (repeat block (length old)) text)).
  - apply replace_paths_censoring; exact Hg.
  - exact Hold.
  - apply replace_removes; assumption.
Qed.

Lemma replace_paths_absent (table : list (pystr * pystr)) (text : pystr) :
  Forall (fun e => contains (fst e) text = false) table ->
  replace_paths table text = text.
Proof.
  induction 1 as [|[old new] table Hold _ IH]; [reflexivity|].
  simpl in *. rewrite (replace_absent old new text Hold). exact IH.
Qed.

Lemma init_block_free (workspace : Path) :
  Forall (fun part => ~ In block part) (parts workspace) ->
  block_free (_replacements (__init__ workspace)).
Proof.
  intros H. apply Forall_forall. intros e He.
  apply init_table_entries in He as [Hin _].
  rewrite Forall_forall in H. apply H; exact Hin.
Qed.

Lemma _replace_entity_whitelisted (m : pystr) :
  has_whitelisted_term m = true -> _replace_entity m = m.
Proof.
  unfold _replace_entity, has_whitelisted_term. intros ->.
  destruct (mem m _ENTITY_WHITELIST); reflexivity.
Qed.

Lemma render_length (l : list piece) :
  length (flat_map (render _replace_entity) l) = length (flat_map piece_text l).
Proof. apply censoring_length, render_censoring. Qed.

(** One pass of [sub]: a match with a whitelisted term inside stands in the
    result where it stood in the subject. *)
Lemma sub_keeps_whitelisted (unicode_alnum : char -> bool) (r : regex)
      (s : pystr) (pre post : list piece) (m : pystr) :
  pieces unicode_alnum r 0 None s = pre ++ Hit m :: post ->
  has_whitelisted_term m = true ->
  s = flat_map piece_text pre ++ m ++ flat_map piece_text post /\
  sub unicode_alnum r _replace_entity s =
    flat_map (render _replace_entity) pre ++ m
    ++ flat_map (render _replace_entity) post /\
  length (flat_map (render _replace_entity) pre) = length (flat_map piece_text pre).
Proof.
  intros Hp Hw. repeat split.
  - rewrite <- (pieces_text unicode_alnum r 0 None s) at 1.
    rewrite Hp, flat_map_app. reflexivity.
  - unfold sub. rewrite Hp, flat_map_app. simpl.
    rewrite (_replace_entity_whitelisted m Hw). reflexivity.
  - apply render_length.
Qed.

(* ------------------------------------------------------------------ *)
(** ** What a match consumes *)

Lemma eats_refl (A : char -> bool) (c : cursor) : eats A c c.
Proof. exists []. split; [reflexivity | constructor]. Qed.

Lemma eats_trans (A : char -> bool) (c1 c2 c3 : cursor) :
  eats A c1 c2 -> eats A c2 c3 -> eats A c1 c3.
Proof.
  intros [l1 [H1 F1]] [l2 [H2 F2]]. exists (l1 ++ l2). split.
  - rewrite H1, H2, app_assoc. reflexivity.
  - apply Forall_app; split; assumption.
Qed.

Lemma eats_weaken (A B : char -> bool) (c c' : cursor) :
  (forall x, A x = true -> B x = true) -> eats A c c' -> eats B c c'.
Proof.
  intros HAB [l [H F]]. exists l. split; [exact H|].
  eapply Forall_impl; [|exact F]. exact HAB.
Qed.

Lemma eats_remaining (A : char -> bool) (c c' : cursor) :
  eats A c c' -> remaining c' <= remaining c.
Proof. intros [l [H _]]. unfold remaining. rewrite H, length_app. lia. Qed.

Section Consumption.
Variable unicode_alnum : char -> bool.

Lemma star_eats (A : char -> bool) (step : cursor -> list cursor) :
  (forall c c', In c' (step c) -> eats A c c') ->
  forall fuel c c', In c' (star step fuel c) -> eats A c c'.
Proof.
  intros Hstep. induction fuel as [|fuel IH]; intros c c' Hin; simpl in Hin.
  - destruct Hin as [<-|[]]. apply eats_refl.
  - apply in_app_or in Hin as [Hin|[<-|[]]]; [|apply eats_refl].
    apply in_flat_map in Hin as [c1 [H1 Hin]].
    destruct (remaining c1 <? remaining c).
    + eapply eats_trans; [apply Hstep; exact H1 | apply IH; exact Hin].
    + destruct Hin as [<-|[]]. apply Hstep; exact H1.
Qed.

(** Every character a match consumes belongs to a class of the pattern. *)
Lemma run_eats (r : regex) (c c' : cursor) :
  In c' (run unicode_alnum r c) -> eats (alphabet r) c c'.
Proof.
  revert c c'; induction r as [|ranges|a IHa b IHb|a IHa b IHb|a IHa|a IHa|a IHa|];
    intros c c' Hin; simpl in Hin.
  - destruct Hin as [<-|[]]. apply eats_refl.
  - destruct c as [prev [|x xs]]; simpl in Hin; [contradiction|].
    destruct (in_class ranges x) eqn:E; [|contradiction].
    destruct Hin as [<-|[]]. exists [x]. split; [reflexivity|].
    constructor; [exact E | constructor].
  - apply in_flat_map in Hin as [c1 [H1 H2]].
    eapply eats_trans.
    + eapply eats_weaken; [|apply IHa; exact H1].
      intros x Hx; simpl; rewrite Hx; reflexivity.
    + eapply eats_weaken; [|apply IHb; exact H2].
      intros x Hx; simpl; rewrite Hx; apply orb_true_r.
  - apply in_app_or in Hin as [Hin|Hin].
    + eapply eats_weaken; [|apply IHa; exact Hin].
      intros x Hx; simpl; rewrite Hx; reflexivity.
    + eapply eats_weaken; [|apply IHb; exact Hin].
      intros x Hx; simpl; rewrite Hx; apply orb_true_r.
  - apply in_app_or in Hin as [Hin|[<-|[]]]; [apply IHa; exact Hin | apply eats_refl].
  - apply (star_eats (alphabet a) (run unicode_alnum a) IHa _ _ _ Hin).
  - apply in_flat_map in Hin as [c1 [H1 H2]].
    eapply eats_trans; [apply IHa; exact H1|].
    apply (star_eats (alphabet a) (run unicode_alnum a) IHa _ _ _ H2).
  - destruct (at_boundary unicode_alnum c); [|contradiction].
    destruct Hin as [<-|[]]. apply eats_refl.
Qed.

Lemma star_begins (a : regex) :
  (forall c c', In c' (run unicode_alnum a c) -> begins a c c') ->
  forall fuel c c', In c' (star (run unicode_alnum a) fuel c) ->
                    c' = c \/ (exists x xs, snd c = x :: xs /\ firsts a x = true
                                            /\ remaining c' < remaining c).
Proof.
  intros Ha. induction fuel as [|fuel IH]; intros c c' Hin; simpl in Hin.
  - destruct Hin as [<-|[]]. left; reflexivity.
  - apply in_app_or in Hin as [Hin|[<-|[]]]; [|left; reflexivity].
    apply in_flat_map in Hin as [c1 [H1 Hin]].
    destruct (Ha _ _ H1) as [[-> _]|(x & xs & Hs & Hx & Hlt)].
    + rewrite Nat.ltb_irrefl in Hin. destruct Hin as [<-|[]]. left; reflexivity.
    + right. exists x, xs. repeat split; try assumption.
      apply Nat.ltb_lt in Hlt as Hlt'. rewrite Hlt' in Hin.
      destruct (IH _ _ Hin) as [->|(_ & _ & _ & _ & Hlt2)]; lia.
Qed.

Lemma run_begins (r : regex) (c c' : cursor) :
  In c' (run unicode_alnum r c) -> begins r c c'.
Proof.
  revert c c'; induction r as [|ranges|a IHa b IHb|a IHa b IHb|a IHa|a IHa|a IHa|];
    intros c c' Hin; simpl in Hin.
  - destruct Hin as [<-|[]]. left; split; reflexivity.
  - destruct c as [prev [|x xs]]; simpl in Hin; [contradiction|].
    destruct (in_class ranges x) eqn:E; [|contradiction].
    destruct Hin as [<-|[]]. right. exists x, xs.
    repeat split; [exact E | unfold remaining; simpl; lia].
  - apply in_flat_map in Hin as [c1 [H1 H2]].
    destruct (IHa _ _ H1) as [[-> Na]|(x & xs & Hs & Hx & Hlt)].
    + destruct (IHb _ _ H2) as [[-> Nb]|(x & xs & Hs & Hx & Hlt)].
      * left. split; [reflexivity | simpl; rewrite Na, Nb; reflexivity].
      * right. exists x, xs. repeat split; try assumption.
        simpl. rewrite Na, Hx. apply orb_true_r.
    + right. exists x, xs. repeat split; try assumption.
      * simpl. rewrite Hx. reflexivity.
      * destruct (IHb _ _ H2) as [[-> _]|(_ & _ & _ & _ & Hlt2)]; lia.
  - apply in_app_or in Hin as [Hin|Hin].
    + destruct (IHa _ _ Hin) as [[-> Na]|(x & xs & Hs & Hx & Hlt)].
      * left. split; [reflexivity | simpl; rewrite Na; reflexivity].
      * right. exists x, xs. repeat split; try assumption.
        simpl. rewrite Hx. reflexivity.
    + destruct (IHb _ _ Hin) as [[-> Nb]|(x & xs & Hs & Hx & Hlt)].
      * left. split; [reflexivity | simpl; rewrite Nb; apply orb_true_r].
      * right. exists x, xs. repeat split; try assumption.
        simpl. rewrite Hx. apply orb_true_r.
  - apply in_app_or in Hin as [Hin|[<-|[]]]; [|left; split; reflexivity].
    destruct (IHa _ _ Hin) as [[-> Na]|H]; [left; split; reflexivity | right; exact H].
  - destruct (star_begins a IHa _ _ _ Hin) as [->|H];
      [left; split; reflexivity | right; exact H].
  - apply in_flat_map in Hin as [c1 [H1 H2]].
    destruct (IHa _ _ H1) as [[-> Na]|(x & xs & Hs & Hx & Hlt)].
    + destruct (star_begins a IHa _ _ _ H2) as [->|H];
        [left; split; [reflexivity | exact Na] | right; exact H].
    + right. exists x, xs. repeat split; try assumption.
      destruct (star_begins a IHa _ _ _ H2) as [->|(_ & _ & _ & _ & Hlt2)]; lia.
  - destruct (at_boundary unicode_alnum c); [|contradiction].
    destruct Hin as [<-|[]]. left; split; reflexivity.
Qed.

(** A pattern that is not nullable has no match where the text ends or
    goes on with a character outside [firsts]. *)
Lemma match_at_none (r : regex) (prev : option char) (s : pystr) :
  nullable r = false ->
  match s with [] => True | x :: _ => firsts r x = false end ->
  match_at unicode_alnum r prev s = None.
Proof.
  intros Hn Hs. unfold match_at.
  destruct (run unicode_alnum r (prev, s)) as [|c' l] eqn:E; [reflexivity|].
  assert (Hin : In c' (run unicode_alnum r (prev, s))) by (rewrite E; left; reflexivity).
  apply run_begins in Hin as [[_ Hn']|(x & xs & Hx & Hf & _)]; [congruence|].
  simpl in Hx. subst s. congruence.
Qed.

(** A match of a pattern that is not nullable is not empty. *)
Lemma match_at_positive (r : regex) (prev : option char) (s : pystr) (n : nat) :
  nullable r = false ->
  match_at unicode_alnum r prev s = Some n -> 1 <= n.
Proof.
  intros Hn. unfold match_at.
  destruct (run unicode_alnum r (prev, s)) as [|c' l] eqn:E; [discriminate|].
  intros H; injection H as <-.
  assert (Hin : In c' (run unicode_alnum r (prev, s))) by (rewrite E; left; reflexivity).
  apply run_begins in Hin as [[_ Hn']|(x & xs & _ & _ & Hlt)]; [congruence|].
  unfold remaining in Hlt. simpl in Hlt. unfold remaining. lia.
Qed.

(** The text of a match is made of characters of the pattern's classes. *)
Lemma match_at_alphabet (r : regex) (prev : option char) (s : pystr) (n : nat) :
  match_at unicode_alnum r prev s = Some n ->
  Forall (fun x => alphabet r x = true) (firstn n s).
Proof.
  unfold match_at.
  destruct (run unicode_alnum r (prev, s)) as [|c' l] eqn:E; [discriminate|].
  intros H; injection H as <-.
  assert (Hin : In c' (run unicode_alnum r (prev, s))) by (rewrite E; left; reflexivity).
  apply run_eats in Hin as [consumed [Hs F]]. simpl in Hs.
  unfold remaining. rewrite Hs at 1 2. rewrite length_app.
  replace (length consumed + length (snd c') - length (snd c')) with (length consumed) by lia.
  rewrite firstn_app, Nat.sub_diag, firstn_all. simpl. rewrite app_nil_r. exact F.
Qed.

Lemma pieces_hits (r : regex) (skip : nat) (prev : option char) (s : pystr) :
  Forall (hit_within (alphabet r)) (pieces unicode_alnum r skip prev s).
Proof.
  revert skip prev; induction s as [|c s IH]; intros skip prev.
  - simpl. destruct skip; [|constructor].
    destruct (match_at _ _ _ _); constructor; constructor.
  - destruct skip as [|k]; [|simpl; apply IH].
    simpl pieces. destruct (match_at _ _ _ _) as [[|k]|] eqn:E.
    + constructor; [constructor|]. constructor; [exact I | apply IH].
    + constructor; [|apply IH]. apply (match_at_alphabet r prev (c :: s) (S k) E).
    + constructor; [exact I | apply IH].
Qed.

(** Where the pattern has no match at all, [sub] returns the text. *)
Lemma pieces_no_match (r : regex) (prev : option char) (s : pystr) :
  nullable r = false ->
  Forall (fun x => firsts r x = false) s ->
  pieces unicode_alnum r 0 prev s = map Keep s.
Proof.
  intros Hn H; revert prev; induction H as [|c s Hc _ IH]; intros prev.
  - simpl. rewrite match_at_none; [reflexivity | exact Hn | exact I].
  - simpl pieces. rewrite match_at_none; [|exact Hn|exact Hc].
    simpl. rewrite IH. reflexivity.
Qed.

Lemma sub_no_match (r : regex) (repl : pystr -> pystr) (s : pystr) :
  nullable r = false ->
  Forall (fun x => firsts r x = false) s ->
  sub unicode_alnum r repl s = s.
Proof.
  intros Hn H. unfold sub. rewrite pieces_no_match by assumption.
  clear. induction s as [|c s IH]; [reflexivity|]. simpl. rewrite IH. reflexivity.
Qed.

End Consumption.

(* ------------------------------------------------------------------ *)
(** ** The two patterns *)

Ltac range_cases H :=
  repeat match type of H with
         | (_ || _) = true => apply orb_true_iff in H; destruct H as [H|H]
         | false = true => discriminate H
         end.

Ltac range_bounds H :=
  let H1 := fresh in
  let H2 := fresh in
  apply andb_true_iff in H; destruct H as [H1 H2];
  apply N.leb_le in H1; apply N.leb_le in H2.

Lemma is_upper_iff (x : char) : is_upper x = true <-> (65 <= x <= 90)%N.
Proof.
  unfold is_upper, in_class. cbn. rewrite orb_false_r, andb_true_iff, !N.leb_le. tauto.
Qed.

(** Neither pattern matches the empty string. *)
Lemma patterns_not_nullable :
  nullable _RE_TITLED = false /\ nullable _RE_MULTI_CAP = false.
Proof. split; reflexivity. Qed.

(** Both patterns begin with a capital letter. *)
Lemma titled_firsts (x : char) : firsts _RE_TITLED x = true -> is_upper x = true.
Proof.
  intros H. cbn in H. apply is_upper_iff.
  range_cases H; range_bounds H; lia.
Qed.

Lemma multi_firsts (x : char) : firsts _RE_MULTI_CAP x = true -> is_upper x = true.
Proof.
  intros H. cbn in H. apply is_upper_iff.
  range_cases H; range_bounds H; lia.
Qed.

(** Neither pattern has a class with the newline in it. *)
Lemma titled_alphabet (x : char) : alphabet _RE_TITLED x = true -> x <> newline.
Proof.
  intros H. cbn in H. unfold newline.
  range_cases H; range_bounds H; lia.
Qed.

Lemma multi_alphabet (x : char) : alphabet _RE_MULTI_CAP x = true -> x <> newline.
Proof.
  intros H. cbn in H. unfold newline.
  range_cases H; range_bounds H; lia.
Qed.

Lemma no_capitals_no_firsts (r : regex) (s : pystr) :
  (forall x, firsts r x = true -> is_upper x = true) ->
  Forall (fun x => is_upper x = false) s ->
  Forall (fun x => firsts r x = false) s.
Proof.
  intros Hr H. eapply Forall_impl; [|exact H]. intros x Hx. cbv beta in *.
  destruct (firsts r x) eqn:E; [|reflexivity]. apply Hr in E. congruence.
Qed.

Lemma keeps_refl (c0 : char) (s : pystr) : keeps c0 s s.
Proof. induction s; constructor; auto. Qed.

Lemma keeps_trans (c0 : char) (s t u : pystr) :
  keeps c0 s t -> keeps c0 t u -> keeps c0 s u.
Proof.
  intros H; revert u; induction H as [|a b s t Hab _ IH]; intros u Hu;
    inversion Hu as [|b' c t' u' Hbc Htu]; subst; constructor.
  - intros Ha. apply Hbc, Hab, Ha.
  - apply IH; exact Htu.
Qed.

Lemma keeps_blocks (c0 : char) (m : pystr) :
  Forall (fun x => x <> c0) m -> keeps c0 m (repeat block (length m)).
Proof.
  induction 1 as [|x m Hx _ IH]; simpl; constructor; [|exact IH].
  intros ->. contradiction.
Qed.

Lemma render_keeps (A : char -> bool) (c0 : char) (l : list piece) :
  (forall x, A x = true -> x <> c0) ->
  Forall (hit_within A) l ->
  keeps c0 (flat_map piece_text l) (flat_map (render _replace_entity) l).
Proof.
  intros HA H. induction H as [|[c|m] l Hp _ IH]; simpl.
  - constructor.
  - constructor; [auto | exact IH].
  - apply Forall2_app; [|exact IH].
    destruct (_replace_entity_cases m) as [-> | ->]; [apply keeps_refl|].
    apply keeps_blocks. simpl in Hp. eapply Forall_impl; [|exact Hp]. exact HA.
Qed.

Lemma sub_keeps_newlines (unicode_alnum : char -> bool) (r : regex) (s : pystr) :
  (forall x, alphabet r x = true -> x <> newline) ->
  keeps newline s (sub unicode_alnum r _replace_entity s).
Proof.
  intros Hr. unfold sub.
  rewrite <- (pieces_text unicode_alnum r 0 None s) at 1.
  apply (render_keeps (alphabet r)); [exact Hr | apply pieces_hits].
Qed.

(* ------------------------------------------------------------------ *)
(** ** The order of the replacement table *)

Lemma insert_by_len_perm (x : pystr * pystr) (l : list (pystr * pystr)) :
  Permutation (x :: l) (insert_by_len x l).
Proof.
  induction l as [|y l IH]; simpl; [reflexivity|].
  destruct (length (fst x) <? length (fst y)); [|reflexivity].
  rewrite perm_swap. constructor. exact IH.
Qed.

Lemma insert_by_len_sorted (x : pystr * pystr) (l : list (pystr * pystr)) :
  longest_first l -> longest_first (insert_by_len x l).
Proof.
  unfold longest_first. induction 1 as [|y l Hs IH Hy]; simpl.
  - constructor; constructor.
  - match goal with |- context [if ?b then _ else _] => destruct b eqn:E end.
    + apply Nat.ltb_lt in E. constructor; [exact IH|].
      apply Forall_forall. intros z Hz.
      apply insert_by_len_In in Hz as [->|Hz]; [unfold pystr in *; lia|].
      rewrite Forall_forall in Hy. apply Hy; exact Hz.
    + apply Nat.ltb_ge in E. constructor; [constructor; assumption|].
      constructor; [exact E|].
      eapply Forall_impl; [|exact Hy]. cbv beta. intros z Hz.
      unfold pystr in *; lia.
Qed.

Lemma sort_longest_first_sorted (l : list (pystr * pystr)) :
  longest_first (sort_longest_first l).
Proof.
  induction l as [|x l IH]; simpl; [constructor | apply insert_by_len_sorted; exact IH].
Qed.

Lemma sort_longest_first_perm (l : list (pystr * pystr)) :
  Permutation l (sort_longest_first l).
Proof.
  induction l as [|x l IH]; simpl; [constructor|].
  rewrite <- insert_by_len_perm. constructor. exact IH.
Qed.

(* ------------------------------------------------------------------ *)
(** ** The two tests of [_replace_entity] *)

Lemma starts_with_refl (s : pystr) : starts_with s s = true.
Proof.
  induction s as [|c s IH]; [reflexivity|].
  simpl. rewrite IH, andb_true_r. apply char_eqb_eq. reflexivity.
Qed.

Lemma contains_refl (s : pystr) : contains s s = true.
Proof.
  destruct s as [|c s]; [reflexivity|].
  cbn [contains]. rewrite starts_with_refl. reflexivity.
Qed.

Lemma mem_has_whitelisted_term (m : pystr) :
  mem m _ENTITY_WHITELIST = true -> has_whitelisted_term m = true.
Proof.
  unfold mem, has_whitelisted_term. rewrite !existsb_exists.
  intros [term [Hin Heq]]. apply pystr_eqb_eq in Heq. subst term.
  exists m. split; [exact Hin | apply contains_refl].
Qed.

Lemma _replace_entity_unlisted (m : pystr) :
  has_whitelisted_term m = false -> _replace_entity m = repeat block (length m).
Proof.
  intros H. unfold _replace_entity.
  destruct (mem m _ENTITY_WHITELIST) eqn:E.
  - apply mem_has_whitelisted_term in E. congruence.
  - unfold has_whitelisted_term in H. rewrite H. reflexivity.
Qed.

(* ================================================================== *)
(** ** Results on [DemoCensor] *)

(** C7.  [censor_text] is post-processing without effect: the string it
    returns is computed from the input text and the replacement table alone
    (the path stage over the table, then the titled pass, then the
    multi-capital pass), and the object, that is its replacement table, is
    the same after the call as before it, also after any number of calls. *)
Theorem censor_text_frame (unicode_alnum : char -> bool) (self : DemoCensor)
        (text : pystr) (texts : list pystr) :
  censor_text unicode_alnum text self =
    (sub unicode_alnum _RE_MULTI_CAP _replace_entity
       (sub unicode_alnum _RE_TITLED _replace_entity
          (replace_paths (_replacements self) text)),
     self)
  /\ snd (for_each texts
            (fun t => _ <- censor_text unicode_alnum t ;; ret tt) self) = self.
Proof.
  split; [reflexivity|].
  induction texts as [|t texts IH]; [reflexivity|].
  cbn [for_each]. unfold bind at 1. unfold bind at 1.
  rewrite censor_text_run. cbn [ret]. exact IH.
Qed.

(** C8.  For a censor built from any workspace path and any text, the
    censored text has the length of the text.  Every table entry replaces a
    segment by a run of blocks of the segment's length.  An entity
    replacement puts a run of blocks of the length of the match in its
    place: that is what [_replace_entity] returns for every match it
    replaces, every match without a whitelisted term in it (a match with
    one is not replaced, it comes back as it is).  So every character of
    the censored text is the character of the text at its position or a
    block. *)
Theorem censor_text_same_length (unicode_alnum : char -> bool)
        (workspace : Path) (text : pystr) :
  Forall (fun e => snd e = repeat block (length (fst e)) /\
                   length (snd e) = length (fst e))
         (_replacements (__init__ workspace))
  /\ (forall m, length (_replace_entity m) = length m)
  /\ length (censored unicode_alnum (__init__ workspace) text) = length text
  /\ (forall m, has_whitelisted_term m = false ->
                _replace_entity m = repeat block (length m))
  /\ (forall m, has_whitelisted_term m = true -> _replace_entity m = m)
  /\ Forall2 (fun a b => b = a \/ b = block)
             text (censored unicode_alnum (__init__ workspace) text).
Proof.
  split; [|split; [|split; [|split; [|split]]]].
  - apply Forall_forall. intros e He. cbv beta.
    apply init_table_entries in He as (_ & _ & _ & He).
    destruct e as [old new]; simpl in *. subst new.
    split; [reflexivity | apply repeat_length].
  - intros m. apply censoring_length, _replace_entity_censoring.
  - apply censoring_length, censored_censoring, init_good_table.
  - exact _replace_entity_unlisted.
  - exact _replace_entity_whitelisted.
  - apply censored_censoring, init_good_table.
Qed.

(** C9, as stated, fails: the workspace path [/tmp/Proj] has no block in
    its segments, and censoring ["Xx Dr. May Mr Smith"] twice differs from
    censoring it once.  The titled pass lets ["Dr. May Mr Smith"] through
    (it contains ["May"]), the multi-capital pass censors ["Xx Dr"]; on the
    result the titled pass finds ["Mr Smith"], which has no whitelisted
    term. *)
Lemma censor_text_twice_differs :
  Forall (fun part => ~ In block part) (parts tmp_proj)
  /\ censored ascii_table (__init__ tmp_proj) (of_string "Xx Dr. May Mr Smith")
     = blocks 5 ++ of_string ". May Mr Smith"
  /\ censored ascii_table (__init__ tmp_proj) (blocks 5 ++ of_string ". May Mr Smith")
     = blocks 5 ++ of_string ". May " ++ blocks 8
  /\ censored ascii_table (__init__ tmp_proj)
       (censored ascii_table (__init__ tmp_proj) (of_string "Xx Dr. May Mr Smith"))
     <> censored ascii_table (__init__ tmp_proj) (of_string "Xx Dr. May Mr Smith").
Proof.
  split; [|split; [|split]].
  - repeat constructor; cbv; intuition discriminate.
  - vm_compute. reflexivity.
  - vm_compute. reflexivity.
  - vm_compute. discriminate.
Qed.

(** C9, amended.  For a censor built from a workspace path none of whose
    segments contains the block character, and any text: no replaced segment
    occurs in the censored text, so the path stage of a second application
    is the identity on it; the second application is the two entity passes
    run once more, and these only censor further: its result has the same
    length and every character of it is the character of the first result
    or a block. *)
Theorem censor_text_again (unicode_alnum : char -> bool) (workspace : Path)
        (text : pystr) :
  Forall (fun part => ~ In block part) (parts workspace) ->
  let self := __init__ workspace in
  let once := censored unicode_alnum self text in
  Forall (fun e => contains (fst e) once = false) (_replacements self)
  /\ replace_paths (_replacements self) once = once
  /\ censored unicode_alnum self once
     = sub unicode_alnum _RE_MULTI_CAP _replace_entity
         (sub unicode_alnum _RE_TITLED _replace_entity once)
  /\ length (censored unicode_alnum self once) = length once
  /\ Forall2 (fun a b => b = a \/ b = block) once (censored unicode_alnum self once).
Proof.
  intros Hfree self once.
  assert (Hgood : good_table (_replacements self)) by apply init_good_table.
  assert (Hbf : block_free (_replacements self)) by (apply init_block_free; exact Hfree).
  assert (Habsent : Forall (fun e => contains (fst e) once = false) (_replacements self)).
  { pose proof (replace_paths_removes (_replacements self) text Hgood Hbf) as Hrm.
    unfold block_free in Hbf. rewrite Forall_forall in Hrm, Hbf |- *. intros e He.
    unfold once, censored. rewrite censor_text_run. cbn [fst].
    apply (censoring_contains (fst e) (replace_paths (_replacements self) text)).
    - eapply censoring_trans; apply sub_censoring.
    - apply Hbf; exact He.
    - apply Hrm; exact He. }
  assert (Hid : replace_paths (_replacements self) once = once)
    by (apply replace_paths_absent; exact Habsent).
  split; [exact Habsent|]. split; [exact Hid|]. split; [|split].
  - unfold censored at 1. rewrite censor_text_run. cbn [fst]. rewrite Hid. reflexivity.
  - apply censoring_length, censored_censoring, Hgood.
  - apply censored_censoring, Hgood.
Qed.

Lemma censor_text_again_witness :
  let self := __init__ bob_proj in
  let once := censored ascii_table self (of_string "path is /Users/bob/Documents/Proj end") in
  Forall (fun e => contains (fst e) once = false) (_replacements self)
  /\ replace_paths (_replacements self) once = once
  /\ censored ascii_table self once
     = sub ascii_table _RE_MULTI_CAP _replace_entity
         (sub ascii_table _RE_TITLED _replace_entity once)
  /\ length (censored ascii_table self once) = length once
  /\ Forall2 (fun a b => b = a \/ b = block) once (censored ascii_table self once).
Proof.
  apply (censor_text_again ascii_table bob_proj).
  repeat constructor; cbv; intuition discriminate.
Defined.

(** C10, as stated, fails: in ["Mayor. John Smith"] the titled pattern
    matches the whole text, which contains the whitelisted term ["May"], yet
    the censored text is ["Mayor. "] followed by ten blocks: the titled pass
    lets the match through, and the multi-capital pass then censors
    ["John Smith"] inside it. *)
Lemma whitelisted_match_censored :
  pieces ascii_table _RE_TITLED 0 None (of_string "Mayor. John Smith")
    = [Hit (of_string "Mayor. John Smith")]
  /\ contains (of_string "May") (of_string "Mayor. John Smith") = true
  /\ In (of_string "May") _ENTITY_WHITELIST
  /\ censored ascii_table (__init__ tmp_proj) (of_string "Mayor. John Smith")
     = of_string "Mayor. " ++ blocks 10.
Proof.
  split; [|split; [|split]]; try (vm_compute; reflexivity).
  vm_compute. tauto.
Qed.

(** C10, amended.  [_replace_entity] returns a match that contains a
    whitelisted term unchanged, so each substitution pass leaves such a match
    where it stood: a match of the titled pass (over the text after the path
    stage) stands unchanged at the same offset in the result of the titled
    pass, and a match of the multi-capital pass (over the result of the
    titled pass) stands unchanged at the same offset in the text
    [censor_text] returns.  (What the titled pass let through, the
    multi-capital pass may still censor.) *)
Theorem whitelisted_match_kept (unicode_alnum : char -> bool) (self : DemoCensor)
        (text : pystr) :
  let after_paths := replace_paths (_replacements self) text in
  let after_titled := sub unicode_alnum _RE_TITLED _replace_entity after_paths in
  (forall m, has_whitelisted_term m = true -> _replace_entity m = m)
  /\ (forall pre m post,
        pieces unicode_alnum _RE_TITLED 0 None after_paths = pre ++ Hit m :: post ->
        has_whitelisted_term m = true ->
        after_paths = flat_map piece_text pre ++ m ++ flat_map piece_text post /\
        after_titled = flat_map (render _replace_entity) pre ++ m
                       ++ flat_map (render _replace_entity) post /\
        length (flat_map (render _replace_entity) pre)
        = length (flat_map piece_text pre))
  /\ (forall pre m post,
        pieces unicode_alnum _RE_MULTI_CAP 0 None after_titled = pre ++ Hit m :: post ->
        has_whitelisted_term m = true ->
        after_titled = flat_map piece_text pre ++ m ++ flat_map piece_text post /\
        censored unicode_alnum self text
        = flat_map (render _replace_entity) pre ++ m
          ++ flat_map (render _replace_entity) post /\
        length (flat_map (render _replace_entity) pre)
        = length (flat_map piece_text pre)).
Proof.
  intros after_paths after_titled. split; [exact _replace_entity_whitelisted|].
  split; intros pre m post Hp Hw.
  - exact (sub_keeps_whitelisted unicode_alnum _RE_TITLED after_paths pre post m Hp Hw).
  - unfold censored. rewrite censor_text_run. cbn [fst].
    exact (sub_keeps_whitelisted unicode_alnum _RE_MULTI_CAP after_titled pre post m Hp Hw).
Qed.

(** In ["Open Visual Studio for editing."] the multi-capital pass matches
    ["Open Visual Studio"], which contains ["Visual Studio"], and the
    censored text starts with it. *)
Lemma whitelisted_match_kept_witness :
  censored ascii_table (__init__ tmp_proj) (of_string "Open Visual Studio for editing.")
  = of_string "Open Visual Studio"
    ++ flat_map (render _replace_entity) (map Keep (of_string " for editing.")).
Proof.
  pose proof (whitelisted_match_kept ascii_table (__init__ tmp_proj)
                (of_string "Open Visual Studio for editing.")) as H.
  cbv zeta in H. destruct H as (_ & _ & H).
  specialize (H [] (of_string "Open Visual Studio")
                (map Keep (of_string " for editing."))).
  destruct H as (_ & H & _); [vm_compute; reflexivity .. | exact H].
Defined.

(* ------------------------------------------------------------------ *)
(** ** The Unicode table matters only at the characters of the text *)

Section Tables.
Variables t1 t2 : char -> bool.

Lemma flat_map_agree (f1 f2 : cursor -> list cursor) (l : list cursor) :
  (forall c, agree t1 t2 c -> f1 c = f2 c /\ Forall (agree t1 t2) (f1 c)) ->
  Forall (agree t1 t2) l ->
  flat_map f1 l = flat_map f2 l /\ Forall (agree t1 t2) (flat_map f1 l).
Proof.
  intros Hf H. induction H as [|c l Hc _ [IH1 IH2]]; simpl; [split; constructor|].
  destruct (Hf c Hc) as [E F]. split; [rewrite E, IH1; reflexivity|].
  apply Forall_app; split; assumption.
Qed.

Lemma star_agree (step1 step2 : cursor -> list cursor) :
  (forall c, agree t1 t2 c -> step1 c = step2 c /\ Forall (agree t1 t2) (step1 c)) ->
  forall fuel c, agree t1 t2 c ->
                 star step1 fuel c = star step2 fuel c
                 /\ Forall (agree t1 t2) (star step1 fuel c).
Proof.
  intros Hstep. induction fuel as [|fuel IH]; intros c Hc; simpl.
  - split; [reflexivity | constructor; [exact Hc | constructor]].
  - destruct (Hstep c Hc) as [E F].
    destruct (flat_map_agree
                (fun c' => if remaining c' <? remaining c then star step1 fuel c' else [c'])
                (fun c' => if remaining c' <? remaining c then star step2 fuel c' else [c'])
                (step1 c)) as [E' F'].
    + intros c' Hc'. destruct (remaining c' <? remaining c); [apply IH; exact Hc'|].
      split; [reflexivity | constructor; [exact Hc' | constructor]].
    + exact F.
    + rewrite <- E, E'. split; [reflexivity|].
      rewrite <- E'. apply Forall_app; split; [exact F'|].
      constructor; [exact Hc | constructor].
Qed.

Lemma at_boundary_agree (c : cursor) :
  agree t1 t2 c -> at_boundary t1 c = at_boundary t2 c.
Proof.
  intros [Hp Hs]. unfold at_boundary. f_equal.
  - destruct (fst c) as [x|]; simpl; [apply Hp; reflexivity | reflexivity].
  - destruct (snd c) as [|x xs]; simpl; [reflexivity|].
    inversion Hs; assumption.
Qed.

Lemma run_agree (r : regex) (c : cursor) :
  agree t1 t2 c ->
  run t1 r c = run t2 r c /\ Forall (agree t1 t2) (run t1 r c).
Proof.
  revert c; induction r as [|ranges|a IHa b IHb|a IHa b IHb|a IHa|a IHa|a IHa|];
    intros c Hc; simpl.
  - split; [reflexivity | constructor; [exact Hc | constructor]].
  - split; [reflexivity|]. destruct c as [prev [|x xs]]; simpl; [constructor|].
    destruct (in_class ranges x); constructor; [|constructor].
    destruct Hc as [_ Hs]. simpl in Hs. inversion Hs; subst.
    split; simpl; [intros y Hy; injection Hy as <-; assumption | assumption].
  - destruct (IHa c Hc) as [Ea Fa]. rewrite <- Ea.
    apply flat_map_agree; assumption.
  - destruct (IHa c Hc) as [Ea Fa], (IHb c Hc) as [Eb Fb]. rewrite Ea, Eb.
    split; [reflexivity|]. rewrite <- Ea, <- Eb. apply Forall_app; split; assumption.
  - destruct (IHa c Hc) as [Ea Fa]. rewrite Ea. split; [reflexivity|].
    rewrite <- Ea. apply Forall_app; split; [exact Fa | constructor; [exact Hc|constructor]].
  - apply star_agree; assumption.
  - destruct (IHa c Hc) as [Ea Fa]. rewrite <- Ea.
    apply flat_map_agree; [|exact Fa].
    intros c' Hc'. apply star_agree; assumption.
  - rewrite (at_boundary_agree c Hc). split; [reflexivity|].
    destruct (at_boundary t2 c); constructor; [exact Hc | constructor].
Qed.

Lemma pieces_agree (r : regex) (skip : nat) (prev : option char) (s : pystr) :
  agree t1 t2 (prev, s) -> pieces t1 r skip prev s = pieces t2 r skip prev s.
Proof.
  revert skip prev; induction s as [|c s IH]; intros skip prev Hc.
  - simpl. unfold match_at. rewrite (proj1 (run_agree r _ Hc)). reflexivity.
  - assert (Hnext : agree t1 t2 (Some c, s)).
    { destruct Hc as [_ Hs]. simpl in Hs. inversion Hs; subst.
      split; simpl; [intros y Hy; injection Hy as <-; assumption | assumption]. }
    destruct skip as [|k]; [|simpl; apply IH; exact Hnext].
    assert (Hm : match_at t1 r prev (c :: s) = match_at t2 r prev (c :: s))
      by (unfold match_at; rewrite (proj1 (run_agree r _ Hc)); reflexivity).
    cbn [pieces]. rewrite Hm.
    destruct (match_at t2 r prev (c :: s)) as [[|k]|];
      [rewrite (IH 0 _ Hnext) | rewrite (IH k _ Hnext) | rewrite (IH 0 _ Hnext)];
      reflexivity.
Qed.

Lemma sub_agree (r : regex) (repl : pystr -> pystr) (s : pystr) :
  Forall (fun x => is_word t1 x = is_word t2 x) s ->
  sub t1 r repl s = sub t2 r repl s.
Proof.
  intros H. unfold sub. rewrite (pieces_agree r 0 None s); [reflexivity|].
  split; simpl; [discriminate | exact H].
Qed.

Lemma plain_agree (s : pystr) :
  t1 block = t2 block -> Forall plain s ->
  Forall (fun x => is_word t1 x = is_word t2 x) s.
Proof.
  intros Hb H. eapply Forall_impl; [|exact H]. intros x [Hx| ->].
  - unfold is_word. apply N.ltb_lt in Hx. rewrite Hx. reflexivity.
  - unfold is_word. cbn. exact Hb.
Qed.

Lemma censoring_plain (s t : pystr) :
  censoring s t -> Forall plain s -> Forall plain t.
Proof.
  induction 1 as [|a b s t Hab _ IH]; intros H; inversion H; subst; constructor.
  - destruct Hab as [->| ->]; [assumption | right; reflexivity].
  - apply IH; assumption.
Qed.

(** On a text of ASCII characters and blocks, censoring depends on the
    Unicode table only through what it says of the block. *)
Lemma censored_any_table (self : DemoCensor) (text : pystr) :
  good_table (_replacements self) ->
  t1 block = t2 block -> Forall plain text ->
  censored t1 self text = censored t2 self text.
Proof.
  intros Hg Hb Hp. unfold censored. rewrite !censor_text_run. cbn [fst].
  assert (H1 : Forall plain (replace_paths (_replacements self) text))
    by (eapply censoring_plain; [apply replace_paths_censoring; exact Hg | exact Hp]).
  rewrite (sub_agree _RE_TITLED _ _ (plain_agree _ Hb H1)).
  apply sub_agree, plain_agree; [exact Hb|].
  eapply censoring_plain; [apply sub_censoring | exact H1].
Qed.

End Tables.

(** The two texts of [censor_text_twice_differs] under any Unicode table in
    which the block is not alphanumeric, as it is not in Unicode. *)
Lemma twice_differs_any_table (unicode_alnum : char -> bool) :
  unicode_alnum block = false ->
  censored unicode_alnum (__init__ tmp_proj)
    (censored unicode_alnum (__init__ tmp_proj) (of_string "Xx Dr. May Mr Smith"))
  <> censored unicode_alnum (__init__ tmp_proj) (of_string "Xx Dr. May Mr Smith").
Proof.
  intros Hb.
  assert (Hplain : forall s, forallb (fun x => N.ltb x 128 || N.eqb x block) s = true ->
                             Forall plain s).
  { intros s H. apply Forall_forall. intros x Hx.
    rewrite forallb_forall in H. apply H in Hx.
    apply orb_true_iff in Hx as [Hx|Hx];
      [left; apply N.ltb_lt; exact Hx | right; apply N.eqb_eq; exact Hx]. }
  rewrite (censored_any_table unicode_alnum ascii_table (__init__ tmp_proj)
             (of_string "Xx Dr. May Mr Smith") (init_good_table _) Hb)
    by (apply Hplain; reflexivity).
  rewrite (censored_any_table unicode_alnum ascii_table (__init__ tmp_proj)
             _ (init_good_table _) Hb)
    by (apply Hplain; vm_compute; reflexivity).
  vm_compute. discriminate.
Qed.

(** The text of [whitelisted_match_censored] under any such table. *)
Lemma mayor_any_table (unicode_alnum : char -> bool) :
  unicode_alnum block = false ->
  censored unicode_alnum (__init__ tmp_proj) (of_string "Mayor. John Smith")
  = of_string "Mayor. " ++ blocks 10.
Proof.
  intros Hb.
  rewrite (censored_any_table unicode_alnum ascii_table (__init__ tmp_proj)
             (of_string "Mayor. John Smith") (init_good_table _) Hb).
  - vm_compute. reflexivity.
  - apply Forall_forall. intros x Hx. left.
    assert (H : forallb (fun x => N.ltb x 128) (of_string "Mayor. John Smith") = true)
      by reflexivity.
    rewrite forallb_forall in H. apply N.ltb_lt, H, Hx.
Qed.

(* ------------------------------------------------------------------ *)
(** ** Further results on [DemoCensor] *)

(** X1.  The replacement table of a censor lists the kept parts of the workspace
    path, each once per occurrence in the path, sorted by the length of the
    original, longest first ([_build_path_replacements], "Sort longest-first
    so longer matches take precedence"). *)
Theorem table_sorted_longest_first (workspace : Path) :
  longest_first (_replacements (__init__ workspace))
  /\ Permutation (map entry (filter (kept workspace) (parts workspace)))
                 (_replacements (__init__ workspace)).
Proof.
  rewrite init_table. split;
    [apply sort_longest_first_sorted | apply sort_longest_first_perm].
Qed.

(** X2.  The originals of the replacement table are exactly the parts of the
    workspace path that are not generic, not the project name and not empty;
    each is paired with a run of blocks of its length. *)
Theorem table_entries (workspace : Path) (e : pystr * pystr) :
  In e (_replacements (__init__ workspace))
  <-> exists part,
        e = (part, repeat block (length part))
        /\ In part (parts workspace)
        /\ mem part _GENERIC_PATH_PARTS = false
        /\ part <> name workspace
        /\ part <> [].
Proof.
  rewrite init_table, sort_longest_first_In, in_map_iff. unfold entry.
  split; intros [part H]; exists part.
  - destruct H as [<- Hin]. apply filter_In in Hin as [Hin Hk].
    unfold kept in Hk. rewrite !andb_true_iff, !negb_true_iff in Hk.
    destruct Hk as [[Hg Hn] He]. repeat split; try assumption.
    + intros Heq. apply pystr_eqb_eq in Heq. congruence.
    + intros Heq. apply pystr_eqb_eq in Heq. congruence.
  - destruct H as (-> & Hin & Hg & Hn & He). split; [reflexivity|].
    apply filter_In. split; [exact Hin|].
    unfold kept. rewrite !andb_true_iff, !negb_true_iff. repeat split.
    + exact Hg.
    + apply not_true_iff_false. rewrite pystr_eqb_eq. exact Hn.
    + apply not_true_iff_false. rewrite pystr_eqb_eq. exact He.
Qed.

(** X3.  A text without a capital letter A-Z in which no original of the
    replacement table occurs comes back unchanged: both patterns begin with a
    capital letter. *)
Theorem text_without_capitals_unchanged (unicode_alnum : char -> bool)
        (self : DemoCensor) (text : pystr) :
  Forall (fun x => is_upper x = false) text ->
  Forall (fun e => contains (fst e) text = false) (_replacements self) ->
  censored unicode_alnum self text = text.
Proof.
  intros Hcap Habs. unfold censored. rewrite censor_text_run. cbn [fst].
  rewrite (replace_paths_absent _ _ Habs).
  rewrite (sub_no_match unicode_alnum _RE_TITLED);
    [|reflexivity | apply no_capitals_no_firsts; [exact titled_firsts | exact Hcap]].
  apply (sub_no_match unicode_alnum _RE_MULTI_CAP);
    [reflexivity | apply no_capitals_no_firsts; [exact multi_firsts | exact Hcap]].
Qed.

(** [test_no_entities_passes_through] *)
Lemma text_without_capitals_unchanged_witness :
  censored ascii_table (__init__ tmp_proj)
           (of_string "this is all lowercase and has no names")
  = of_string "this is all lowercase and has no names".
Proof.
  apply text_without_capitals_unchanged.
  - repeat constructor.
  - vm_compute. constructor.
Defined.

(** X4.  No match of either pattern has a newline in it, so the entity passes
    leave every newline where it is; and so does [censor_text] on a text in
    which no original of the replacement table occurs. *)
Theorem newlines_survive (unicode_alnum : char -> bool) (self : DemoCensor)
        (text : pystr) :
  Forall (hit_within (fun x => negb (char_eqb x newline)))
         (pieces unicode_alnum _RE_TITLED 0 None text)
  /\ Forall (hit_within (fun x => negb (char_eqb x newline)))
            (pieces unicode_alnum _RE_MULTI_CAP 0 None text)
  /\ keeps newline text (sub unicode_alnum _RE_TITLED _replace_entity text)
  /\ keeps newline text (sub unicode_alnum _RE_MULTI_CAP _replace_entity text)
  /\ (Forall (fun e => contains (fst e) text = false) (_replacements self) ->
      keeps newline text (censored unicode_alnum self text)).
Proof.
  assert (Hhit : forall r, (forall x, alphabet r x = true -> x <> newline) ->
            Forall (hit_within (fun x => negb (char_eqb x newline)))
                   (pieces unicode_alnum r 0 None text)).
  { intros r Hr. eapply Forall_impl; [|apply pieces_hits].
    intros [c|m]; simpl; [auto|]. intros Hm.
    eapply Forall_impl; [|exact Hm]. cbv beta. intros x Hx.
    apply negb_true_iff, not_true_iff_false. rewrite char_eqb_eq. apply Hr; exact Hx. }
  split; [apply Hhit; exact titled_alphabet|].
  split; [apply Hhit; exact multi_alphabet|].
  split; [apply sub_keeps_newlines; exact titled_alphabet|].
  split; [apply sub_keeps_newlines; exact multi_alphabet|].
  intros Habs. unfold censored. rewrite censor_text_run. cbn [fst].
  rewrite (replace_paths_absent _ _ Habs).
  eapply keeps_trans; apply sub_keeps_newlines;
    [exact titled_alphabet | exact multi_alphabet].
Qed.

(* ------------------------------------------------------------------ *)
(** ** What [censor_text] never does *)

Lemma censoring_nth_block (s t : pystr) (n : nat) :
  censoring s t -> nth_error s n = Some block -> nth_error t n = Some block.
Proof.
  intros H; revert n; induction H as [|a b s t Hab _ IH]; intros [|n] Hn;
    simpl in *; try discriminate.
  - injection Hn as ->. destruct Hab as [->| ->]; reflexivity.
  - apply IH; exact Hn.
Qed.

Lemma censoring_nil (t : pystr) : censoring [] t -> t = [].
Proof. intros H; inversion H; reflexivity. Qed.

(** X5.  [censor_text] only ever puts a block in the place of a character:
    the text it returns has, position by position, the character of the
    input or a block; where the input has a block the output has one; and
    the empty text comes back empty. *)
Theorem censor_text_only_blocks (unicode_alnum : char -> bool)
        (workspace : Path) (text : pystr) :
  let out := censored unicode_alnum (__init__ workspace) text in
  Forall2 (fun a b => b = a \/ b = block) text out
  /\ (forall n, nth_error text n = Some block -> nth_error out n = Some block)
  /\ censored unicode_alnum (__init__ workspace) [] = [].
Proof.
  intros out.
  assert (H : forall t, censoring t (censored unicode_alnum (__init__ workspace) t))
    by (intros t; apply censored_censoring, init_good_table).
  split; [exact (H text)|]. split.
  - intros n. apply censoring_nth_block, H.
  - apply censoring_nil, H.
Qed.

(* ------------------------------------------------------------------ *)
(** ** The choice of [_replace_entity] *)

Lemma all_blocks_repeat (m : pystr) :
  Forall (fun x => x = block) m <-> repeat block (length m) = m.
Proof.
  split.
  - induction 1 as [|x m -> _ IH]; simpl; [reflexivity | rewrite IH; reflexivity].
  - intros H. rewrite <- H. apply Forall_forall. intros x Hx.
    apply repeat_spec in Hx. exact Hx.
Qed.

(** X6.  [_replace_entity] makes one choice out of two: a match with a
    whitelisted term inside comes back as it is, any other as a run of
    blocks of its length.  The first test of the function, the exact
    whitelist hit, is a case of the second; and the match comes back
    unchanged only if it has a whitelisted term or is made of blocks
    already. *)
Theorem replace_entity_choice (m : pystr) :
  _replace_entity m = (if has_whitelisted_term m then m else repeat block (length m))
  /\ (mem m _ENTITY_WHITELIST = true -> has_whitelisted_term m = true)
  /\ (_replace_entity m = m
      <-> has_whitelisted_term m = true \/ Forall (fun x => x = block) m).
Proof.
  assert (H1 : _replace_entity m
               = if has_whitelisted_term m then m else repeat block (length m)).
  { destruct (has_whitelisted_term m) eqn:E;
      [apply _replace_entity_whitelisted | apply _replace_entity_unlisted]; exact E. }
  split; [exact H1|]. split; [apply mem_has_whitelisted_term|].
  rewrite H1, all_blocks_repeat.
  destruct (has_whitelisted_term m); split; auto.
  intros [H|H]; [discriminate | exact H].
Qed.

(* ------------------------------------------------------------------ *)
(** ** A censored match stays censored *)

Lemma censoring_skipn (s t : pystr) (k : nat) :
  censoring s t -> censoring (skipn k s) (skipn k t).
Proof.
  intros H; revert k; induction H as [|a b s t Hab Hst IH]; intros [|k]; simpl;
    try constructor; try assumption. apply IH.
Qed.

Lemma censoring_firstn (s t : pystr) (k : nat) :
  censoring s t -> censoring (firstn k s) (firstn k t).
Proof.
  intros H; revert k; induction H as [|a b s t Hab Hst IH]; intros [|k]; simpl;
    constructor; try assumption. apply IH.
Qed.

Lemma censoring_of_blocks (n : nat) (t : pystr) :
  censoring (repeat block n) t -> t = repeat block n.
Proof.
  revert t; induction n as [|n IH]; intros t H; inversion H as [|a b s u Hab Hsu]; subst;
    [reflexivity|].
  simpl. rewrite (IH _ Hsu). destruct Hab as [->| ->]; reflexivity.
Qed.

Lemma blocks_stay (s t : pystr) (k n : nat) :
  censoring s t ->
  firstn n (skipn k s) = repeat block n -> firstn n (skipn k t) = repeat block n.
Proof.
  intros H Hs. apply censoring_of_blocks. rewrite <- Hs.
  apply censoring_firstn, censoring_skipn, H.
Qed.

Lemma window_app (a m b : pystr) (k : nat) :
  k = length a -> firstn (length m) (skipn k (a ++ m ++ b)) = m.
Proof.
  intros ->. rewrite skipn_app, skipn_all, Nat.sub_diag. simpl.
  rewrite firstn_app, Nat.sub_diag, firstn_all. simpl. apply app_nil_r.
Qed.

Lemma sub_blocks_unlisted (unicode_alnum : char -> bool) (r : regex)
      (s : pystr) (pre post : list piece) (m : pystr) :
  pieces unicode_alnum r 0 None s = pre ++ Hit m :: post ->
  has_whitelisted_term m = false ->
  firstn (length m) (skipn (length (flat_map piece_text pre)) s) = m
  /\ firstn (length m)
            (skipn (length (flat_map piece_text pre))
                   (sub unicode_alnum r _replace_entity s))
     = repeat block (length m).
Proof.
  intros Hp Hw. split.
  - pose proof (pieces_text unicode_alnum r 0 None s) as Ht.
    cbn [skipn] in Ht. rewrite <- Ht, Hp, flat_map_app. cbn [flat_map piece_text].
    apply window_app. reflexivity.
  - unfold sub. rewrite Hp, flat_map_app. simpl.
    rewrite (_replace_entity_unlisted m Hw).
    rewrite <- (repeat_length block (length m)) at 1.
    apply window_app. symmetry. apply render_length.
Qed.

(** X7.  A match without a whitelisted term is censored for good: where the
    titled pass finds such a match (in the text after the path stage), the
    text [censor_text] returns has a run of blocks at the offset of the
    match and of its length, whatever the multi-capital pass does after; and
    so it has where the multi-capital pass finds such a match (in the result
    of the titled pass). *)
Theorem unlisted_match_blocked (unicode_alnum : char -> bool) (self : DemoCensor)
        (text : pystr) :
  let after_paths := replace_paths (_replacements self) text in
  let after_titled := sub unicode_alnum _RE_TITLED _replace_entity after_paths in
  let out := censored unicode_alnum self text in
  (forall pre m post,
      pieces unicode_alnum _RE_TITLED 0 None after_paths = pre ++ Hit m :: post ->
      has_whitelisted_term m = false ->
      let offset := length (flat_map piece_text pre) in
      firstn (length m) (skipn offset after_paths) = m
      /\ firstn (length m) (skipn offset out) = repeat block (length m))
  /\ (forall pre m post,
      pieces unicode_alnum _RE_MULTI_CAP 0 None after_titled = pre ++ Hit m :: post ->
      has_whitelisted_term m = false ->
      let offset := length (flat_map piece_text pre) in
      firstn (length m) (skipn offset after_titled) = m
      /\ firstn (length m) (skipn offset out) = repeat block (length m)).
Proof.
  intros after_paths after_titled out.
  assert (Hout : out = sub unicode_alnum _RE_MULTI_CAP _replace_entity after_titled).
  { unfold out, censored. rewrite censor_text_run. reflexivity. }
  split; intros pre m post Hp Hw offset.
  - destruct (sub_blocks_unlisted unicode_alnum _RE_TITLED after_paths pre post m Hp Hw)
      as [H1 H2].
    split; [exact H1|]. rewrite Hout.
    apply (blocks_stay after_titled); [apply sub_censoring | exact H2].
  - rewrite Hout.
    exact (sub_blocks_unlisted unicode_alnum _RE_MULTI_CAP after_titled pre post m Hp Hw).
Qed.

(* ------------------------------------------------------------------ *)
(** ** The characters of a kind in a match *)

Lemma count_app (A : char -> bool) (s t : pystr) :
  count A (s ++ t) = count A s + count A t.
Proof. unfold count. rewrite filter_app, length_app. reflexivity. Qed.

Lemma count_firstn (A : char -> bool) (n : nat) (s : pystr) :
  count A (firstn n s) <= count A s.
Proof.
  rewrite <- (firstn_skipn n s) at 2. rewrite count_app. lia.
Qed.

Lemma takes_refl (A : char -> bool) (c : cursor) : takes A 0 c c.
Proof. exists []. split; [reflexivity | apply Nat.le_0_l]. Qed.

Lemma takes_trans (A : char -> bool) (n1 n2 : nat) (c1 c2 c3 : cursor) :
  takes A n1 c1 c2 -> takes A n2 c2 c3 -> takes A (n1 + n2) c1 c3.
Proof.
  intros [l1 [H1 F1]] [l2 [H2 F2]]. exists (l1 ++ l2). split.
  - rewrite H1, H2, app_assoc. reflexivity.
  - rewrite count_app. lia.
Qed.

Lemma takes_weaken (A : char -> bool) (n n' : nat) (c c' : cursor) :
  n' <= n -> takes A n c c' -> takes A n' c c'.
Proof. intros Hle [l [H F]]. exists l. split; [exact H | lia]. Qed.

Lemma eats_takes (A B : char -> bool) (c c' : cursor) :
  eats A c c' -> takes B 0 c c'.
Proof. intros [l [H _]]. exists l. split; [exact H | apply Nat.le_0_l]. Qed.

Lemma capital_class_tells : tells capital_class is_upper.
Proof.
  intros ranges x Hall Hin. unfold in_class in Hin.
  apply existsb_exists in Hin as [rg [Hrg Hx]].
  unfold capital_class in Hall. rewrite forallb_forall in Hall. specialize (Hall rg Hrg).
  apply andb_true_iff in Hall as [H1 H2]. apply andb_true_iff in Hx as [H3 H4].
  apply N.leb_le in H1, H2, H3, H4. apply is_upper_iff. lia.
Qed.

Lemma blank_class_tells : tells blank_class is_blank.
Proof.
  intros ranges x Hall Hin. unfold in_class in Hin.
  apply existsb_exists in Hin as [rg [Hrg Hx]].
  unfold blank_class in Hall. rewrite forallb_forall in Hall. specialize (Hall rg Hrg).
  apply andb_true_iff in Hall as [H1 H2]. apply andb_true_iff in Hx as [H3 H4].
  apply N.eqb_eq in H1. apply N.leb_le in H3, H4.
  assert (Hx : x = fst rg) by lia. subst x.
  apply orb_true_iff in H2 as [H2|H2]; apply N.eqb_eq in H2; rewrite H2; reflexivity.
Qed.

Section Counting.
Variable unicode_alnum : char -> bool.
Variable within : list (char * char) -> bool.
Variable A : char -> bool.
Hypothesis within_tells : tells within A.

(** Every match of a pattern consumes [min_count] characters of the kind,
    or more. *)
Lemma run_takes (r : regex) (c c' : cursor) :
  In c' (run unicode_alnum r c) -> takes A (min_count within r) c c'.
Proof.
  revert c c'; induction r as [|ranges|a IHa b IHb|a IHa b IHb|a IHa|a IHa|a IHa|];
    intros c c' Hin.
  - apply (eats_takes _ _ _ _ (run_eats unicode_alnum _ _ _ Hin)).
  - simpl in Hin. destruct c as [prev [|x xs]]; simpl in Hin; [contradiction|].
    destruct (in_class ranges x) eqn:E; [|contradiction].
    destruct Hin as [<-|[]]. exists [x]. split; [reflexivity|].
    cbn [min_count]. destruct (within ranges) eqn:Ea; [|apply Nat.le_0_l].
    unfold count. cbn [filter]. rewrite (within_tells ranges x Ea E). simpl. lia.
  - simpl in Hin. apply in_flat_map in Hin as [c1 [H1 H2]].
    apply (takes_trans _ _ _ c c1 c'); [apply IHa; exact H1 | apply IHb; exact H2].
  - simpl in Hin. cbn [min_count]. apply in_app_or in Hin as [Hin|Hin].
    + eapply takes_weaken; [|apply IHa; exact Hin]. apply Nat.le_min_l.
    + eapply takes_weaken; [|apply IHb; exact Hin]. apply Nat.le_min_r.
  - apply (eats_takes _ _ _ _ (run_eats unicode_alnum _ _ _ Hin)).
  - apply (eats_takes _ _ _ _ (run_eats unicode_alnum _ _ _ Hin)).
  - simpl in Hin. apply in_flat_map in Hin as [c1 [H1 H2]].
    cbn [min_count]. rewrite <- (Nat.add_0_r (min_count within a)).
    apply (takes_trans _ _ _ c c1 c'); [apply IHa; exact H1|].
    apply (eats_takes (alphabet a)).
    apply (star_eats (alphabet a) (run unicode_alnum a)
                     (run_eats unicode_alnum a) _ _ _ H2).
  - apply (eats_takes _ _ _ _ (run_eats unicode_alnum _ _ _ Hin)).
Qed.

Lemma match_at_count (r : regex) (prev : option char) (s : pystr) (n : nat) :
  match_at unicode_alnum r prev s = Some n ->
  min_count within r <= count A (firstn n s).
Proof.
  unfold match_at.
  destruct (run unicode_alnum r (prev, s)) as [|c' l] eqn:E; [discriminate|].
  intros H; injection H as <-.
  assert (Hin : In c' (run unicode_alnum r (prev, s))) by (rewrite E; left; reflexivity).
  apply run_takes in Hin as [consumed [Hs F]]. simpl in Hs.
  unfold remaining. rewrite Hs at 1 2. rewrite length_app.
  replace (length consumed + length (snd c') - length (snd c')) with (length consumed) by lia.
  rewrite firstn_app, Nat.sub_diag, firstn_all. simpl. rewrite app_nil_r. exact F.
Qed.

Lemma pieces_count (r : regex) (skip : nat) (prev : option char) (s : pystr) :
  0 < min_count within r ->
  Forall (hit_count A (min_count within r)) (pieces unicode_alnum r skip prev s).
Proof.
  intros Hpos. revert skip prev; induction s as [|c s IH]; intros skip prev.
  - simpl. destruct skip; [|constructor].
    destruct (match_at _ _ _ _) eqn:E; [|constructor].
    apply match_at_count in E. rewrite firstn_nil in E. unfold count in E.
    simpl in E. lia.
  - destruct skip as [|k]; [|simpl; apply IH].
    simpl pieces. destruct (match_at _ _ _ _) as [[|k]|] eqn:E.
    + apply match_at_count in E. unfold count in E. simpl in E. lia.
    + constructor; [|apply IH]. apply (match_at_count r prev (c :: s) (S k) E).
    + constructor; [exact I | apply IH].
Qed.

(** A text with fewer characters of the kind than a match needs has no
    match. *)
Lemma pieces_too_few (r : regex) (prev : option char) (s : pystr) :
  count A s < min_count within r ->
  pieces unicode_alnum r 0 prev s = map Keep s.
Proof.
  revert prev; induction s as [|c s IH]; intros prev Hlt.
  - simpl. destruct (match_at _ _ _ _) eqn:E; [|reflexivity].
    apply match_at_count in E. rewrite firstn_nil in E. lia.
  - simpl pieces. destruct (match_at _ _ _ _) as [n|] eqn:E.
    + apply match_at_count in E.
      pose proof (count_firstn A n (c :: s)). lia.
    + simpl. rewrite IH; [reflexivity|].
      change (c :: s) with ([c] ++ s) in Hlt. rewrite count_app in Hlt. lia.
Qed.

Lemma sub_too_few (r : regex) (repl : pystr -> pystr) (s : pystr) :
  count A s < min_count within r -> sub unicode_alnum r repl s = s.
Proof.
  intros H. unfold sub. rewrite pieces_too_few by exact H.
  clear. induction s as [|c s IH]; [reflexivity|]. simpl. rewrite IH. reflexivity.
Qed.

End Counting.

Lemma patterns_min_capitals :
  min_capitals _RE_TITLED = 2 /\ min_capitals _RE_MULTI_CAP = 2.
Proof. split; reflexivity. Qed.

Lemma patterns_min_blanks :
  min_blanks _RE_TITLED = 1 /\ min_blanks _RE_MULTI_CAP = 1.
Proof. split; reflexivity. Qed.

(** X8.  Every match of either pattern has two capital letters A-Z or more
    (a title and a name, or two capitalised words).  So a text with at most
    one capital letter, in which no original of the replacement table
    occurs, comes back unchanged. *)
Theorem match_has_two_capitals (unicode_alnum : char -> bool) (self : DemoCensor)
        (text : pystr) :
  Forall (hit_capitals 2) (pieces unicode_alnum _RE_TITLED 0 None text)
  /\ Forall (hit_capitals 2) (pieces unicode_alnum _RE_MULTI_CAP 0 None text)
  /\ (capitals text <= 1 ->
      Forall (fun e => contains (fst e) text = false) (_replacements self) ->
      censored unicode_alnum self text = text).
Proof.
  destruct patterns_min_capitals as [Ht Hm]. unfold min_capitals in Ht, Hm.
  pose proof capital_class_tells as Htells.
  split; [unfold hit_capitals; rewrite <- Ht;
          apply (pieces_count unicode_alnum _ _ Htells); rewrite Ht; lia|].
  split; [unfold hit_capitals; rewrite <- Hm;
          apply (pieces_count unicode_alnum _ _ Htells); rewrite Hm; lia|].
  intros Hcap Habs. unfold censored. rewrite censor_text_run. cbn [fst].
  rewrite (replace_paths_absent _ _ Habs). unfold capitals in Hcap.
  rewrite (sub_too_few unicode_alnum _ _ Htells _RE_TITLED) by (rewrite Ht; lia).
  apply (sub_too_few unicode_alnum _ _ Htells _RE_MULTI_CAP). rewrite Hm. lia.
Qed.

(** One capitalised word at the start of a sentence. *)
Lemma match_has_two_capitals_witness :
  censored ascii_table (__init__ tmp_proj) (of_string "Hello world, this is a sentence.")
  = of_string "Hello world, this is a sentence.".
Proof.
  destruct (match_has_two_capitals ascii_table (__init__ tmp_proj)
              (of_string "Hello world, this is a sentence.")) as (_ & _ & H).
  apply H.
  - vm_compute. lia.
  - vm_compute. constructor.
Defined.

(* ------------------------------------------------------------------ *)
(** ** No path segment is left *)

Lemma censored_clear (unicode_alnum : char -> bool) (workspace : Path)
      (text : pystr) :
  Forall (fun part => ~ In block part) (parts workspace) ->
  clear_of (_replacements (__init__ workspace))
           (censored unicode_alnum (__init__ workspace) text).
Proof.
  intros Hfree.
  pose proof (init_good_table workspace) as Hgood.
  pose proof (init_block_free workspace Hfree) as Hbf.
  pose proof (replace_paths_removes _ text Hgood Hbf) as Hrm.
  unfold clear_of, block_free in *. rewrite Forall_forall in Hrm, Hbf |- *.
  intros e He. unfold censored. rewrite censor_text_run. cbn [fst].
  apply (censoring_contains (fst e)
           (replace_paths (_replacements (__init__ workspace)) text)).
  - eapply censoring_trans; apply sub_censoring.
  - apply Hbf; exact He.
  - apply Hrm; exact He.
Qed.

(* ------------------------------------------------------------------ *)
(** ** Texts without a space or a tab *)

Lemma censoring_blanks (s t : pystr) : censoring s t -> blanks t <= blanks s.
Proof.
  unfold blanks, count. induction 1 as [|a b s t Hab _ IH]; [constructor|].
  cbn [filter]. destruct Hab as [-> | ->].
  - destruct (is_blank a); simpl; lia.
  - change (is_blank block) with false. destruct (is_blank a); simpl; lia.
Qed.

(** X15.  Every match of either pattern has a space or a tab in it (between
    the title and the name, or between two capitalised words).  So on a text
    without space and tab, a path or an identifier, [censor_text] of a
    censor built from a workspace path does the path-segment replacements
    and nothing else. *)
Theorem text_without_blanks (unicode_alnum : char -> bool) (workspace : Path)
        (text : pystr) :
  Forall (hit_count is_blank 1) (pieces unicode_alnum _RE_TITLED 0 None text)
  /\ Forall (hit_count is_blank 1) (pieces unicode_alnum _RE_MULTI_CAP 0 None text)
  /\ (blanks text = 0 ->
      censored unicode_alnum (__init__ workspace) text
      = replace_paths (_replacements (__init__ workspace)) text).
Proof.
  destruct patterns_min_blanks as [Ht Hm]. unfold min_blanks in Ht, Hm.
  pose proof blank_class_tells as Htells.
  split; [rewrite <- Ht; apply (pieces_count unicode_alnum _ _ Htells); rewrite Ht; lia|].
  split; [rewrite <- Hm; apply (pieces_count unicode_alnum _ _ Htells); rewrite Hm; lia|].
  intros Hb. unfold censored. rewrite censor_text_run. cbn [fst].
  pose proof (censoring_blanks _ _
                (replace_paths_censoring _ text (init_good_table workspace))) as Hle.
  unfold blanks in Hb, Hle.
  rewrite (sub_too_few unicode_alnum _ _ Htells _RE_TITLED) by (rewrite Ht; lia).
  apply (sub_too_few unicode_alnum _ _ Htells _RE_MULTI_CAP). rewrite Hm. lia.
Qed.

(** [test_username_censored], on the path alone: the user name is
    replaced, the generic parts and the project name are as they were. *)
Lemma text_without_blanks_witness :
  censored ascii_table (__init__ bob_proj) (of_string "/Users/bob/Documents/Proj")
  = of_string "/Users/" ++ blocks 3 ++ of_string "/Documents/Proj".
Proof.
  destruct (text_without_blanks ascii_table bob_proj
              (of_string "/Users/bob/Documents/Proj")) as (_ & _ & H).
  rewrite H; [|reflexivity]. vm_compute. reflexivity.
Defined.

(* ------------------------------------------------------------------ *)
(** ** The characters that are never replaced *)

Lemma replace_from_keeps (c0 : char) (old : pystr) (s : pystr) :
  old <> [] -> ~ In c0 old ->
  keeps c0 s (replace_from old (repeat block (length old)) 0 s).
Proof.
  intros Hne Hc. pattern s. apply (@replace_scan_ind old); [exact Hne|constructor| |].
  - intros c s' E IH. rewrite replace_from_hit by assumption.
    rewrite <- (firstn_skipn (length old) (c :: s')) at 1.
    apply Forall2_app; [|exact IH].
    rewrite (starts_with_firstn _ _ E). apply keeps_blocks.
    apply Forall_forall. intros x Hx ->. contradiction.
  - intros c s' E IH. rewrite replace_from_miss by assumption.
    constructor; [auto | exact IH].
Qed.

Lemma replace_paths_keeps (c0 : char) (table : list (pystr * pystr)) (text : pystr) :
  good_table table ->
  Forall (fun e => ~ In c0 (fst e)) table ->
  keeps c0 text (replace_paths table text).
Proof.
  intros H; revert text; induction H as [|[old new] table [Hne Hnew] _ IH];
    intros text Hc; simpl.
  - apply keeps_refl.
  - simpl in Hne, Hnew. subst new. inversion Hc as [|e l Hold Hrest]; subst.
    simpl in Hold.
    eapply keeps_trans; [|apply IH; exact Hrest].
    destruct old as [|x old]; [congruence|].
    apply (replace_from_keeps c0 (x :: old)); assumption.
Qed.

Lemma sub_keeps (unicode_alnum : char -> bool) (c0 : char) (r : regex) (s : pystr) :
  (forall x, alphabet r x = true -> x <> c0) ->
  keeps c0 s (sub unicode_alnum r _replace_entity s).
Proof.
  intros Hr. unfold sub.
  pose proof (pieces_text unicode_alnum r 0 None s) as Ht. cbn [skipn] in Ht.
  rewrite <- Ht at 1.
  apply (render_keeps (alphabet r)); [exact Hr | apply pieces_hits].
Qed.

Lemma titled_entity_char (x : char) :
  alphabet _RE_TITLED x = true -> entity_char x = true.
Proof.
  intros H. cbn in H. unfold entity_char, in_class. cbn.
  range_cases H; range_bounds H;
    repeat (apply orb_true_iff; first [left; apply andb_true_iff; split; apply N.leb_le; lia | right]).
Qed.

Lemma multi_entity_char (x : char) :
  alphabet _RE_MULTI_CAP x = true -> entity_char x = true.
Proof.
  intros H. cbn in H. unfold entity_char, in_class. cbn.
  range_cases H; range_bounds H;
    repeat (apply orb_true_iff; first [left; apply andb_true_iff; split; apply N.leb_le; lia | right]).
Qed.

(** X9.  A character that is none of the letters A-Z and a-z, the space, the
    tab and the dot, and that occurs in no original of the replacement table
    of the censor, is never replaced: the censored text has it wherever the
    text has it (digits, line breaks, slashes, brackets and the other marks
    of a markup, characters outside ASCII). *)
Theorem other_characters_kept (unicode_alnum : char -> bool) (workspace : Path)
        (text : pystr) (c0 : char) :
  entity_char c0 = false ->
  Forall (fun e => ~ In c0 (fst e)) (_replacements (__init__ workspace)) ->
  Forall2 (fun a b => a = c0 -> b = c0)
          text (censored unicode_alnum (__init__ workspace) text).
Proof.
  intros Hc Htab. unfold censored. rewrite censor_text_run. cbn [fst].
  apply (keeps_trans c0 _ (replace_paths (_replacements (__init__ workspace)) text));
    [apply replace_paths_keeps; [apply init_good_table | exact Htab]|].
  eapply keeps_trans; apply sub_keeps; intros x Hx ->.
  - apply titled_entity_char in Hx. congruence.
  - apply multi_entity_char in Hx. congruence.
Qed.

(** The slashes of a path. *)
Lemma other_characters_kept_witness :
  Forall2 (fun a b => a = 47%N -> b = 47%N)
          (of_string "path is /Users/bob/Documents/Proj end")
          (censored ascii_table (__init__ bob_proj)
                    (of_string "path is /Users/bob/Documents/Proj end")).
Proof.
  apply (other_characters_kept ascii_table bob_proj).
  - reflexivity.
  - vm_compute. repeat constructor; intros H; repeat (destruct H as [H|H]; [discriminate|]); exact H.
Defined.

(* ------------------------------------------------------------------ *)
(** ** Matches are whole words *)

Section Boundaries.
Variable unicode_alnum : char -> bool.

Lemma star_ends (a : regex) :
  (forall c c', In c' (run unicode_alnum a c) -> ends a c c') ->
  forall fuel c c', In c' (star (run unicode_alnum a) fuel c) ->
                    c' = c \/ (exists x, fst c' = Some x /\ lasts a x = true
                                         /\ remaining c' < remaining c).
Proof.
  intros Ha. induction fuel as [|fuel IH]; intros c c' Hin; simpl in Hin.
  - destruct Hin as [<-|[]]. left; reflexivity.
  - apply in_app_or in Hin as [Hin|[<-|[]]]; [|left; reflexivity].
    apply in_flat_map in Hin as [c1 [H1 Hin]].
    destruct (Ha _ _ H1) as [[-> _]|(x & Hx & Hl & Hlt)].
    + rewrite Nat.ltb_irrefl in Hin. destruct Hin as [<-|[]]. left; reflexivity.
    + right. apply Nat.ltb_lt in Hlt as Hlt'. rewrite Hlt' in Hin.
      destruct (IH _ _ Hin) as [->|(y & Hy & Hly & Hlt2)].
      * exists x. repeat split; assumption.
      * exists y. repeat split; try assumption. lia.
Qed.

(** The cursor after a match has the last character of the match behind
    it. *)
Lemma run_ends (r : regex) (c c' : cursor) :
  In c' (run unicode_alnum r c) -> ends r c c'.
Proof.
  revert c c'; induction r as [|ranges|a IHa b IHb|a IHa b IHb|a IHa|a IHa|a IHa|];
    intros c c' Hin; simpl in Hin.
  - destruct Hin as [<-|[]]. left; split; reflexivity.
  - destruct c as [prev [|x xs]]; simpl in Hin; [contradiction|].
    destruct (in_class ranges x) eqn:E; [|contradiction].
    destruct Hin as [<-|[]]. right. exists x.
    repeat split; [exact E | unfold remaining; simpl; lia].
  - apply in_flat_map in Hin as [c1 [H1 H2]].
    destruct (IHb _ _ H2) as [[-> Nb]|(y & Hy & Hl & Hlt)].
    + destruct (IHa _ _ H1) as [[-> Na]|(x & Hx & Hl & Hlt)].
      * left. split; [reflexivity | simpl; rewrite Na, Nb; reflexivity].
      * right. exists x. repeat split; try assumption.
        simpl. rewrite Nb, Hl. apply orb_true_r.
    + right. exists y. repeat split; try assumption.
      * simpl. rewrite Hl. reflexivity.
      * destruct (IHa _ _ H1) as [[-> _]|(_ & _ & _ & Hlt1)]; lia.
  - apply in_app_or in Hin as [Hin|Hin].
    + destruct (IHa _ _ Hin) as [[-> Na]|(x & Hx & Hl & Hlt)].
      * left. split; [reflexivity | simpl; rewrite Na; reflexivity].
      * right. exists x. repeat split; try assumption.
        simpl. rewrite Hl. reflexivity.
    + destruct (IHb _ _ Hin) as [[-> Nb]|(x & Hx & Hl & Hlt)].
      * left. split; [reflexivity | simpl; rewrite Nb; apply orb_true_r].
      * right. exists x. repeat split; try assumption.
        simpl. rewrite Hl. apply orb_true_r.
  - apply in_app_or in Hin as [Hin|[<-|[]]]; [|left; split; reflexivity].
    destruct (IHa _ _ Hin) as [[-> Na]|H]; [left; split; reflexivity | right; exact H].
  - destruct (star_ends a IHa _ _ _ Hin) as [->|H];
      [left; split; reflexivity | right; exact H].
  - apply in_flat_map in Hin as [c1 [H1 H2]].
    destruct (star_ends a IHa _ _ _ H2) as [->|(y & Hy & Hl & Hlt)].
    + destruct (IHa _ _ H1) as [[-> Na]|H];
        [left; split; [reflexivity | exact Na] | right; exact H].
    + right. exists y. repeat split; try assumption.
      destruct (IHa _ _ H1) as [[-> _]|(_ & _ & _ & Hlt1)]; lia.
  - destruct (at_boundary unicode_alnum c); [|contradiction].
    destruct Hin as [<-|[]]. left; split; reflexivity.
Qed.

(** A match of [\b body \b], for a body that begins and ends with a word
    character, has no word character before it and none after it. *)
Lemma match_at_bounded (body : regex) (prev : option char) (s : pystr) (n : nat) :
  nullable body = false ->
  (forall x, firsts body x = true -> is_word unicode_alnum x = true) ->
  (forall x, lasts body x = true -> is_word unicode_alnum x = true) ->
  match_at unicode_alnum (Cat WordB (Cat body WordB)) prev s = Some n ->
  word_opt unicode_alnum prev = false
  /\ word_opt unicode_alnum (hd_error (skipn n s)) = false.
Proof.
  intros Hn Hf Hl. unfold match_at.
  destruct (run unicode_alnum _ (prev, s)) as [|c' l] eqn:E; [discriminate|].
  intros H; injection H as <-.
  assert (Hin : In c' (run unicode_alnum (Cat WordB (Cat body WordB)) (prev, s)))
    by (rewrite E; left; reflexivity).
  clear E. cbn [run] in Hin.
  apply in_flat_map in Hin as [c1 [H1 Hin]].
  destruct (at_boundary unicode_alnum (prev, s)) eqn:Eb; [|contradiction].
  destruct H1 as [<-|[]].
  apply in_flat_map in Hin as [c2 [H2 Hin]].
  destruct (at_boundary unicode_alnum c2) eqn:Eb2; [|contradiction].
  destruct Hin as [<-|[]].
  pose proof (run_eats unicode_alnum body _ _ H2) as [consumed [Hs _]].
  cbn [snd] in Hs.
  split.
  - apply run_begins in H2 as [[_ Hn']|(x & xs & Hx & Hfx & _)]; [congruence|].
    cbn [snd] in Hx. subst s. unfold at_boundary in Eb. cbn [fst snd hd_error word_opt] in Eb.
    rewrite (Hf x Hfx) in Eb. destruct (word_opt unicode_alnum prev); [discriminate|reflexivity].
  - apply run_ends in H2 as [[_ Hn']|(y & Hy & Hly & _)]; [congruence|].
    unfold at_boundary in Eb2. rewrite Hy in Eb2. cbn [word_opt] in Eb2.
    rewrite (Hl y Hly) in Eb2.
    replace (skipn (length s - remaining c2) s) with (snd c2).
    + destruct (word_opt unicode_alnum (hd_error (snd c2))); [discriminate|reflexivity].
    + unfold remaining. rewrite Hs at 1 2. rewrite length_app.
      replace (length consumed + length (snd c2) - length (snd c2))
        with (length consumed) by lia.
      rewrite skipn_app, skipn_all, Nat.sub_diag. reflexivity.
Qed.

Lemma pieces_whole_words (body : regex) (skip : nat) (prev : option char) (s : pystr) :
  nullable body = false ->
  (forall x, firsts body x = true -> is_word unicode_alnum x = true) ->
  (forall x, lasts body x = true -> is_word unicode_alnum x = true) ->
  whole_words (is_word unicode_alnum) (last_before (firstn skip s) prev)
              (pieces unicode_alnum (Cat WordB (Cat body WordB)) skip prev s).
Proof.
  intros Hn Hf Hl. revert skip prev; induction s as [|c s IH]; intros skip prev.
  - cbn [pieces]. destruct skip; [|exact I].
    destruct (match_at _ _ _ _) as [n|] eqn:E; [|exact I].
    pose proof (match_at_le unicode_alnum _ _ _ _ E) as Hle.
    apply match_at_positive in E; [|cbn; rewrite Hn; reflexivity].
    simpl in Hle. lia.
  - destruct skip as [|k].
    + cbn [firstn last_before pieces].
      destruct (match_at _ _ _ _) as [[|k]|] eqn:E.
      * apply match_at_positive in E; [lia | cbn; rewrite Hn; reflexivity].
      * cbn [whole_words].
        destruct (match_at_bounded body prev (c :: s) (S k) Hn Hf Hl E) as [Hp Hnext].
        split; [destruct prev; [exact Hp | exact I]|]. split.
        -- rewrite pieces_text. cbn [skipn] in Hnext.
           destruct (skipn k s); [exact I | exact Hnext].
        -- cbn [firstn last_before]. apply IH.
      * cbn [whole_words]. apply (IH 0 (Some c)).
    + cbn [pieces firstn last_before]. apply IH.
Qed.

End Boundaries.

Lemma letter_is_word (unicode_alnum : char -> bool) (x : char) :
  in_class [(65, 90); (97, 122)]%N x = true -> is_word unicode_alnum x = true.
Proof.
  intros H. unfold in_class in H. cbn [existsb fst snd] in H. rewrite orb_false_r in H.
  assert (Hlt : (x <? 128)%N = true).
  { apply N.ltb_lt. apply orb_true_iff in H as [H|H];
      apply andb_true_iff in H as [_ H]; apply N.leb_le in H; lia. }
  unfold is_word. rewrite Hlt. apply orb_true_iff. left.
  unfold ascii_alnum, in_class. cbn [existsb fst snd]. rewrite orb_false_r.
  apply orb_true_iff. right. exact H.
Qed.

Ltac letter_range :=
  unfold in_class; cbn [existsb fst snd]; rewrite orb_false_r; apply orb_true_iff;
  first [ left; apply andb_true_iff; split; apply N.leb_le; lia
        | right; apply andb_true_iff; split; apply N.leb_le; lia ].

(** X14.  Both patterns stand between two [\b] and begin and end with a
    letter: a match of either has no word character (a letter, a digit, the
    underscore) right before it and none right after it.  A name inside a
    longer word or an identifier is not matched. *)
Theorem matches_are_whole_words (unicode_alnum : char -> bool) (text : pystr) :
  whole_words (is_word unicode_alnum) None
              (pieces unicode_alnum _RE_TITLED 0 None text)
  /\ whole_words (is_word unicode_alnum) None
                 (pieces unicode_alnum _RE_MULTI_CAP 0 None text).
Proof.
  split.
  - apply (pieces_whole_words unicode_alnum _ 0 None text); [reflexivity| |];
      intros x H; cbn in H; apply letter_is_word;
      range_cases H; range_bounds H; letter_range.
  - apply (pieces_whole_words unicode_alnum _ 0 None text); [reflexivity| |];
      intros x H; cbn in H; apply letter_is_word;
      range_cases H; range_bounds H; letter_range.
Qed.

End DemoFacts.

(* ================================================================== *)
(** * Results on the render hook                                       *)
(* ================================================================== *)

Module HookFacts.
Import Demo DemoFacts Hook.

Lemma upd_same {A : Type} (f : nat -> A) (k : nat) (v : A) : upd f k v k = v.
Proof. unfold upd. rewrite Nat.eqb_refl. reflexivity. Qed.

Lemma upd_other {A : Type} (f : nat -> A) (k j : nat) (v : A) :
  j <> k -> upd f k v j = f j.
Proof. intros H. unfold upd. apply Nat.eqb_neq in H. rewrite H. reflexivity. Qed.

Lemma censored_iter (unicode_alnum : char -> bool) (self : DemoCensor)
      (n : nat) (text : pystr) :
  good_table (_replacements self) ->
  censoring text (Nat.iter n (censored unicode_alnum self) text).
Proof.
  intros Hg. induction n as [|n IH]; simpl; [apply censoring_refl|].
  eapply censoring_trans; [exact IH | apply censored_censoring; exact Hg].
Qed.

Lemma censored_empty (unicode_alnum : char -> bool) (self : DemoCensor) :
  good_table (_replacements self) -> censored unicode_alnum self [] = [].
Proof.
  intros Hg. pose proof (censored_censoring unicode_alnum self [] Hg) as H.
  inversion H. reflexivity.
Qed.

Lemma censored_iter_empty (unicode_alnum : char -> bool) (self : DemoCensor) (n : nat) :
  good_table (_replacements self) ->
  Nat.iter n (censored unicode_alnum self) [] = [].
Proof.
  intros Hg. pose proof (censored_iter unicode_alnum self n [] Hg) as H.
  inversion H. reflexivity.
Qed.

Lemma clear_of_empty (table : list (pystr * pystr)) :
  good_table table -> clear_of table [].
Proof.
  intros Hg. unfold clear_of, good_table in *. eapply Forall_impl; [|exact Hg].
  intros [old new] [Hne _]. cbn [fst] in *. destruct old; [congruence | reflexivity].
Qed.

Lemma Forall2_weaken_In {A B : Type} (P Q : A -> B -> Prop)
      (l : list A) (l' : list B) :
  (forall x y, In x l -> P x y -> Q x y) -> Forall2 P l l' -> Forall2 Q l l'.
Proof.
  intros H F. induction F as [|x y xs ys Hxy _ IH]; constructor.
  - apply H; [left; reflexivity | exact Hxy].
  - apply IH. intros x0 y0 Hin. apply H. right; exact Hin.
Qed.

Lemma Forall2_Forall_In {A B : Type} (P : A -> B -> Prop) (Q : B -> Prop)
      (l : list A) (l' : list B) :
  (forall x y, In x l -> P x y -> Q y) -> Forall2 P l l' -> Forall Q l'.
Proof.
  intros H F. induction F as [|x y xs ys Hxy _ IH]; constructor.
  - apply (H x); [left; reflexivity | exact Hxy].
  - apply IH. intros x0 y0 Hin. apply H. right; exact Hin.
Qed.

Lemma times_cons (x r : Renderable) (rest : list Renderable) :
  times x (r :: rest) = (if same_object x r then 1 else 0) + times x rest.
Proof. unfold times. cbn [filter]. destruct (same_object x r); reflexivity. Qed.

Lemma times_In (x : Renderable) (l : list Renderable) :
  In x l -> exists m, times x l = S m.
Proof.
  intros H. assert (Hin : In x (filter (same_object x) l)).
  { apply filter_In. split; [exact H|].
    destruct x; cbn; apply Nat.eqb_refl. }
  unfold times. destruct (filter (same_object x) l); [contradiction|].
  eexists; reflexivity.
Qed.

Lemma same_object_In (x : Renderable) (l : list Renderable) :
  ~ In x l -> Forall (fun r => same_object x r = false) l.
Proof.
  intros H. apply Forall_forall. intros r Hr.
  destruct (same_object x r) eqn:E; [|reflexivity]. exfalso. apply H.
  destruct x as [i|i|i|i], r as [j|j|j|j]; try discriminate;
    cbn in E; apply Nat.eqb_eq in E; subst; exact Hr.
Qed.

Section Steps.
Context {R : Rich}.
Variable unicode_alnum : char -> bool.

Lemma on_censor_run (text : pystr) (st : Store) :
  on_censor (censor_text unicode_alnum text) st
  = (censored unicode_alnum (_censor st) text, st).
Proof.
  unfold on_censor, censored. rewrite censor_text_run. destruct st; reflexivity.
Qed.

Lemma censor_rich_text_run (rich_text : nat) (st : Store) :
  censor_rich_text unicode_alnum rich_text st
  = (rich_text,
     let new := censored unicode_alnum (_censor st) (plain (texts st rich_text)) in
     if pystr_eqb new (plain (texts st rich_text)) then st
     else snd (assign_plain rich_text new st)).
Proof.
  unfold censor_rich_text. rewrite on_censor_run. cbv zeta.
  destruct (pystr_eqb _ _); reflexivity.
Qed.

(** One renderable: what is returned or raised, and what becomes of the
    store. *)
Lemma _process_one_run (r : Renderable) (st : Store) :
  _process_one unicode_alnum r st
  = match r with
    | AText k => (inr r, snd (censor_rich_text unicode_alnum k st))
    | AMarkdown k =>
        (inr (AMarkdown (allocated st)),
         snd (new_markdown
                (censored unicode_alnum (_censor st) (markup (markdowns st k))) st))
    | ARule k =>
        match title (rules st k) with
        | StrTitle [] => (inr r, st)
        | StrTitle (x :: xs) =>
            (inr r,
             snd (assign_title k (censored unicode_alnum (_censor st) (x :: xs)) st))
        | TextTitle j =>
            match plain (texts st j) with
            | [] => (inr r, st)
            | _ :: _ => (inl (raised_on_text (_censor st)), st)
            end
        end
    | Another _ => (inr r, st)
    end.
Proof.
  destruct r as [k|k|k|k]; cbn [_process_one].
  - rewrite censor_rich_text_run. reflexivity.
  - rewrite on_censor_run. reflexivity.
  - destruct (title (rules st k)) as [[|x xs]|j]; cbn [truthy pystr_eqb negb];
      [reflexivity | |].
    + cbn [censor_title]. rewrite on_censor_run. reflexivity.
    + destruct (plain (texts st j)); reflexivity.
  - reflexivity.
Qed.

Ltac step_cases r st :=
  rewrite _process_one_run;
  destruct r as [?j|?j|?j|?j]; cbn [snd fst];
  [ rewrite censor_rich_text_run; cbn [snd]; cbv zeta;
    destruct (pystr_eqb _ _) eqn:?Eq
  | idtac
  | destruct (title (rules st _)) as [[|?x ?xs]|?t] eqn:?Et;
    [ | | destruct (plain (texts st _)) eqn:?Ep ]
  | idtac ];
  cbn [snd fst].

Lemma step_censor (r : Renderable) (st : Store) :
  _censor (snd (_process_one unicode_alnum r st)) = _censor st.
Proof. step_cases r st; reflexivity. Qed.

Lemma step_allocated (r : Renderable) (st : Store) :
  allocated (snd (_process_one unicode_alnum r st))
  = allocated st + (if is_markdown r then 1 else 0).
Proof. step_cases r st; cbn; lia. Qed.

Lemma step_markdowns (r : Renderable) (st : Store) (k : nat) :
  k < allocated st ->
  markdowns (snd (_process_one unicode_alnum r st)) k = markdowns st k.
Proof. intros Hk. step_cases r st; try reflexivity. cbn. apply upd_other. lia. Qed.

Lemma step_texts (r : Renderable) (st : Store) (k : nat) :
  same_object (AText k) r = false ->
  texts (snd (_process_one unicode_alnum r st)) k = texts st k.
Proof.
  intros Hr. step_cases r st; try reflexivity.
  cbn. apply upd_other. cbn in Hr. apply Nat.eqb_neq. exact Hr.
Qed.

Lemma step_rules (r : Renderable) (st : Store) (k : nat) :
  same_object (ARule k) r = false ->
  rules (snd (_process_one unicode_alnum r st)) k = rules st k.
Proof.
  intros Hr. step_cases r st; try reflexivity.
  cbn. apply upd_other. cbn in Hr. apply Nat.eqb_neq. exact Hr.
Qed.

Lemma step_plain (r : Renderable) (st : Store) (k : nat) :
  good_table (_replacements (_censor st)) ->
  plain (texts (snd (_process_one unicode_alnum r st)) k)
  = if same_object (AText k) r
    then censored unicode_alnum (_censor st) (plain (texts st k))
    else plain (texts st k).
Proof.
  intros Hg. destruct (same_object (AText k) r) eqn:E;
    [|rewrite step_texts by exact E; reflexivity].
  destruct r as [j|j|j|j]; try discriminate. cbn in E. apply Nat.eqb_eq in E. subst j.
  rewrite _process_one_run. cbn [snd]. rewrite censor_rich_text_run. cbn [snd]. cbv zeta.
  destruct (pystr_eqb _ _) eqn:Eq.
  - apply pystr_eqb_eq in Eq. symmetry. exact Eq.
  - cbn. rewrite upd_same. apply plain_set.
    apply (censored_censoring unicode_alnum (_censor st) _ Hg).
Qed.

(** A Text on which there is nothing to censor is not assigned to. *)
Lemma step_text_alone (r : Renderable) (st : Store) (k : nat) :
  censored unicode_alnum (_censor st) (plain (texts st k)) = plain (texts st k) ->
  texts (snd (_process_one unicode_alnum r st)) k = texts st k.
Proof.
  intros Hsame. destruct (same_object (AText k) r) eqn:E; [|apply step_texts; exact E].
  destruct r as [j|j|j|j]; try discriminate. cbn in E. apply Nat.eqb_eq in E. subst j.
  rewrite _process_one_run. cbn [snd]. rewrite censor_rich_text_run. cbn [snd]. cbv zeta.
  rewrite Hsame.
  replace (pystr_eqb (plain (texts st k)) (plain (texts st k))) with true;
    [reflexivity|]. symmetry. apply pystr_eqb_eq. reflexivity.
Qed.

(** The title of a Rule that is a str stays a str, censored if the Rule is
    the renderable. *)
Lemma step_title (r : Renderable) (st : Store) (k : nat) (s : pystr) :
  good_table (_replacements (_censor st)) ->
  title (rules st k) = StrTitle s ->
  title (rules (snd (_process_one unicode_alnum r st)) k)
  = StrTitle (if same_object (ARule k) r
              then censored unicode_alnum (_censor st) s
              else s).
Proof.
  intros Hg Ht. destruct (same_object (ARule k) r) eqn:E;
    [|rewrite step_rules by exact E; exact Ht].
  destruct r as [j|j|j|j]; try discriminate. cbn in E. apply Nat.eqb_eq in E. subst j.
  rewrite _process_one_run. cbn [snd]. rewrite Ht.
  destruct s as [|x xs]; cbn [snd].
  - rewrite Ht, (censored_empty unicode_alnum _ Hg). reflexivity.
  - cbn. rewrite upd_same. apply title_set.
Qed.

(** A Rule without a title, and a Rule with a Text for its title, are not
    assigned to. *)
Lemma step_rule_alone (r : Renderable) (st : Store) (k : nat) :
  title (rules st k) = StrTitle [] \/ (exists j, title (rules st k) = TextTitle j) ->
  rules (snd (_process_one unicode_alnum r st)) k = rules st k.
Proof.
  intros Ht. destruct (same_object (ARule k) r) eqn:E; [|apply step_rules; exact E].
  destruct r as [j|j|j|j]; try discriminate. cbn in E. apply Nat.eqb_eq in E. subst j.
  rewrite _process_one_run. cbn [snd].
  destruct Ht as [Ht|[j Ht]]; rewrite Ht; [reflexivity|].
  destruct (plain (texts st j)); reflexivity.
Qed.

(** A renderable the hook can censor is returned, a Markdown as the new
    object. *)
Lemma step_returns (r : Renderable) (st : Store) :
  censorable st r ->
  fst (_process_one unicode_alnum r st)
  = inr (match r with
         | AMarkdown _ => AMarkdown (allocated st)
         | _ => r
         end).
Proof.
  intros Hc. rewrite _process_one_run. destruct r as [k|k|k|k]; try reflexivity.
  cbn [censorable] in Hc.
  destruct (title (rules st k)) as [[|x xs]|j]; try reflexivity.
  rewrite Hc. reflexivity.
Qed.

(** A Rule with a Text that is not empty for its title: the exception, and
    the store as it was. *)
Lemma step_raises (st : Store) (k j : nat) :
  title (rules st k) = TextTitle j ->
  plain (texts st j) <> [] ->
  _process_one unicode_alnum (ARule k) st = (inl (raised_on_text (_censor st)), st).
Proof.
  intros Ht Hp. rewrite _process_one_run, Ht.
  destruct (plain (texts st j)); [congruence | reflexivity].
Qed.

Lemma step_censorable (r x : Renderable) (st : Store) :
  good_table (_replacements (_censor st)) ->
  censorable st x -> censorable (snd (_process_one unicode_alnum r st)) x.
Proof.
  intros Hg Hx. destruct x as [k|k|k|k]; try exact I. cbn [censorable] in *.
  destruct (title (rules st k)) as [s|j] eqn:Et.
  - rewrite (step_title r st k s Hg Et). exact I.
  - rewrite step_rule_alone by (right; exists j; exact Et). rewrite Et.
    rewrite step_plain by exact Hg. rewrite Hx.
    destruct (same_object (AText j) r); [apply censored_empty; exact Hg | reflexivity].
Qed.

(** The list: the first renderable, then the rest from the store it left,
    unless it raised. *)
Lemma process_cons (r : Renderable) (rest : list Renderable) (st : Store) :
  process_renderables unicode_alnum (r :: rest) st
  = match fst (_process_one unicode_alnum r st) with
    | inl e => (inl e, snd (_process_one unicode_alnum r st))
    | inr r' =>
        (match fst (process_renderables unicode_alnum rest
                      (snd (_process_one unicode_alnum r st))) with
         | inl e => inl e
         | inr rest' => inr (r' :: rest')
         end,
         snd (process_renderables unicode_alnum rest
                (snd (_process_one unicode_alnum r st))))
    end.
Proof.
  cbn [process_renderables].
  destruct (_process_one unicode_alnum r st) as [[e|r'] st1]; cbn [fst snd];
    [reflexivity|].
  destruct (process_renderables unicode_alnum rest st1) as [[e|rest'] st2]; reflexivity.
Qed.

(** Induction along the list for what holds of the store step by step,
    whether the call returns or raises. *)
Lemma process_store_ind (P : Store -> Prop) (renderables : list Renderable) :
  (forall r st, In r renderables -> P st -> P (snd (_process_one unicode_alnum r st))) ->
  forall st, P st -> P (snd (process_renderables unicode_alnum renderables st)).
Proof.
  induction renderables as [|r rest IH]; intros Hstep st HP; [exact HP|].
  rewrite process_cons.
  assert (H1 : P (snd (_process_one unicode_alnum r st)))
    by (apply Hstep; [left; reflexivity | exact HP]).
  destruct (fst (_process_one unicode_alnum r st)) as [e|r']; cbn [snd]; [exact H1|].
  apply IH; [|exact H1]. intros x st0 Hin. apply Hstep. right; exact Hin.
Qed.

Lemma process_censor (renderables : list Renderable) (st : Store) :
  _censor (snd (process_renderables unicode_alnum renderables st)) = _censor st.
Proof.
  apply (process_store_ind (fun st' => _censor st' = _censor st)); [|reflexivity].
  intros r st0 _ H. rewrite step_censor. exact H.
Qed.

Lemma process_markdowns (renderables : list Renderable) (st : Store) (k : nat) :
  k < allocated st ->
  markdowns (snd (process_renderables unicode_alnum renderables st)) k = markdowns st k.
Proof.
  intros Hk.
  apply (process_store_ind
           (fun st' => allocated st <= allocated st' /\ markdowns st' k = markdowns st k));
    [|split; [lia | reflexivity]].
  intros r st0 _ [Hle Hm]. rewrite step_allocated, step_markdowns by lia.
  split; [lia | exact Hm].
Qed.

Lemma process_texts (renderables : list Renderable) (st : Store) (k : nat) :
  ~ In (AText k) renderables ->
  texts (snd (process_renderables unicode_alnum renderables st)) k = texts st k.
Proof.
  intros H. apply same_object_In in H. rewrite Forall_forall in H.
  apply (process_store_ind (fun st' => texts st' k = texts st k)); [|reflexivity].
  intros r st0 Hin Hst. rewrite step_texts by (apply H; exact Hin). exact Hst.
Qed.

Lemma process_rules (renderables : list Renderable) (st : Store) (k : nat) :
  ~ In (ARule k) renderables ->
  rules (snd (process_renderables unicode_alnum renderables st)) k = rules st k.
Proof.
  intros H. apply same_object_In in H. rewrite Forall_forall in H.
  apply (process_store_ind (fun st' => rules st' k = rules st k)); [|reflexivity].
  intros r st0 Hin Hst. rewrite step_rules by (apply H; exact Hin). exact Hst.
Qed.

Lemma process_text_alone (renderables : list Renderable) (st : Store) (k : nat) :
  censored unicode_alnum (_censor st) (plain (texts st k)) = plain (texts st k) ->
  texts (snd (process_renderables unicode_alnum renderables st)) k = texts st k.
Proof.
  intros H.
  apply (process_store_ind
           (fun st' => _censor st' = _censor st /\ texts st' k = texts st k));
    [|split; reflexivity].
  intros r st0 _ [Hc Ht]. rewrite step_censor. split; [exact Hc|].
  rewrite step_text_alone; [exact Ht|]. rewrite Hc, Ht. exact H.
Qed.

Lemma process_rule_alone (renderables : list Renderable) (st : Store) (k : nat) :
  title (rules st k) = StrTitle [] \/ (exists j, title (rules st k) = TextTitle j) ->
  rules (snd (process_renderables unicode_alnum renderables st)) k = rules st k.
Proof.
  intros H.
  apply (process_store_ind (fun st' => rules st' k = rules st k)); [|reflexivity].
  intros r st0 _ Hst. rewrite step_rule_alone; [exact Hst|]. rewrite Hst. exact H.
Qed.

(** A list of renderables the hook can censor: the call returns. *)
Lemma process_returns (renderables : list Renderable) (st : Store) :
  good_table (_replacements (_censor st)) ->
  Forall (censorable st) renderables ->
  exists result,
    fst (process_renderables unicode_alnum renderables st) = inr result.
Proof.
  intros Hg H. revert st Hg H. induction renderables as [|r rest IH]; intros st Hg H.
  - exists []. reflexivity.
  - inversion H as [|r0 l Hr Hrest]; subst.
    rewrite process_cons, (step_returns r st Hr). cbn [fst snd].
    destruct (IH (snd (_process_one unicode_alnum r st))) as [rest' Hrest'].
    + rewrite step_censor. exact Hg.
    + eapply Forall_impl; [|exact Hrest]. intros x. apply step_censorable. exact Hg.
    + rewrite Hrest'. eexists; reflexivity.
Qed.

(** On such a list the store after the call is the store after the first
    renderable and then the rest. *)
Lemma process_cons_store (r : Renderable) (rest : list Renderable) (st : Store) :
  censorable st r ->
  snd (process_renderables unicode_alnum (r :: rest) st)
  = snd (process_renderables unicode_alnum rest (snd (_process_one unicode_alnum r st))).
Proof. intros Hr. rewrite process_cons, (step_returns r st Hr). reflexivity. Qed.

Lemma process_plain (renderables : list Renderable) (st : Store) (k : nat) :
  good_table (_replacements (_censor st)) ->
  Forall (censorable st) renderables ->
  plain (texts (snd (process_renderables unicode_alnum renderables st)) k)
  = Nat.iter (times (AText k) renderables)
             (censored unicode_alnum (_censor st)) (plain (texts st k)).
Proof.
  revert st; induction renderables as [|r rest IH]; intros st Hg H; [reflexivity|].
  inversion H as [|r0 l Hr Hrest]; subst.
  rewrite (process_cons_store r rest st Hr).
  rewrite IH.
  - rewrite step_censor, step_plain by exact Hg. rewrite times_cons.
    destruct (same_object (AText k) r); [|reflexivity].
    cbn [Nat.add]. rewrite Nat.iter_succ_r. reflexivity.
  - rewrite step_censor; exact Hg.
  - eapply Forall_impl; [|exact Hrest]. intros x. apply step_censorable. exact Hg.
Qed.

Lemma process_title (renderables : list Renderable) (st : Store) (k : nat) (s : pystr) :
  good_table (_replacements (_censor st)) ->
  Forall (censorable st) renderables ->
  title (rules st k) = StrTitle s ->
  title (rules (snd (process_renderables unicode_alnum renderables st)) k)
  = StrTitle (Nat.iter (times (ARule k) renderables)
                       (censored unicode_alnum (_censor st)) s).
Proof.
  revert st s; induction renderables as [|r rest IH]; intros st s Hg H Ht; [exact Ht|].
  inversion H as [|r0 l Hr Hrest]; subst.
  rewrite (process_cons_store r rest st Hr).
  assert (Hg1 : good_table (_replacements
                              (_censor (snd (_process_one unicode_alnum r st)))))
    by (rewrite step_censor; exact Hg).
  assert (Hc1 : Forall (censorable (snd (_process_one unicode_alnum r st))) rest)
    by (eapply Forall_impl; [|exact Hrest]; intros x; apply step_censorable; exact Hg).
  rewrite (IH _ _ Hg1 Hc1 (step_title r st k s Hg Ht)).
  rewrite step_censor, times_cons.
  destruct (same_object (ARule k) r); [|reflexivity].
  cbn [Nat.add]. rewrite Nat.iter_succ_r. reflexivity.
Qed.

Lemma process_allocated (renderables : list Renderable) (st : Store) :
  good_table (_replacements (_censor st)) ->
  Forall (censorable st) renderables ->
  allocated (snd (process_renderables unicode_alnum renderables st))
  = allocated st + length (filter is_markdown renderables).
Proof.
  revert st; induction renderables as [|r rest IH]; intros st Hg H; [cbn; lia|].
  inversion H as [|r0 l Hr Hrest]; subst.
  rewrite (process_cons_store r rest st Hr). rewrite IH.
  - rewrite step_allocated. cbn [filter]. destruct (is_markdown r); cbn [length]; lia.
  - rewrite step_censor; exact Hg.
  - eapply Forall_impl; [|exact Hrest]. intros x. apply step_censorable. exact Hg.
Qed.

Lemma process_results (renderables : list Renderable) (st : Store)
      (result : list Renderable) :
  good_table (_replacements (_censor st)) ->
  Forall (censorable st) renderables ->
  Forall (built (allocated st)) renderables ->
  fst (process_renderables unicode_alnum renderables st) = inr result ->
  Forall2 (stands_for unicode_alnum (_censor st) st
             (snd (process_renderables unicode_alnum renderables st)))
          renderables result.
Proof.
  intros Hg Hc H. revert st result Hg Hc H.
  induction renderables as [|r rest IH]; intros st result Hg Hc H Hres.
  - cbn in Hres. injection Hres as <-. constructor.
  - inversion H as [|r0 l Hr Hrest]; subst.
    inversion Hc as [|r0 l Hcr Hcrest]; subst.
    rewrite (process_cons_store r rest st Hcr).
    rewrite process_cons, (step_returns r st Hcr) in Hres. cbn [fst] in Hres.
    set (st1 := snd (_process_one unicode_alnum r st)) in *.
    assert (Hg1 : good_table (_replacements (_censor st1)))
      by (unfold st1; rewrite step_censor; exact Hg).
    assert (Hc1 : Forall (censorable st1) rest)
      by (eapply Forall_impl; [|exact Hcrest]; intros x; apply step_censorable; exact Hg).
    assert (Ha1 : allocated st <= allocated st1)
      by (unfold st1; rewrite step_allocated; lia).
    destruct (fst (process_renderables unicode_alnum rest st1)) as [e|rest'] eqn:E1;
      [discriminate|]. injection Hres as <-.
    constructor.
    + destruct r as [k|k|k|k]; cbn [stands_for]; try reflexivity.
      exists (allocated st).
      assert (Hs1 : allocated st1 = S (allocated st))
        by (unfold st1; rewrite step_allocated; cbn; lia).
      split; [reflexivity|]. split.
      * rewrite (process_allocated rest st1 Hg1 Hc1). lia.
      * rewrite process_markdowns by lia.
        unfold st1. rewrite _process_one_run. cbn. apply upd_same.
    + assert (Hrest1 : Forall (built (allocated st1)) rest).
      { eapply Forall_impl; [|exact Hrest]. intros [k|k|k|k]; cbn; auto. lia. }
      specialize (IH st1 rest' Hg1 Hc1 Hrest1 E1).
      refine (Forall2_weaken_In _ _ _ _ _ IH).
      intros [k|k|k|k] y Hin; cbn [stands_for]; auto.
      intros (k' & -> & Hk' & Hm). exists k'. split; [reflexivity|]. split; [lia|].
      rewrite Hm. unfold st1 at 1 2. rewrite step_censor, step_markdowns; [reflexivity|].
      rewrite Forall_forall in Hrest. apply (Hrest _ Hin).
Qed.

(** The renderables before one that raises are processed, the exception
    ends the call there. *)
Lemma process_app_raises (before after : list Renderable) (r : Renderable)
      (st : Store) (e : Raised) :
  good_table (_replacements (_censor st)) ->
  Forall (censorable st) before ->
  _process_one unicode_alnum r (snd (process_renderables unicode_alnum before st))
  = (inl e, snd (process_renderables unicode_alnum before st)) ->
  process_renderables unicode_alnum (before ++ r :: after) st
  = (inl e, snd (process_renderables unicode_alnum before st)).
Proof.
  revert st; induction before as [|b before IH]; intros st Hg Hc Hr.
  - cbn [app]. cbn [process_renderables snd] in Hr.
    rewrite process_cons, Hr. reflexivity.
  - inversion Hc as [|b0 l Hb Hrest]; subst.
    rewrite (process_cons_store b before st Hb) in Hr |- *.
    rewrite <- app_comm_cons, process_cons, (step_returns b st Hb). cbn [fst snd].
    rewrite IH; [reflexivity| | |exact Hr].
    + rewrite step_censor; exact Hg.
    + eapply Forall_impl; [|exact Hrest]. intros x. apply step_censorable. exact Hg.
Qed.

End Steps.

(* ------------------------------------------------------------------ *)
(** ** Results on [censor_rich_text] and [DemoRenderHook] *)

(** X10.  [censor_rich_text] works in place and keeps the length: it returns
    the object it was given; when [censor_text] changes nothing in the plain
    string the object is not assigned to; otherwise [plain] is assigned
    once, the censored string, which has the length of the old one (the
    condition under which the setter of Rich keeps the style spans).  No
    other object and nothing of the censor changes. *)
Theorem censor_rich_text_in_place {R : Rich} (unicode_alnum : char -> bool)
        (workspace : Path) (texts0 : nat -> Text) (markdowns0 : nat -> Markdown)
        (rules0 : nat -> Rule) (n rich_text : nat) :
  let st := DemoRenderHook (__init__ workspace) texts0 markdowns0 rules0 n in
  let original := plain (texts0 rich_text) in
  let new := censored unicode_alnum (__init__ workspace) original in
  let out := censor_rich_text unicode_alnum rich_text st in
  fst out = rich_text
  /\ length new = length original
  /\ texts (snd out) rich_text
     = (if pystr_eqb new original then texts0 rich_text
        else set_plain new (texts0 rich_text))
  /\ plain (texts (snd out) rich_text) = new
  /\ (forall k, k <> rich_text -> texts (snd out) k = texts0 k)
  /\ _censor (snd out) = __init__ workspace
  /\ markdowns (snd out) = markdowns0
  /\ rules (snd out) = rules0
  /\ allocated (snd out) = n.
Proof.
  intros st original new out.
  assert (Hc : censoring original new)
    by apply censored_censoring, init_good_table.
  unfold out. rewrite censor_rich_text_run. cbn [fst snd]. cbv zeta.
  change (plain (texts st rich_text)) with original.
  change (censored unicode_alnum (_censor st) original) with new.
  split; [reflexivity|]. split; [apply censoring_length; exact Hc|].
  destruct (pystr_eqb new original) eqn:E.
  - apply pystr_eqb_eq in E. repeat split; try reflexivity. symmetry; exact E.
  - cbn. rewrite upd_same. repeat split; try reflexivity.
    + apply plain_set. exact Hc.
    + intros k Hk. apply upd_other. exact Hk.
Qed.

(** [test_rich_text_style_preserved]: the plain string is censored, the
    span is as it was. *)
Lemma censor_rich_text_in_place_witness :
  texts (snd (censor_rich_text (R := styled) ascii_table 0
                (DemoRenderHook (__init__ bob_proj)
                   (fun _ => styled_text "Path: /Users/bob/Documents/Proj")
                   (fun _ => styled_markdown "") (fun _ => styled_rule "") 0))) 0
  = (of_string "Path: /Users/" ++ blocks 3 ++ of_string "/Documents/Proj",
     [(0, 5, "bold"%string)]).
Proof.
  destruct (censor_rich_text_in_place (R := styled) ascii_table bob_proj
              (fun _ => styled_text "Path: /Users/bob/Documents/Proj")
              (fun _ => styled_markdown "") (fun _ => styled_rule "") 0 0)
    as (_ & _ & H & _).
  etransitivity; [exact H|]. vm_compute. reflexivity.
Defined.

(** X11.  [process_renderables] on a list of renderables the hook can
    censor (the title of every Rule listed is a str, or a Text that is
    empty), the Markdown among them built before the call: the call
    returns, with one entry for each renderable, in order; a Text, a Rule
    and any other object stand in the result as themselves, a Markdown is
    replaced by a new object, built from the censored markup alone, and is
    itself left as it was, as is every Markdown built before; a Text and a
    Rule that are not listed, a Text on which there is nothing to censor, a
    Rule with the empty title and a Rule with a Text for its title are left
    as they were; the censor is unchanged. *)
Theorem process_renderables_objects {R : Rich} (unicode_alnum : char -> bool)
        (workspace : Path) (texts0 : nat -> Text) (markdowns0 : nat -> Markdown)
        (rules0 : nat -> Rule) (n : nat) (renderables : list Renderable) :
  let c := __init__ workspace in
  let st := DemoRenderHook c texts0 markdowns0 rules0 n in
  let out := process_renderables unicode_alnum renderables st in
  Forall (built n) renderables ->
  Forall (censorable st) renderables ->
  (exists result,
      fst out = inr result
      /\ length result = length renderables
      /\ Forall2 (stands_for unicode_alnum c st (snd out)) renderables result)
  /\ allocated (snd out) = n + length (filter is_markdown renderables)
  /\ (forall k, k < n -> markdowns (snd out) k = markdowns0 k)
  /\ (forall k, ~ In (AText k) renderables -> texts (snd out) k = texts0 k)
  /\ (forall k, ~ In (ARule k) renderables -> rules (snd out) k = rules0 k)
  /\ (forall k, censored unicode_alnum c (plain (texts0 k)) = plain (texts0 k) ->
                texts (snd out) k = texts0 k)
  /\ (forall k, title (rules0 k) = StrTitle [] -> rules (snd out) k = rules0 k)
  /\ (forall k j, title (rules0 k) = TextTitle j -> rules (snd out) k = rules0 k)
  /\ _censor (snd out) = c.
Proof.
  intros c st out Hb Hc.
  assert (Hg : good_table (_replacements (_censor st))) by apply init_good_table.
  split.
  - destruct (process_returns unicode_alnum renderables st Hg Hc) as [result Hres].
    pose proof (process_results unicode_alnum renderables st result Hg Hc Hb Hres) as H2.
    exists result. split; [exact Hres|].
    split; [symmetry; apply (Forall2_length H2) | exact H2].
  - split; [apply (process_allocated unicode_alnum renderables st Hg Hc)|].
    split; [intros k Hk; apply process_markdowns; exact Hk|].
    split; [intros k Hk; apply process_texts; exact Hk|].
    split; [intros k Hk; apply process_rules; exact Hk|].
    split; [intros k Hk; apply process_text_alone; exact Hk|].
    split; [intros k Hk; apply process_rule_alone; left; exact Hk|].
    split; [intros k j Hk; apply process_rule_alone; right; exists j; exact Hk|].
    apply process_censor.
Qed.

(** A Text, a Markdown and a Rule under the path [/Users/bob/Documents/Proj],
    and one other object: the Markdown is replaced by a new one with the
    default code theme, the others are returned as they are. *)
Lemma process_renderables_objects_witness :
  let out := process_renderables (R := styled) ascii_table
               [AText 0; AMarkdown 0; ARule 0; Another 7]
               (DemoRenderHook (__init__ bob_proj)
                  (fun _ => styled_text "/Users/bob/Documents/Proj")
                  (fun _ => styled_markdown "Hello from /Users/bob/Documents/Proj")
                  (fun _ => styled_rule "Step 1 /Users/bob/Documents/Proj") 1) in
  fst out = inr [AText 0; AMarkdown 1; ARule 0; Another 7]
  /\ markdowns (snd out) 0 = styled_markdown "Hello from /Users/bob/Documents/Proj"
  /\ markdowns (snd out) 1
     = (of_string "Hello from /Users/" ++ blocks 3 ++ of_string "/Documents/Proj",
        "monokai"%string)
  /\ allocated (snd out) = 2.
Proof.
  destruct (process_renderables_objects (R := styled) ascii_table bob_proj
              (fun _ => styled_text "/Users/bob/Documents/Proj")
              (fun _ => styled_markdown "Hello from /Users/bob/Documents/Proj")
              (fun _ => styled_rule "Step 1 /Users/bob/Documents/Proj") 1
              [AText 0; AMarkdown 0; ARule 0; Another 7])
    as (_ & Ha & Hm & _).
  - repeat constructor.
  - repeat constructor.
  - cbv zeta. split; [vm_compute; reflexivity|].
    split; [apply (Hm 0); lia|].
    split; [vm_compute; reflexivity | exact Ha].
Defined.

(** X12.  [process_renderables], on a list of renderables the hook can
    censor, censors a Text and the str title of a Rule once for each time
    the object is listed: after the call the plain string of a Text is
    [censor_text] applied to the old one as many times as the Text occurs in
    the list, and so is the title of a Rule.  Whatever the number, a
    character is only ever replaced by a block. *)
Theorem listed_object_censored_each_time {R : Rich} (unicode_alnum : char -> bool)
        (workspace : Path) (texts0 : nat -> Text) (markdowns0 : nat -> Markdown)
        (rules0 : nat -> Rule) (n : nat) (renderables : list Renderable) (k : nat) :
  let c := __init__ workspace in
  let st := DemoRenderHook c texts0 markdowns0 rules0 n in
  let st' := snd (process_renderables unicode_alnum renderables st) in
  Forall (censorable st) renderables ->
  plain (texts st' k)
  = Nat.iter (times (AText k) renderables) (censored unicode_alnum c) (plain (texts0 k))
  /\ Forall2 (fun a b => b = a \/ b = block) (plain (texts0 k)) (plain (texts st' k))
  /\ (forall s, title (rules0 k) = StrTitle s ->
                title (rules st' k)
                = StrTitle (Nat.iter (times (ARule k) renderables)
                                     (censored unicode_alnum c) s)
                /\ Forall2 (fun a b => b = a \/ b = block) s
                           (title_string st' (title (rules st' k)))).
Proof.
  intros c st st' Hc.
  assert (Hg : good_table (_replacements (_censor st))) by apply init_good_table.
  assert (Hp := process_plain unicode_alnum renderables st k Hg Hc).
  fold st' in Hp. cbn [st DemoRenderHook _censor texts] in Hp.
  split; [exact Hp|]. split; [rewrite Hp; apply (censored_iter unicode_alnum c _ _ Hg)|].
  intros s Hs.
  assert (Ht := process_title unicode_alnum renderables st k s Hg Hc Hs).
  fold st' in Ht. cbn [st DemoRenderHook _censor] in Ht.
  split; [exact Ht|]. rewrite Ht. cbn [title_string].
  apply (censored_iter unicode_alnum c _ _ Hg).
Qed.

(** A Text listed twice is censored twice, and more of it than once would:
    the second time the titled pass finds ["Mr Smith"]. *)
Lemma listed_object_censored_each_time_witness :
  fst (texts (snd (process_renderables (R := styled) ascii_table [AText 0; AText 0]
                     (DemoRenderHook (__init__ tmp_proj)
                        (fun _ => styled_text "Xx Dr. May Mr Smith")
                        (fun _ => styled_markdown "") (fun _ => styled_rule "") 0))) 0)
  = blocks 5 ++ of_string ". May " ++ blocks 8
  /\ censored ascii_table (__init__ tmp_proj) (of_string "Xx Dr. May Mr Smith")
     = blocks 5 ++ of_string ". May Mr Smith".
Proof.
  destruct (listed_object_censored_each_time (R := styled) ascii_table tmp_proj
              (fun _ => styled_text "Xx Dr. May Mr Smith")
              (fun _ => styled_markdown "") (fun _ => styled_rule "") 0
              [AText 0; AText 0] 0) as (H & _).
  - repeat constructor.
  - split; [|vm_compute; reflexivity].
    etransitivity; [exact H|]. vm_compute. reflexivity.
Defined.

(** X16.  What the hook hands on shows no censored path segment: for a
    censor built from a workspace path without a block in its parts, and a
    list of renderables the hook can censor (the Markdown among them built
    before the call), [process_renderables] returns, and no original of the
    replacement table occurs in the plain string of a returned Text, in the
    markup of a returned Markdown or in the title of a returned Rule. *)
Theorem rendered_without_path_segments {R : Rich} (unicode_alnum : char -> bool)
        (workspace : Path) (texts0 : nat -> Text) (markdowns0 : nat -> Markdown)
        (rules0 : nat -> Rule) (n : nat) (renderables : list Renderable) :
  let c := __init__ workspace in
  let st := DemoRenderHook c texts0 markdowns0 rules0 n in
  let out := process_renderables unicode_alnum renderables st in
  Forall (fun part => ~ In block part) (parts workspace) ->
  Forall (built n) renderables ->
  Forall (censorable st) renderables ->
  exists result,
    fst out = inr result
    /\ Forall (shows_clear (_replacements c) (snd out)) result.
Proof.
  intros c st out Hfree Hb Hc.
  assert (Hg : good_table (_replacements (_censor st))) by apply init_good_table.
  destruct (process_returns unicode_alnum renderables st Hg Hc) as [result Hres].
  pose proof (process_results unicode_alnum renderables st result Hg Hc Hb Hres) as H2.
  exists result. split; [exact Hres|].
  assert (Hiter : forall m s, clear_of (_replacements c)
                                (Nat.iter (S m) (censored unicode_alnum c) s))
    by (intros m s; cbn [Nat.iter nat_rect]; apply censored_clear; exact Hfree).
  subst out. refine (Forall2_Forall_In _ _ _ _ _ H2).
  intros [k|k|k|k] r' Hin; cbn [stands_for].
  - intros ->. cbn [shows_clear].
    rewrite (process_plain unicode_alnum renderables st k Hg Hc).
    destruct (times_In _ _ Hin) as [m ->]. apply Hiter.
  - intros (k' & -> & _ & Hm). cbn [shows_clear].
    rewrite Hm, markup_make. apply censored_clear. exact Hfree.
  - intros ->. cbn [shows_clear].
    destruct (title (rules st k)) as [s|j] eqn:Et.
    + rewrite (process_title unicode_alnum renderables st k s Hg Hc Et).
      cbn [title_string]. destruct (times_In _ _ Hin) as [m ->]. apply Hiter.
    + rewrite process_rule_alone by (right; exists j; exact Et). rewrite Et.
      cbn [title_string].
      rewrite (process_plain unicode_alnum renderables st j Hg Hc).
      rewrite Forall_forall in Hc. specialize (Hc _ Hin). cbn [censorable] in Hc.
      rewrite Et in Hc. rewrite Hc.
      rewrite (censored_iter_empty unicode_alnum _ _ Hg).
      apply clear_of_empty. exact Hg.
  - intros ->. exact I.
Qed.

(** The hook of [tests/test_demo.py] on a Text, a Markdown and a Rule with
    the workspace path in them: ["jdoe"] is in none of the three after. *)
Lemma rendered_without_path_segments_witness :
  let out := process_renderables (R := styled) ascii_table
               [AText 0; AMarkdown 0; ARule 0]
               (DemoRenderHook (__init__ jdoe_proj)
                  (fun _ => styled_text "/Users/jdoe/Documents/Proj")
                  (fun _ => styled_markdown "Hello from /Users/jdoe/Documents/Proj")
                  (fun _ => styled_rule "Step 1 /Users/jdoe/Documents/Proj") 1) in
  exists result,
    fst out = inr result
    /\ Forall (shows_clear [(of_string "jdoe", blocks 4)] (snd out)) result.
Proof.
  apply (rendered_without_path_segments (R := styled) ascii_table jdoe_proj).
  - repeat constructor; cbv; intuition discriminate.
  - repeat constructor.
  - repeat constructor.
Defined.

(** X17.  A Rule whose title is a Text that is not empty makes
    [process_renderables] raise: [censor_text] is handed the Text, and
    fails with AttributeError at [text.replace] when the replacement table
    has an entry, with TypeError in [_RE_TITLED.sub] when it has none.
    Nothing is returned; the renderables listed before the Rule (ones the
    hook can censor) have been censored in place and stay so; the Rule and
    what is listed after it are not touched. *)
Theorem text_titled_rule_raises {R : Rich} (unicode_alnum : char -> bool)
        (workspace : Path) (texts0 : nat -> Text) (markdowns0 : nat -> Markdown)
        (rules0 : nat -> Rule) (n : nat) (before after : list Renderable)
        (k j : nat) :
  let c := __init__ workspace in
  let st := DemoRenderHook c texts0 markdowns0 rules0 n in
  Forall (censorable st) before ->
  title (rules0 k) = TextTitle j ->
  plain (texts0 j) <> [] ->
  process_renderables unicode_alnum (before ++ ARule k :: after) st
  = (inl (match _replacements c with
          | [] => TypeError
          | _ :: _ => AttributeError
          end),
     snd (process_renderables unicode_alnum before st))
  /\ rules (snd (process_renderables unicode_alnum before st)) k = rules0 k.
Proof.
  intros c st Hc Ht Hp.
  assert (Hg : good_table (_replacements (_censor st))) by apply init_good_table.
  assert (Hrule : rules (snd (process_renderables unicode_alnum before st)) k = rules0 k)
    by (apply process_rule_alone; right; exists j; exact Ht).
  split; [|exact Hrule].
  apply (process_app_raises unicode_alnum before after (ARule k) st _ Hg Hc).
  rewrite step_raises with (j := j).
  - rewrite process_censor. reflexivity.
  - rewrite Hrule. exact Ht.
  - rewrite (process_plain unicode_alnum before st j Hg Hc).
    intros Hnil. apply Hp.
    pose proof (censored_iter unicode_alnum (_censor st) (times (AText j) before)
                  (plain (texts st j)) Hg) as Hcens.
    rewrite Hnil in Hcens. cbn [st DemoRenderHook texts] in Hcens.
    destruct (plain (texts0 j)); [reflexivity | inversion Hcens].
Qed.

(** A Text and then a Rule with that Text for its title, under the path
    [/Users/jdoe/Documents/Proj]: the call raises AttributeError, and the
    Text has been censored. *)
Lemma text_titled_rule_raises_witness :
  let out := process_renderables (R := styled) ascii_table [AText 0; ARule 0]
               (DemoRenderHook (__init__ jdoe_proj)
                  (fun _ => styled_text "/Users/jdoe/Documents/Proj")
                  (fun _ => styled_markdown "")
                  (fun _ => text_titled_rule 0) 0) in
  fst out = inl AttributeError
  /\ fst (texts (snd out) 0)
     = of_string "/Users/" ++ blocks 4 ++ of_string "/Documents/Proj".
Proof.
  destruct (text_titled_rule_raises (R := styled) ascii_table jdoe_proj
              (fun _ => styled_text "/Users/jdoe/Documents/Proj")
              (fun _ => styled_markdown "")
              (fun _ => text_titled_rule 0) 0 [AText 0] [] 0 0) as [H _].
  - repeat constructor.
  - reflexivity.
  - discriminate.
  - cbv zeta. change ([AText 0; ARule 0]) with ([AText 0] ++ [ARule 0]).
    rewrite H. split; vm_compute; reflexivity.
Defined.

End HookFacts.

(* ================================================================== *)
(** * Part IV: results on the model of the client                      *)
(* ================================================================== *)

Module ModelFacts.
Import Model.
Local Open Scope string_scope.
Local Open Scope list_scope.

Lemma delivered_app (l1 l2 : list (Request * Response)) :
  delivered (l1 ++ l2) = delivered l1 ++ delivered l2.
Proof. apply flat_map_app. Qed.

Lemma text_of_app (d1 d2 : list DeltaEvent) :
  text_of (d1 ++ d2) = (text_of d1 ++ text_of d2)%string.
Proof.
  induction d1 as [|d d1 IH]; [reflexivity|].
  simpl. destruct (kind d); rewrite IH; [|reflexivity..].
  induction (fragment d); simpl; congruence.
Qed.

Lemma transient_delivered (req : Request) (n : nat) :
  delivered (repeat (req, Transient) n) = [].
Proof. induction n as [|n IH]; [reflexivity | exact IH]. Qed.

Lemma one_run_delivered (req : Request) (n : nat) (last : Response) :
  delivered (one_run req n last) = emitted_by last.
Proof.
  unfold one_run. rewrite delivered_app, transient_delivered.
  unfold delivered. cbn. apply app_nil_r.
Qed.

Lemma transient_quiet (ch : Choices) (req : Request) (n : nat) :
  quiet ch (repeat (req, Transient) n).
Proof. induction n; constructor; [reflexivity | assumption]. Qed.

(** One run of the transport engine: the tries before the last timed out,
    all tries carried the same request, the deltas handed on are those of
    the last response, and the result is what the last response comes to;
    configuration and persist log are untouched. *)
Lemma transport_trace (server : Server) (retries : nat) (req : Request)
      (st : Client) (res : Error + Turn) (st' : Client) :
  transport server retries req st = (res, st') ->
  exists (n : nat) (last : Response),
    sent st' = sent st ++ one_run req n last
    /\ emitted st' = emitted st ++ emitted_by last
    /\ res = outcome last
    /\ n <= retries
    /\ family st' = family st /\ config st' = config st
    /\ persisted st' = persisted st.
Proof.
  revert st; induction retries as [|retries IH]; intros st H.
  - cbn [transport] in H. unfold bind, post, emit, ret in H. cbn in H.
    exists 0, (server (length (sent st)) req).
    assert (H' : (outcome (server (length (sent st)) req),
                  {| family := family st; config := config st;
                     emitted := emitted st ++ emitted_by (server (length (sent st)) req);
                     persisted := persisted st;
                     sent := sent st ++ [(req, server (length (sent st)) req)] |})
                 = (res, st')).
    { destruct (server (length (sent st)) req); exact H. }
    injection H' as <- <-. cbn. repeat split; auto.
  - cbn [transport] in H. unfold bind at 1, post in H. cbv zeta in H.
    unfold bind at 1, emit in H. cbn [fst snd family config emitted persisted sent] in H.
    destruct (server (length (sent st)) req) as [fs|code body| |msg] eqn:E;
      try (unfold ret in H; injection H as <- <-;
           exists 0, (server (length (sent st)) req); rewrite E;
           cbn; repeat split; auto; lia).
    apply IH in H. destruct H as (n & last & Hs & He & Hr & Hl & Hf & Hc & Hp).
    cbn in Hs, He, Hf, Hc, Hp.
    exists (S n), last. unfold one_run in *. cbn [repeat app].
    rewrite Hs, He. rewrite <- !app_assoc, ?app_nil_r. cbn [app].
    repeat split; auto; lia.
Qed.

Lemma transport_frame (server : Server) (retries : nat) (req : Request)
      (st : Client) (res : Error + Turn) (st' : Client) :
  transport server retries req st = (res, st') ->
  family st' = family st /\ config st' = config st /\ persisted st' = persisted st.
Proof.
  intros H. apply transport_trace in H as (_ & _ & _ & _ & _ & _ & Hf & Hc & Hp).
  repeat split; assumption.
Qed.

Lemma degrade_frame (swap_hit : bool) (cfg : RequestConfig) (st : Client) :
  sent (degrade swap_hit cfg st) = sent st
  /\ emitted (degrade swap_hit cfg st) = emitted st
  /\ family (degrade swap_hit cfg st) = family st.
Proof. destruct swap_hit; repeat split; reflexivity. Qed.

Lemma degrade_config (swap_hit : bool) (cfg : RequestConfig) (st : Client) :
  config (degrade swap_hit cfg st)
  = if swap_hit then with_base_url (config st) (fallback_base_url (base_url cfg))
    else config st.
Proof. destruct swap_hit; reflexivity. Qed.



Lemma attempt_eq (ch : Choices) (server : Server) (stripped : bool)
      (conv : Conversation) (st : Client) :
  attempt ch server stripped conv st =
  let req := request_for ch (family st) stripped conv (config st) in
  ((req, classify ch (fst (transport server (max_retries (config st)) req st))),
   snd (transport server (max_retries (config st)) req st)).
Proof.
  cbv [attempt bind get_config build_request get_family ret].
  destruct (transport server _ _ st) as [r st1]. reflexivity.
Qed.

(** The state machine of the controller, written out: the first attempt
    and, after a failure of one of the two kinds, the degraded attempt. *)
Lemma controller_eq (ch : Choices) (server : Server) (conv : Conversation)
      (st : Client) :
  controller ch server conv st =
  let fam := family st in
  let cfg := config st in
  let req1 := request_for ch fam false conv cfg in
  let run1 := transport server (max_retries cfg) req1 st in
  match classify ch (fst run1) with
  | inr turn => (inr turn, snd run1)
  | inl e =>
      let strip_hit := names_rejected_field fam e in
      let swap_hit := from_deprecated_endpoint cfg (url req1) e in
      if strip_hit || swap_hit
      then let st2 := degrade swap_hit cfg (snd run1) in
           let req2 := request_for ch fam strip_hit conv (config st2) in
           let run2 := transport server (max_retries cfg) req2 st2 in
           (classify ch (fst run2), snd run2)
      else (inl e, snd run1)
  end.
Proof.
  unfold controller. unfold bind at 1, get_config. unfold bind at 1, get_family.
  unfold bind at 1. rewrite attempt_eq. cbv zeta. cbn [fst snd].
  destruct (transport server (max_retries (config st))
              (request_for ch (family st) false conv (config st)) st)
    as [r1 st1] eqn:Et. cbn [fst snd].
  apply transport_frame in Et as (Hf1 & Hc1 & _).
  destruct (classify ch r1) as [e|turn]; [|reflexivity].
  destruct (names_rejected_field (family st) e
            || from_deprecated_endpoint (config st)
                 (url (request_for ch (family st) false conv (config st))) e) eqn:Ehit;
    [|reflexivity].
  unfold bind at 1.
  assert (Hdeg : (if from_deprecated_endpoint (config st)
                       (url (request_for ch (family st) false conv (config st))) e
                  then set_base_url (fallback_base_url (base_url (config st))) ;;;
                       persist (fallback_base_url (base_url (config st)))
                  else ret tt) st1
                 = (tt, degrade (from_deprecated_endpoint (config st)
                                   (url (request_for ch (family st) false conv (config st))) e)
                                (config st) st1)).
  { unfold degrade. destruct (from_deprecated_endpoint _ _ e); reflexivity. }
  rewrite Hdeg. unfold bind at 1. rewrite attempt_eq. cbv zeta. cbn [fst snd ret].
  destruct (degrade_frame (from_deprecated_endpoint (config st)
                             (url (request_for ch (family st) false conv (config st))) e)
                          (config st) st1) as (_ & _ & Hf2).
  rewrite Hf2, Hf1.
  replace (max_retries (config (degrade (from_deprecated_endpoint (config st)
             (url (request_for ch (family st) false conv (config st))) e)
             (config st) st1)))
    with (max_retries (config st))
    by (rewrite degrade_config, Hc1; destruct (from_deprecated_endpoint _ _ e); reflexivity).
  reflexivity.
Qed.

Lemma complete_eq (ch : Choices) (server : Server) (conv : Conversation) (st : Client) :
  complete ch server conv st
  = (finish conv (fst (controller ch server conv st)),
     snd (controller ch server conv st)).
Proof.
  unfold complete, bind, ret.
  destruct (controller ch server conv st) as [r st']. reflexivity.
Qed.

Lemma complete_controller (ch : Choices) (server : Server) (conv : Conversation)
      (st : Client) (res : Error + Turn) (conv' : Conversation) (st' : Client) :
  complete ch server conv st = ((res, conv'), st') ->
  controller ch server conv st = (res, st')
  /\ conv' = match res with
             | inr turn => conv ++ [assistant_message turn]
             | inl _ => conv
             end.
Proof.
  rewrite complete_eq.
  destruct (controller ch server conv st) as [[e|turn] st1]; cbn [fst snd finish];
    intros H; injection H as <- <- <-; split; reflexivity.
Qed.

(** A failure that sets a degradation off comes from a response that
    delivered nothing and was not throttled: the texts of the errors of the
    transport itself name no field. *)
Lemma degrading_response (ch : Choices) (fam : Family) (cfg : RequestConfig)
      (u : string) (last : Response) (e : Error) :
  classify ch (outcome last) = inl e ->
  names_rejected_field fam e || from_deprecated_endpoint cfg u e = true ->
  emitted_by last = [] /\ throttled ch last = false.
Proof.
  intros Hc Hhit. unfold throttled.
  destruct last as [fs|code body| |msg]; cbn [outcome emitted_by] in *;
    try (split; reflexivity).
  destruct (assemble fs) as [turn|]; cbn [classify] in Hc.
  - destruct (signals_throttling ch (stop_reason turn)); [|discriminate].
    injection Hc as <-. discriminate.
  - injection Hc as <-. destruct fam; discriminate.
Qed.

(** One call of the controller: the exchange log grows by the earlier
    exchanges and a last one; the deltas handed on are those of the last
    response; the result is the classified outcome of the last response; no
    earlier response signalled throttling. *)
Lemma controller_trace (ch : Choices) (server : Server) (conv : Conversation)
      (st : Client) (res : Error + Turn) (st' : Client) :
  controller ch server conv st = (res, st') ->
  exists (earlier : list (Request * Response)) (req : Request) (last : Response),
    sent st' = sent st ++ earlier ++ [(req, last)]
    /\ emitted st' = emitted st ++ emitted_by last
    /\ res = classify ch (outcome last)
    /\ quiet ch earlier
    /\ family st' = family st.
Proof.
  rewrite controller_eq. cbv zeta.
  destruct (transport server _ _ st) as [r1 st1] eqn:Et1. cbn [fst snd].
  apply transport_trace in Et1 as (n1 & last1 & Hs1 & He1 & Hr1 & _ & Hf1 & _ & _).
  set (req1 := request_for ch (family st) false conv (config st)) in *.
  assert (Hdone : forall res0, (res0, st1) = (res, st') -> res0 = classify ch r1 ->
            exists earlier req0 last0,
              sent st' = sent st ++ earlier ++ [(req0, last0)]
              /\ emitted st' = emitted st ++ emitted_by last0
              /\ res = classify ch (outcome last0)
              /\ quiet ch earlier /\ family st' = family st).
  { intros res0 Heq Hres. injection Heq as <- <-.
    exists (repeat (req1, Transient) n1), req1, last1.
    rewrite Hs1, He1, Hres, Hr1. repeat split; auto using transient_quiet. }
  destruct (classify ch r1) as [e|turn] eqn:Ec;
    [|intros H; apply (Hdone _ H); reflexivity].
  destruct (_ || _) eqn:Ehit; [|intros H; apply (Hdone _ H); reflexivity].
  clear Hdone.
  set (swap := from_deprecated_endpoint (config st) (url req1) e) in *.
  set (st2 := degrade swap (config st) st1).
  destruct (transport server _ _ st2) as [r2 st3] eqn:Et2. cbn [fst snd].
  intros H; injection H as <- <-.
  apply transport_trace in Et2 as (n2 & last2 & Hs2 & He2 & Hr2 & _ & Hf2 & _ & _).
  destruct (degrade_frame swap (config st) st1) as (Ds & De & Df).
  fold st2 in Ds, De, Df. rewrite Ds in Hs2. rewrite De in He2. rewrite Df in Hf2.
  rewrite Hr1 in Ec.
  destruct (degrading_response ch _ _ _ _ _ Ec Ehit) as [Hnil Hq].
  match type of Hs2 with
  | _ = _ ++ one_run ?r _ _ =>
      exists (one_run req1 n1 last1 ++ repeat (r, Transient) n2), r, last2
  end.
  split; [rewrite Hs2, Hs1; unfold one_run; rewrite <- !app_assoc; reflexivity|].
  split; [rewrite He2, He1, Hnil, app_nil_r; reflexivity|].
  split; [rewrite Hr2; reflexivity|]. split; [|congruence].
  apply Forall_app; split; [|apply transient_quiet].
  unfold one_run. apply Forall_app; split; [apply transient_quiet|].
  constructor; [exact Hq | constructor].
Qed.


Lemma classify_turn (ch : Choices) (r : Error + Turn) (turn : Turn) :
  classify ch r = inr turn -> r = inr turn.
Proof.
  destruct r as [e|t]; simpl; [discriminate|].
  destruct (signals_throttling ch (stop_reason t)); congruence.
Qed.

Lemma assemble_text (frames : list Frame) (turn : Turn) :
  assemble frames = Some turn -> text turn = text_of (deltas_of frames).
Proof.
  unfold assemble. destruct (last_some (map frame_reason frames)); [|discriminate].
  intros H; injection H as <-. reflexivity.
Qed.

(** For every successful [complete] call, the DeltaEvents handed to
    [on_content_delta] in the call are the deltas of one stream, the one
    the returned Turn was assembled from, in emission order, and the
    fragments of those of kind text concatenate to the text of the Turn
    exactly (thinking and tool-call deltas apart).  The tries that timed out
    and the attempt that failed before a degradation handed nothing on. *)
Theorem text_deltas_are_turn_text (ch : Choices) (server : Server)
        (conv : Conversation) (st : Client) (turn : Turn)
        (conv' : Conversation) (st' : Client) :
  complete ch server conv st = ((inr turn, conv'), st') ->
  exists (handed : list DeltaEvent) (frames : list Frame),
    emitted st' = emitted st ++ handed
    /\ handed = deltas_of frames
    /\ assemble frames = Some turn
    /\ text_of handed = text turn.
Proof.
  intros H. apply complete_controller in H as [H _].
  apply controller_trace in H as (earlier & req & last & _ & He & Hr & _ & _).
  symmetry in Hr. apply classify_turn in Hr.
  destruct last as [fs|code body| |msg]; cbn [outcome] in Hr; try discriminate.
  destruct (assemble fs) as [t|] eqn:Ea; [|discriminate].
  injection Hr as ->. exists (deltas_of fs), fs.
  repeat split; [exact He | exact Ea | symmetry; apply assemble_text; exact Ea].
Qed.

(** [test_openai_reasoning_content_forwards_as_thinking]: a thinking delta
    and a text delta are handed on, and the text of the Turn is that of the
    text delta. *)
Lemma text_deltas_are_turn_text_witness :
  exists (handed : list DeltaEvent) (frames : list Frame),
    emitted (snd (complete test_choices reasoning_server test_conv glm_client))
    = emitted glm_client ++ handed
    /\ handed = deltas_of frames
    /\ assemble frames = Some (message_of "final text" "stop")
    /\ text_of handed = text (message_of "final text" "stop").
Proof.
  apply (text_deltas_are_turn_text test_choices reasoning_server test_conv glm_client
           (message_of "final text" "stop")
           (snd (fst (complete test_choices reasoning_server test_conv glm_client)))).
  vm_compute. reflexivity.
Defined.



Lemma without_key_keys (key : string) (fields : list (string * json)) :
  ~ In key (keys (without_key key fields)).
Proof.
  unfold keys, without_key. rewrite in_map_iff. intros [[k v] [Hk Hin]].
  simpl in Hk. subst k. apply filter_In in Hin as [_ Hin]. simpl in Hin.
  rewrite String.eqb_refl in Hin. discriminate.
Qed.



(** C5.  The Anthropic body of a model in the adaptive-thinking class has
    [thinking = {type: adaptive}] and [output_config = {effort: level}] and
    no [temperature] key; the body of any other model has
    [thinking = {type: enabled, budget_tokens: N}] with N the budget of the
    reasoning-effort level; the budget of effort medium is 4096. *)
Theorem anthropic_thinking_payload (ch : Choices) (conv : Conversation)
        (cfg : RequestConfig) :
  let fields := fields_of (build_payload ch Anthropic conv cfg) in
  (if adaptive_thinking ch (model cfg)
   then lookup "thinking" fields = Some (JObj [("type", JStr "adaptive")])
        /\ lookup "output_config" fields
           = Some (JObj [("effort", JStr (effort_name (reasoning_effort cfg)))])
        /\ ~ In "temperature" (keys fields)
   else lookup "thinking" fields
        = Some (JObj [("type", JStr "enabled");
                      ("budget_tokens",
                       JNum (budget_tokens ch (reasoning_effort cfg)))]))
  /\ budget_tokens ch Medium = 4096%N.
Proof.
  cbv zeta. split; [|reflexivity].
  unfold build_payload, build_anthropic.
  destruct (adaptive_thinking ch (model cfg)); cbn [fields_of].
  - repeat split; try reflexivity.
    unfold keys. rewrite !map_app, !in_app_iff. cbn [map fst In].
    intros [H|[H|H]].
    + intuition discriminate.
    + intuition discriminate.
    + exact (without_key_keys "temperature" (other_fields ch) H).
  - reflexivity.
Qed.

(* ------------------------------------------------------------------ *)
(** ** The two degradations *)






End ModelFacts.
